(** * weakable_unique_ptr / unique_weak_ptr

    A shallow embedding of [weakable_unique_ptr.hpp]: the control block
    (the "liveness cell"), the exclusive owner [weakable_unique_ptr] and
    the observer [unique_weak_ptr], together with the part of Boost's
    [intrusive_ptr] the header relies on.

    C++ objects live in a store: owners and observers are looked up by
    the name of the variable that holds them, control blocks by their
    heap address.  Temporaries of the copy-and-swap idiom are objects of
    the store like any other, created under an unused name and destroyed
    at the end of the full expression.

    What is left out: the owned object itself (only its address is
    kept), what a deleter does when it is called (the call is recorded,
    and the deleter is taken not to touch the handles), and failure of
    [new].  The [Y], [E] converting overloads behave as the plain ones
    once types are erased and are not modelled apart. *)

From stdpp Require Import gmap list.
From Stdlib Require Import ZArith.

Local Open Scope Z_scope.

(** ** Counting the entries of a finite map *)

Definition one_if (P : Prop) `{Decision P} : nat :=
  if decide P then 1%nat else 0%nat.

Definition count_if `{Countable K} {A} (P : A → Prop) `{∀ a, Decision (P a)}
    (m : gmap K A) : nat :=
  size (filter (λ kv, P kv.2) m).

(** [LONG_MAX] where [long] has 64 bits. *)
Definition LONG_MAX_64 : Z := 2 ^ 63 - 1.

(** ** Data model *)

(** [element_type*]: an address, [0] being the null pointer. *)
Definition pointer := N.
Definition nullptr : pointer := 0%N.

(** Address of a heap-allocated control block, and name of a variable. *)
Definition loc := positive.
Definition var := nat.

(** [boost::intrusive_ptr<control_block>]: a possibly null address. *)
Definition intrusive_ptr := option loc.

(** [detail::weakable_unique_ptr_control_block<T>] *)
Record control_block := ControlBlock {
  ref_count : Z;
  cb_px : pointer
}.

(** [unique_weak_ptr<T>] *)
Record unique_weak_ptr := UniqueWeakPtr {
  w_pc : intrusive_ptr
}.

Section Deleter.

(** The [Deleter] template parameter, the value [Deleter()], what a
    deleter holds after it has been moved from, and [LONG_MAX]. *)
Context {Deleter : Type}.
Variable default_delete : Deleter.
Variable moved_from : Deleter → Deleter.
Variable LONG_MAX : Z.

(** The C++ standard requires [long] to have at least 32 bits. *)
Hypothesis LONG_MAX_min : 2147483647 ≤ LONG_MAX.

(** [weakable_unique_ptr<T, Deleter>] *)
Record weakable_unique_ptr := WeakableUniquePtr {
  px : pointer;
  pd : Deleter;
  pc : intrusive_ptr
}.

(** What an execution does that is visible from outside the two handle
    types: calls of the deleter, and the life of control blocks. *)
Inductive event :=
  | EvDelete (d : Deleter) (p : pointer)   (* pd( px ) *)
  | EvNew (l : loc) (p : pointer)          (* new control_block( p ) *)
  | EvReset (l : loc)                      (* ( *pc ).reset() *)
  | EvFree (l : loc).                      (* delete p *)

Record world := World {
  owners : gmap var weakable_unique_ptr;
  weaks : gmap var unique_weak_ptr;
  heap : gmap loc control_block;
  trace : list event
}.

Definition empty_world : world := World ∅ ∅ ∅ [].

(** ** Computations

    A computation either runs into undefined behaviour ([None]: a name
    that denotes no live object, an access to a freed control block, an
    overflow of the signed counter) or returns a value and a new store. *)
Definition M (A : Type) : Type := world → option (A * world).

Definition ret {A} (a : A) : M A := λ w, Some (a, w).
Definition bind {A B} (f : A → M B) (m : M A) : M B :=
  λ w, match m w with
       | Some (a, w') => f a w'
       | None => None
       end.

#[global] Instance M_ret : MRet M := @ret.
#[global] Instance M_bind : MBind M := @bind.

Definition with_owners (f : gmap var weakable_unique_ptr → gmap var weakable_unique_ptr)
    (w : world) : world :=
  World (f (owners w)) (weaks w) (heap w) (trace w).
Definition with_weaks (f : gmap var unique_weak_ptr → gmap var unique_weak_ptr)
    (w : world) : world :=
  World (owners w) (f (weaks w)) (heap w) (trace w).
Definition with_heap (f : gmap loc control_block → gmap loc control_block)
    (w : world) : world :=
  World (owners w) (weaks w) (f (heap w)) (trace w).

Definition emit (e : event) : M unit :=
  λ w, Some (tt, World (owners w) (weaks w) (heap w) (trace w ++ [e])).

(** *** Objects of the store *)

Definition get_owner (o : var) : M weakable_unique_ptr :=
  λ w, match owners w !! o with
       | Some v => Some (v, w)
       | None => None
       end.
Definition set_owner (o : var) (v : weakable_unique_ptr) : M unit :=
  λ w, match owners w !! o with
       | Some _ => Some (tt, with_owners <[o := v]> w)
       | None => None
       end.
Definition new_owner (o : var) (v : weakable_unique_ptr) : M unit :=
  λ w, match owners w !! o with
       | Some _ => None
       | None => Some (tt, with_owners <[o := v]> w)
       end.
Definition end_owner (o : var) : M unit :=
  λ w, match owners w !! o with
       | Some _ => Some (tt, with_owners (delete o) w)
       | None => None
       end.
Definition temp_owner : M var :=
  λ w, Some (fresh (dom (owners w)), w).

Definition get_weak (x : var) : M unique_weak_ptr :=
  λ w, match weaks w !! x with
       | Some v => Some (v, w)
       | None => None
       end.
Definition set_weak (x : var) (v : unique_weak_ptr) : M unit :=
  λ w, match weaks w !! x with
       | Some _ => Some (tt, with_weaks <[x := v]> w)
       | None => None
       end.
Definition new_weak (x : var) (v : unique_weak_ptr) : M unit :=
  λ w, match weaks w !! x with
       | Some _ => None
       | None => Some (tt, with_weaks <[x := v]> w)
       end.
Definition end_weak (x : var) : M unit :=
  λ w, match weaks w !! x with
       | Some _ => Some (tt, with_weaks (delete x) w)
       | None => None
       end.
Definition temp_weak : M var :=
  λ w, Some (fresh (dom (weaks w)), w).

(** *** The control block *)

(** [new control_block( p )]: [ref_count( 0 ), px( p )] at an unused
    address. *)
Definition cb_new (p : pointer) : M loc :=
  λ w, let l := fresh (dom (heap w)) in
       Some (l, World (owners w) (weaks w)
                      (<[l := ControlBlock 0 p]> (heap w))
                      (trace w ++ [EvNew l p])).

(** [control_block::reset]: [px = nullptr]. *)
Definition cb_reset (l : loc) : M unit :=
  λ w, match heap w !! l with
       | Some c => Some (tt, World (owners w) (weaks w)
                                   (<[l := ControlBlock (ref_count c) nullptr]> (heap w))
                                   (trace w ++ [EvReset l]))
       | None => None
       end.

(** [control_block::get] *)
Definition cb_get (l : loc) : M pointer :=
  λ w, match heap w !! l with
       | Some c => Some (cb_px c, w)
       | None => None
       end.

(** [intrusive_ptr_add_ref]: [++p->ref_count]. *)
Definition intrusive_ptr_add_ref (l : loc) : M unit :=
  λ w, match heap w !! l with
       | Some c =>
           if decide (ref_count c < LONG_MAX)
           then Some (tt, with_heap <[l := ControlBlock (ref_count c + 1) (cb_px c)]> w)
           else None
       | None => None
       end.

(** [intrusive_ptr_release]: [if ( --p->ref_count == 0 ) delete p]. *)
Definition intrusive_ptr_release (l : loc) : M unit :=
  λ w, match heap w !! l with
       | Some c =>
           if decide (- LONG_MAX - 1 < ref_count c)
           then if decide (ref_count c - 1 = 0)
                then Some (tt, World (owners w) (weaks w) (delete l (heap w))
                                     (trace w ++ [EvFree l]))
                else Some (tt, with_heap <[l := ControlBlock (ref_count c - 1) (cb_px c)]> w)
           else None
       | None => None
       end.

(** *** [boost::intrusive_ptr] *)

(** [intrusive_ptr( T * p )] and the copy constructor: the count of a
    non-null pointee goes up. *)
Definition ip_acquire (p : intrusive_ptr) : M intrusive_ptr :=
  match p with
  | Some l => intrusive_ptr_add_ref l;; mret (Some l)
  | None => mret None
  end.

(** [~intrusive_ptr]: the count of a non-null pointee goes down. *)
Definition ip_destroy (p : intrusive_ptr) : M unit :=
  match p with
  | Some l => intrusive_ptr_release l
  | None => mret tt
  end.

(** ** The exclusive owner, [weakable_unique_ptr]

    Invoking the deleter is recorded in the trace; what the deleter does
    to the object is outside the header and outside this model. *)

(** [~weakable_unique_ptr()]: the body, then the members ([pc] is the
    only one with a destructor of its own), then the storage. *)
Definition owner_destroy (o : var) : M unit :=
  v ← get_owner o;
  (if decide (px v = nullptr) then mret tt else emit (EvDelete (pd v) (px v)));;
  match pc v with
  | Some l => cb_reset l
  | None => mret tt
  end;;
  ip_destroy (pc v);;
  end_owner o.

(** [weakable_unique_ptr()] and [weakable_unique_ptr( std::nullptr_t )]:
    [px( 0 ), pd( ), pc( )]. *)
Definition owner_default (o : var) : M unit :=
  new_owner o (WeakableUniquePtr nullptr default_delete None).

Definition owner_nullptr (o : var) : M unit :=
  new_owner o (WeakableUniquePtr nullptr default_delete None).

(** [weakable_unique_ptr( pointer p )]:
    [px( p ), pd( ), pc( new control_block( p ) )]. *)
Definition owner_pointer (o : var) (p : pointer) : M unit :=
  l ← cb_new p;
  c ← ip_acquire (Some l);
  new_owner o (WeakableUniquePtr p default_delete c).

(** [weakable_unique_ptr( pointer p, const D& d )] and the [D&&]
    overload: [px( p ), pd( d ), pc( new control_block( p ) )], the
    deleter being copied or moved in. *)
Definition owner_pointer_deleter (o : var) (p : pointer) (d : Deleter) : M unit :=
  l ← cb_new p;
  c ← ip_acquire (Some l);
  new_owner o (WeakableUniquePtr p d c).

(** [weakable_unique_ptr( weakable_unique_ptr && r )] and the converting
    move constructor:
    [px( r.px ), pd( std::move( r.pd ) ), pc( std::move( r.pc ) )], then
    [r.px = 0].  Moving an [intrusive_ptr] leaves the count alone and
    the source null. *)
Definition owner_move (o r : var) : M unit :=
  v ← get_owner r;
  set_owner r (WeakableUniquePtr nullptr (moved_from (pd v)) None);;
  new_owner o (WeakableUniquePtr (px v) (pd v) (pc v)).

(** [swap( weakable_unique_ptr & r )]: the three members are exchanged;
    [std::swap] moves, so no count changes. *)
Definition owner_swap (o r : var) : M unit :=
  a ← get_owner o;
  b ← get_owner r;
  set_owner o b;;
  set_owner r a.

(** [operator=( weakable_unique_ptr && r )] and the converting overload:
    [weakable_unique_ptr( std::move( r ) ).swap( *this )]. *)
Definition owner_assign_move (o r : var) : M unit :=
  tmp ← temp_owner;
  owner_move tmp r;;
  owner_swap tmp o;;
  owner_destroy tmp.

(** [operator=( std::nullptr_t )]: [weakable_unique_ptr().swap( *this )]. *)
Definition owner_assign_nullptr (o : var) : M unit :=
  tmp ← temp_owner;
  owner_default tmp;;
  owner_swap tmp o;;
  owner_destroy tmp.

(** [release()]:
    [weakable_unique_ptr tmp; tmp.swap( *this );
     return boost::exchange( tmp.px, nullptr );] *)
Definition owner_release (o : var) : M pointer :=
  tmp ← temp_owner;
  owner_default tmp;;
  owner_swap tmp o;;
  t ← get_owner tmp;
  set_owner tmp (WeakableUniquePtr nullptr (pd t) (pc t));;
  owner_destroy tmp;;
  mret (px t).

(** [reset( pointer p = pointer() )]:
    [weakable_unique_ptr( p ).swap( *this )]. *)
Definition owner_reset (o : var) (p : pointer) : M unit :=
  tmp ← temp_owner;
  owner_pointer tmp p;;
  owner_swap tmp o;;
  owner_destroy tmp.

(** [get()] and [operator->]: [return px]. *)
Definition owner_get (o : var) : M pointer :=
  v ← get_owner o;
  mret (px v).

(** [get_deleter()]: [return pd]. *)
Definition owner_get_deleter (o : var) : M Deleter :=
  v ← get_owner o;
  mret (pd v).

(** [explicit operator bool()]: [return px != 0]. *)
Definition owner_bool (o : var) : M bool :=
  v ← get_owner o;
  mret (bool_decide (px v ≠ nullptr)).

(** ** The observer, [unique_weak_ptr] *)

(** [~unique_weak_ptr()]: empty body, then the member [pc]. *)
Definition weak_destroy (x : var) : M unit :=
  v ← get_weak x;
  ip_destroy (w_pc v);;
  end_weak x.

(** [unique_weak_ptr()]: [pc( )]. *)
Definition weak_default (x : var) : M unit :=
  new_weak x (UniqueWeakPtr None).

(** [unique_weak_ptr( const unique_weak_ptr& r )]: [pc( r.pc )]; the
    converting overload goes through [static_pointer_cast], which builds
    an [intrusive_ptr] from the raw address and counts all the same. *)
Definition weak_copy (x r : var) : M unit :=
  v ← get_weak r;
  c ← ip_acquire (w_pc v);
  new_weak x (UniqueWeakPtr c).

(** [unique_weak_ptr( const weakable_unique_ptr<Y>& r )]:
    [pc( boost::static_pointer_cast<control_block>( r.pc ) )]. *)
Definition weak_from_owner (x o : var) : M unit :=
  v ← get_owner o;
  c ← ip_acquire (pc v);
  new_weak x (UniqueWeakPtr c).

(** [unique_weak_ptr( unique_weak_ptr&& r )] and the converting
    overload: [pc( std::move( r.pc ) )]. *)
Definition weak_move (x r : var) : M unit :=
  v ← get_weak r;
  set_weak r (UniqueWeakPtr None);;
  new_weak x (UniqueWeakPtr (w_pc v)).

(** [swap( unique_weak_ptr& r )]: [std::swap( pc, r.pc )]. *)
Definition weak_swap (x r : var) : M unit :=
  a ← get_weak x;
  b ← get_weak r;
  set_weak x b;;
  set_weak r a.

(** [operator=( const unique_weak_ptr& r )] and the converting overload:
    [unique_weak_ptr( r ).swap( *this )]. *)
Definition weak_assign_copy (x r : var) : M unit :=
  tmp ← temp_weak;
  weak_copy tmp r;;
  weak_swap tmp x;;
  weak_destroy tmp.

(** [operator=( const weakable_unique_ptr<Y>& r )]:
    [unique_weak_ptr( r ).swap( *this )]. *)
Definition weak_assign_owner (x o : var) : M unit :=
  tmp ← temp_weak;
  weak_from_owner tmp o;;
  weak_swap tmp x;;
  weak_destroy tmp.

(** [operator=( unique_weak_ptr&& r )] and the converting overload:
    [unique_weak_ptr( std::move( r ) ).swap( *this )]. *)
Definition weak_assign_move (x r : var) : M unit :=
  tmp ← temp_weak;
  weak_move tmp r;;
  weak_swap tmp x;;
  weak_destroy tmp.

(** [reset()]: [unique_weak_ptr().swap( *this )]. *)
Definition weak_reset (x : var) : M unit :=
  tmp ← temp_weak;
  weak_default tmp;;
  weak_swap tmp x;;
  weak_destroy tmp.

(** [expired()]: [return !( pc && pc->get() )]. *)
Definition expired (x : var) : M bool :=
  v ← get_weak x;
  match w_pc v with
  | Some l => p ← cb_get l; mret (negb (bool_decide (p ≠ nullptr)))
  | None => mret true
  end.

(** [try_get()]: [return pc ? pc->get() : nullptr]. *)
Definition try_get (x : var) : M pointer :=
  v ← get_weak x;
  match w_pc v with
  | Some l => cb_get l
  | None => mret nullptr
  end.

(** ** Programs

    The state-changing operations of the two classes.  The copy
    constructor and the copy assignment of the owner are deleted in the
    header, so there is nothing to run for them. *)
Inductive cmd :=
  | OwnerDestroy (o : var)
  | OwnerDefault (o : var)
  | OwnerNullptr (o : var)
  | OwnerPointer (o : var) (p : pointer)
  | OwnerPointerDeleter (o : var) (p : pointer) (d : Deleter)
  | OwnerMove (o r : var)
  | OwnerAssignMove (o r : var)
  | OwnerAssignNullptr (o : var)
  | OwnerRelease (o : var)
  | OwnerReset (o : var) (p : pointer)
  | OwnerSwap (o r : var)
  | WeakDestroy (x : var)
  | WeakDefault (x : var)
  | WeakCopy (x r : var)
  | WeakFromOwner (x o : var)
  | WeakMove (x r : var)
  | WeakAssignCopy (x r : var)
  | WeakAssignOwner (x o : var)
  | WeakAssignMove (x r : var)
  | WeakReset (x : var)
  | WeakSwap (x r : var).

Definition exec (c : cmd) : M unit :=
  match c with
  | OwnerDestroy o => owner_destroy o
  | OwnerDefault o => owner_default o
  | OwnerNullptr o => owner_nullptr o
  | OwnerPointer o p => owner_pointer o p
  | OwnerPointerDeleter o p d => owner_pointer_deleter o p d
  | OwnerMove o r => owner_move o r
  | OwnerAssignMove o r => owner_assign_move o r
  | OwnerAssignNullptr o => owner_assign_nullptr o
  | OwnerRelease o => owner_release o;; mret tt
  | OwnerReset o p => owner_reset o p
  | OwnerSwap o r => owner_swap o r
  | WeakDestroy x => weak_destroy x
  | WeakDefault x => weak_default x
  | WeakCopy x r => weak_copy x r
  | WeakFromOwner x o => weak_from_owner x o
  | WeakMove x r => weak_move x r
  | WeakAssignCopy x r => weak_assign_copy x r
  | WeakAssignOwner x o => weak_assign_owner x o
  | WeakAssignMove x r => weak_assign_move x r
  | WeakReset x => weak_reset x
  | WeakSwap x r => weak_swap x r
  end.

Fixpoint run (cs : list cmd) : M unit :=
  match cs with
  | [] => mret tt
  | c :: cs' => exec c;; run cs'
  end.

(** ** Well-formed stores

    [handles w l] is the number of live [intrusive_ptr]s to the control
    block at [l]: the [pc] members of the owners and of the observers. *)
Definition handles (w : world) (l : loc) : nat :=
  (count_if (λ v, pc v = Some l) (owners w)
   + count_if (λ v, w_pc v = Some l) (weaks w))%nat.

(** The owner named by [ex], if any, is in the middle of [release()]:
    its [px] has been taken out and its destructor has not run yet. *)
Record wf_but (ex : option var) (w : world) : Prop := {
  wf_count : ∀ l c, heap w !! l = Some c →
    ref_count c = Z.of_nat (handles w l) ∧ 0 < ref_count c;
  wf_owner_cell : ∀ o v l, owners w !! o = Some v → pc v = Some l →
    is_Some (heap w !! l);
  wf_owner_px : ∀ o v, owners w !! o = Some v → ex ≠ Some o →
    match pc v with
    | Some l => ∃ c, heap w !! l = Some c ∧ cb_px c = px v
    | None => px v = nullptr
    end;
  wf_weak_cell : ∀ x v l, weaks w !! x = Some v → w_pc v = Some l →
    is_Some (heap w !! l);
  wf_unique : ∀ o1 o2 v1 v2 l,
    owners w !! o1 = Some v1 → owners w !! o2 = Some v2 →
    pc v1 = Some l → pc v2 = Some l → o1 = o2;
  wf_live : ∀ l c, heap w !! l = Some c → cb_px c ≠ nullptr →
    ∃ o v, owners w !! o = Some v ∧ pc v = Some l
}.

Definition wf : world → Prop := wf_but None.

(** ** Closed forms

    What the destructor of an owner holding [c] leaves of the heap [h]
    (the control block is reset, then released), and the events it adds
    for an owner [v]. *)
Definition heap_after_destroy (c : intrusive_ptr) (h : gmap loc control_block) :
    gmap loc control_block :=
  match c with
  | Some l =>
      match h !! l with
      | Some b =>
          if decide (ref_count b - 1 = 0) then delete l h
          else <[l := ControlBlock (ref_count b - 1) nullptr]> h
      | None => h
      end
  | None => h
  end.

Definition events_of_destroy (v : weakable_unique_ptr) (h : gmap loc control_block) :
    list event :=
  (if decide (px v = nullptr) then [] else [EvDelete (pd v) (px v)])
  ++ match pc v with
     | Some l =>
         EvReset l ::
         match h !! l with
         | Some b => if decide (ref_count b - 1 = 0) then [EvFree l] else []
         | None => []
         end
     | None => []
     end.

(** An owner of nothing: [px( 0 ), pd( ), pc( )]. *)
Definition empty_owner : weakable_unique_ptr :=
  WeakableUniquePtr nullptr default_delete None.

(** What an observer has to answer once the object is gone. *)
Definition reports_expired (x : var) (w : world) : Prop :=
  expired x w = Some (true, w) ∧ try_get x w = Some (nullptr, w).

(** The observer [x] holds the control block the owner [o] holds, or
    both hold none: what [x] is right after it is built from [o]. *)
Definition snapshot_of (x o : var) (w : world) : Prop :=
  ∃ u v, weaks w !! x = Some u ∧ owners w !! o = Some v ∧ w_pc u = pc v.

(** [e1] is recorded before [e2]. *)
Definition precedes (e1 e2 : event) (t : list event) : Prop :=
  ∃ i j, (i < j)%nat ∧ t !! i = Some e1 ∧ t !! j = Some e2.

(** The observers an operation may write to. *)
Definition weak_writes (c : cmd) : list var :=
  match c with
  | WeakDestroy x | WeakDefault x | WeakCopy x _ | WeakFromOwner x _
  | WeakAssignCopy x _ | WeakAssignOwner x _ | WeakReset x => [x]
  | WeakMove x r | WeakAssignMove x r | WeakSwap x r => [x; r]
  | _ => []
  end.

(** What is left of the heap [h] once a handle to [c] has been released,
    and once one has been acquired; the event a release adds. *)
Definition heap_after_release (c : intrusive_ptr) (h : gmap loc control_block) :
    gmap loc control_block :=
  match c with
  | Some l =>
      match h !! l with
      | Some b =>
          if decide (ref_count b - 1 = 0) then delete l h
          else <[l := ControlBlock (ref_count b - 1) (cb_px b)]> h
      | None => h
      end
  | None => h
  end.

Definition events_of_release (c : intrusive_ptr) (h : gmap loc control_block) :
    list event :=
  match c with
  | Some l =>
      match h !! l with
      | Some b => if decide (ref_count b - 1 = 0) then [EvFree l] else []
      | None => []
      end
  | None => []
  end.

Definition heap_after_acquire (c : intrusive_ptr) (h : gmap loc control_block) :
    gmap loc control_block :=
  match c with
  | Some l =>
      match h !! l with
      | Some b => <[l := ControlBlock (ref_count b + 1) (cb_px b)]> h
      | None => h
      end
  | None => h
  end.

(** The count of the block [c] points to, if any, can still go up. *)
Definition can_acquire (c : intrusive_ptr) (h : gmap loc control_block) : Prop :=
  ∀ l b, c = Some l → h !! l = Some b → ref_count b < LONG_MAX.

(** What an operation needs of the store it runs in: the objects it is
    called on are alive, the object it constructs is not yet, and a
    count it increments is below [LONG_MAX]. *)
Definition ready (c : cmd) (w : world) : Prop :=
  match c with
  | OwnerDestroy o | OwnerAssignNullptr o | OwnerRelease o | OwnerReset o _ =>
      is_Some (owners w !! o)
  | OwnerDefault o | OwnerNullptr o | OwnerPointer o _ | OwnerPointerDeleter o _ _ =>
      owners w !! o = None
  | OwnerMove o r => owners w !! o = None ∧ is_Some (owners w !! r)
  | OwnerAssignMove o r | OwnerSwap o r =>
      is_Some (owners w !! o) ∧ is_Some (owners w !! r)
  | WeakDestroy x | WeakReset x => is_Some (weaks w !! x)
  | WeakDefault x => weaks w !! x = None
  | WeakCopy x r =>
      weaks w !! x = None ∧
      ∃ u, weaks w !! r = Some u ∧ can_acquire (w_pc u) (heap w)
  | WeakFromOwner x o =>
      weaks w !! x = None ∧
      ∃ v, owners w !! o = Some v ∧ can_acquire (pc v) (heap w)
  | WeakMove x r => weaks w !! x = None ∧ is_Some (weaks w !! r)
  | WeakAssignCopy x r =>
      is_Some (weaks w !! x) ∧
      ∃ u, weaks w !! r = Some u ∧ can_acquire (w_pc u) (heap w)
  | WeakAssignOwner x o =>
      is_Some (weaks w !! x) ∧
      ∃ v, owners w !! o = Some v ∧ can_acquire (pc v) (heap w)
  | WeakAssignMove x r | WeakSwap x r =>
      is_Some (weaks w !! x) ∧ is_Some (weaks w !! r)
  end.

(** The operations of [unique_weak_ptr]. *)
Definition is_weak_cmd (c : cmd) : bool :=
  match c with
  | WeakDestroy _ | WeakDefault _ | WeakCopy _ _ | WeakFromOwner _ _
  | WeakMove _ _ | WeakAssignCopy _ _ | WeakAssignOwner _ _
  | WeakAssignMove _ _ | WeakReset _ | WeakSwap _ _ => true
  | _ => false
  end.

(** A step that only observes: the owners are as before, every control
    block still allocated stores the pointer it stored, none is
    allocated, and nothing is recorded but control blocks being freed. *)
Definition observes_only (w w' : world) : Prop :=
  owners w' = owners w ∧
  (∀ l c', heap w' !! l = Some c' →
           ∃ c0, heap w !! l = Some c0 ∧ cb_px c' = cb_px c0) ∧
  ∃ evs, trace w' = trace w ++ evs ∧ Forall (λ e, ∃ l, e = EvFree l) evs.

(** From [w] to [w'] a control block that stays allocated keeps the
    pointer it stores or has it cleared. *)
Definition px_fades (w w' : world) : Prop :=
  ∀ l c0 c', heap w !! l = Some c0 → heap w' !! l = Some c' →
             cb_px c' = cb_px c0 ∨ cb_px c' = nullptr.

(** ** Counting lemmas *)

Lemma count_if_delete `{Countable K} {A} (P : A → Prop) `{∀ a, Decision (P a)}
    (m : gmap K A) k v :
  m !! k = Some v →
  count_if P m = (count_if P (delete k m) + one_if (P v))%nat.
Proof.
  intros Hk. unfold count_if, one_if.
  rewrite map_filter_delete, map_size_delete.
  case_decide as HP.
  - assert (Hf : filter (λ kv : K * A, P kv.2) m !! k = Some v)
      by (by apply map_lookup_filter_Some).
    rewrite Hf.
    assert (size (filter (λ kv : K * A, P kv.2) m) ≠ 0%nat).
    { apply map_size_non_empty_iff. intros He. by rewrite He in Hf. }
    lia.
  - assert (Hf : filter (λ kv : K * A, P kv.2) m !! k = None).
    { apply map_lookup_filter_None. right. intros x Hx. simpl. congruence. }
    rewrite Hf. simpl. lia.
Qed.

Lemma count_if_delete_None `{Countable K} {A} (P : A → Prop)
    `{∀ a, Decision (P a)} (m : gmap K A) k :
  m !! k = None → count_if P (delete k m) = count_if P m.
Proof. intros Hk. by rewrite delete_id. Qed.

Lemma count_if_insert_None `{Countable K} {A} (P : A → Prop)
    `{∀ a, Decision (P a)} (m : gmap K A) k v :
  m !! k = None →
  count_if P (<[k := v]> m) = (count_if P m + one_if (P v))%nat.
Proof.
  intros Hk.
  rewrite (count_if_delete P (<[k := v]> m) k v) by apply lookup_insert_eq.
  by rewrite delete_insert_eq, delete_id.
Qed.

Lemma count_if_insert_Some `{Countable K} {A} (P : A → Prop)
    `{∀ a, Decision (P a)} (m : gmap K A) k v v0 :
  m !! k = Some v0 →
  (count_if P (<[k := v]> m) + one_if (P v0) = count_if P m + one_if (P v))%nat.
Proof.
  intros Hk.
  rewrite (count_if_delete P (<[k := v]> m) k v) by apply lookup_insert_eq.
  rewrite delete_insert_eq.
  rewrite (count_if_delete P m k v0) by done. lia.
Qed.

Lemma count_if_pos `{Countable K} {A} (P : A → Prop) `{∀ a, Decision (P a)}
    (m : gmap K A) k v :
  m !! k = Some v → P v → (0 < count_if P m)%nat.
Proof.
  intros Hk HP. rewrite (count_if_delete P m k v) by done.
  unfold one_if. rewrite decide_True by done. lia.
Qed.

Lemma count_if_two `{Countable K} {A} (P : A → Prop) `{∀ a, Decision (P a)}
    (m : gmap K A) k1 k2 v1 v2 :
  k1 ≠ k2 → m !! k1 = Some v1 → m !! k2 = Some v2 → P v1 → P v2 →
  (2 ≤ count_if P m)%nat.
Proof.
  intros Hne H1 H2 HP1 HP2.
  rewrite (count_if_delete P m k1 v1) by done.
  assert (0 < count_if P (delete k1 m))%nat.
  { apply (count_if_pos P _ k2 v2); [|done]. by rewrite lookup_delete_ne. }
  unfold one_if. rewrite decide_True by done. lia.
Qed.

Lemma count_if_empty `{Countable K} {A} (P : A → Prop) `{∀ a, Decision (P a)} :
  count_if P (∅ : gmap K A) = 0%nat.
Proof. unfold count_if. by rewrite map_filter_empty, map_size_empty. Qed.

(** ** Inversion of computations *)

Lemma bind_Some {A B} (m : M A) (f : A → M B) w b w' :
  (m ≫= f) w = Some (b, w') ↔ ∃ a w1, m w = Some (a, w1) ∧ f a w1 = Some (b, w').
Proof.
  unfold mbind, M_bind, bind. split.
  - destruct (m w) as [[a w1]|]; [eauto | done].
  - intros (a & w1 & -> & ?). done.
Qed.

Lemma ret_Some {A} (a b : A) w w' :
  mret (M:=M) a w = Some (b, w') ↔ a = b ∧ w = w'.
Proof. unfold mret, M_ret, ret. split; [by intros [= -> ->] | by intros [-> ->]]. Qed.

(** ** The invariant under the elementary changes of the store *)

Ltac unfold_ops :=
  unfold owner_destroy, owner_default, owner_nullptr, owner_pointer, owner_pointer_deleter,
    owner_move, owner_swap, weak_destroy, weak_default, weak_copy, weak_from_owner,
    weak_move, weak_swap, ip_acquire, ip_destroy, intrusive_ptr_add_ref,
    intrusive_ptr_release, cb_new, cb_reset, cb_get, emit, get_owner, set_owner,
    new_owner, end_owner, get_weak, set_weak, new_weak, end_weak,
    temp_owner, temp_weak, with_owners, with_weaks, with_heap,
    mbind, M_bind, bind, mret, M_ret, ret in *.

Ltac count_step :=
  match goal with
  | |- context [count_if ?P (delete ?k ?m)] =>
      first [ match goal with H : m !! k = Some ?v |- _ =>
                pose proof (count_if_delete P m k v H) end
            | match goal with H : m !! k = None |- _ =>
                pose proof (count_if_delete_None P m k H) end ];
      let x := fresh "n" in set (x := count_if P (delete k m)) in *; clearbody x
  | |- context [count_if ?P (<[?k := ?v]> ?m)] =>
      first [ match goal with H : m !! k = Some ?v0 |- _ =>
                pose proof (count_if_insert_Some P m k v v0 H) end
            | match goal with H : m !! k = None |- _ =>
                pose proof (count_if_insert_None P m k v H) end ];
      let x := fresh "n" in set (x := count_if P (<[k := v]> m)) in *; clearbody x
  | _ : context [count_if ?P (<[?k := ?v]> ?m)] |- _ =>
      first [ match goal with H : m !! k = Some ?v0 |- _ =>
                pose proof (count_if_insert_Some P m k v v0 H) end
            | match goal with H : m !! k = None |- _ =>
                pose proof (count_if_insert_None P m k v H) end ];
      let x := fresh "n" in set (x := count_if P (<[k := v]> m)) in *; clearbody x
  end.

Ltac count_solve :=
  unfold handles in *; simpl in *; repeat count_step;
  unfold one_if in *; repeat case_decide; simplify_eq/=; try lia.

Lemma wf_but_trace ex ow wk h t t' :
  wf_but ex (World ow wk h t) → wf_but ex (World ow wk h t').
Proof. intros [H1 H2 H3 H4 H5 H6]. by split. Qed.

Lemma wf_but_weaken ex w : wf w → wf_but ex w.
Proof.
  intros [H1 H2 H3 H4 H5 H6]. split; try done.
  intros o v Ho _. by apply (H3 o).
Qed.

Lemma wf_empty_world : wf empty_world.
Proof.
  split; simpl; intros; simplify_map_eq.
Qed.

Lemma wf_drop_owner_unbound o v ow wk h t t' :
  wf_but (Some o) (World ow wk h t) → ow !! o = Some v → pc v = None →
  wf (World (delete o ow) wk h t').
Proof.
  intros [Hc Hoc Hop Hwc Hu Hl] Ho Hv; simpl in *. split; simpl.
  - intros l c Hl'. destruct (Hc _ _ Hl') as [Hr ?]. split; [|done].
    rewrite Hr. f_equal. count_solve.
  - intros o' v' l Ho' Hv'. apply lookup_delete_Some in Ho' as [Hne Ho']. eauto.
  - intros o' v' Ho' _. apply lookup_delete_Some in Ho' as [Hne Ho'].
    apply (Hop o'); [done | congruence].
  - eauto.
  - intros o1 o2 v1 v2 l Ho1 Ho2 ??.
    apply lookup_delete_Some in Ho1 as [_ Ho1].
    apply lookup_delete_Some in Ho2 as [_ Ho2]. eauto.
  - intros l c Hl1 Hl2. destruct (Hl _ _ Hl1 Hl2) as (o' & v' & Ho' & Hv').
    exists o', v'. split; [|done]. rewrite lookup_delete_ne; [done | congruence].
Qed.

Lemma wf_drop_owner_last o v l c ow wk h t t' :
  wf_but (Some o) (World ow wk h t) → ow !! o = Some v → pc v = Some l →
  h !! l = Some c → ref_count c - 1 = 0 →
  wf (World (delete o ow) wk (delete l h) t').
Proof.
  intros [Hc Hoc Hop Hwc Hu Hl] Ho Hv Hh Hrc; simpl in *.
  destruct (Hc _ _ Hh) as [Hn _].
  assert (Hno : ∀ o' v', ow !! o' = Some v' → pc v' = Some l → o' = o) by eauto.
  assert (Hnw : ∀ x v', wk !! x = Some v' → w_pc v' ≠ Some l).
  { intros x v' Hx Hv'.
    pose proof (count_if_pos (λ v, w_pc v = Some l) wk x v' Hx Hv').
    pose proof (count_if_delete (λ v, pc v = Some l) ow o v Ho).
    unfold handles, one_if in *; simpl in *. case_decide; [lia | done]. }
  split; simpl.
  - intros l' c' Hl'. apply lookup_delete_Some in Hl' as [Hne Hl'].
    destruct (Hc _ _ Hl') as [Hr ?]. split; [|done].
    rewrite Hr. f_equal. count_solve.
  - intros o' v' l' Ho' Hv'. apply lookup_delete_Some in Ho' as [Hne Ho'].
    rewrite lookup_delete_ne; [eauto|]. intros <-. apply Hne. symmetry. by eapply Hno.
  - intros o' v' Ho' _. apply lookup_delete_Some in Ho' as [Hne Ho'].
    assert (Hp : Some o ≠ Some o') by congruence.
    specialize (Hop _ _ Ho' Hp). destruct (pc v') as [l'|] eqn:E; [|done].
    rewrite lookup_delete_ne; [done|]. intros <-. apply Hne. symmetry. by eapply Hno.
  - intros x v' l' Hx Hv'. rewrite lookup_delete_ne; [eauto|].
    intros <-. by eapply Hnw.
  - intros o1 o2 v1 v2 l' Ho1 Ho2 ??.
    apply lookup_delete_Some in Ho1 as [_ Ho1].
    apply lookup_delete_Some in Ho2 as [_ Ho2]. eauto.
  - intros l' c' Hl1 Hl2. apply lookup_delete_Some in Hl1 as [Hne Hl1].
    destruct (Hl _ _ Hl1 Hl2) as (o' & v' & Ho' & Hv').
    exists o', v'. split; [|done]. rewrite lookup_delete_ne; [done|].
    intros <-. simplify_eq.
Qed.

Lemma wf_drop_owner_shared o v l c ow wk h t t' :
  wf_but (Some o) (World ow wk h t) → ow !! o = Some v → pc v = Some l →
  h !! l = Some c → ref_count c - 1 ≠ 0 →
  wf (World (delete o ow) wk (<[l := ControlBlock (ref_count c - 1) nullptr]> h) t').
Proof.
  intros [Hc Hoc Hop Hwc Hu Hl] Ho Hv Hh Hrc; simpl in *.
  destruct (Hc _ _ Hh) as [Hn Hpos].
  assert (Hno : ∀ o' v', ow !! o' = Some v' → pc v' = Some l → o' = o) by eauto.
  split; simpl.
  - intros l' c' Hl'. apply lookup_insert_Some in Hl' as [[<- <-]|[Hne Hl']]; simpl.
    + split; [|lia]. count_solve.
    + destruct (Hc _ _ Hl') as [Hr ?]. split; [|done].
      rewrite Hr. f_equal. count_solve.
  - intros o' v' l' Ho' Hv'. apply lookup_delete_Some in Ho' as [Hne Ho'].
    apply lookup_insert_is_Some'. right. eauto.
  - intros o' v' Ho' _. apply lookup_delete_Some in Ho' as [Hne Ho'].
    assert (Hp : Some o ≠ Some o') by congruence.
    specialize (Hop _ _ Ho' Hp). destruct (pc v') as [l'|] eqn:E; [|done].
    rewrite lookup_insert_ne; [done|]. intros <-. apply Hne. symmetry. by eapply Hno.
  - intros x v' l' Hx Hv'. apply lookup_insert_is_Some'. right. eauto.
  - intros o1 o2 v1 v2 l' Ho1 Ho2 ??.
    apply lookup_delete_Some in Ho1 as [_ Ho1].
    apply lookup_delete_Some in Ho2 as [_ Ho2]. eauto.
  - intros l' c' Hl1 Hl2. apply lookup_insert_Some in Hl1 as [[<- <-]|[Hne Hl1]];
      [done|].
    destruct (Hl _ _ Hl1 Hl2) as (o' & v' & Ho' & Hv').
    exists o', v'. split; [|done]. rewrite lookup_delete_ne; [done|].
    intros <-. simplify_eq.
Qed.

Lemma wf_drop_weak_unbound ex x v ow wk h t t' :
  wf_but ex (World ow wk h t) → wk !! x = Some v → w_pc v = None →
  wf_but ex (World ow (delete x wk) h t').
Proof.
  intros [Hc Hoc Hop Hwc Hu Hl] Hx Hv; simpl in *. split; simpl; eauto.
  - intros l c Hl'. destruct (Hc _ _ Hl') as [Hr ?]. split; [|done].
    rewrite Hr. f_equal. count_solve.
  - intros x' v' l Hx' Hv'. apply lookup_delete_Some in Hx' as [Hne Hx']. eauto.
Qed.

Lemma wf_drop_weak_last ex x v l c ow wk h t t' :
  wf_but ex (World ow wk h t) → wk !! x = Some v → w_pc v = Some l →
  h !! l = Some c → ref_count c - 1 = 0 →
  wf_but ex (World ow (delete x wk) (delete l h) t').
Proof.
  intros [Hc Hoc Hop Hwc Hu Hl] Hx Hv Hh Hrc; simpl in *.
  destruct (Hc _ _ Hh) as [Hn _].
  pose proof (count_if_delete (λ v, w_pc v = Some l) wk x v Hx) as Hd.
  assert (Hno : ∀ o' v', ow !! o' = Some v' → pc v' ≠ Some l).
  { intros o' v' Ho' Hv'.
    pose proof (count_if_pos (λ v, pc v = Some l) ow o' v' Ho' Hv').
    unfold handles, one_if in *; simpl in *. case_decide; [lia | done]. }
  assert (Hnw : ∀ x' v', wk !! x' = Some v' → w_pc v' = Some l → x' = x).
  { intros x' v' Hx' Hv'. destruct (decide (x' = x)) as [|Hne]; [done|].
    pose proof (count_if_two (λ v, w_pc v = Some l) wk x' x v' v Hne Hx' Hx Hv' Hv).
    unfold handles in *; simpl in *. lia. }
  split; simpl.
  - intros l' c' Hl'. apply lookup_delete_Some in Hl' as [Hne Hl'].
    destruct (Hc _ _ Hl') as [Hr ?]. split; [|done].
    rewrite Hr. f_equal. count_solve.
  - intros o' v' l' Ho' Hv'. rewrite lookup_delete_ne; [eauto|].
    intros <-. by eapply Hno.
  - intros o' v' Ho' Hex. specialize (Hop _ _ Ho' Hex).
    destruct (pc v') as [l'|] eqn:E; [|done].
    rewrite lookup_delete_ne; [done|]. intros <-. by eapply Hno.
  - intros x' v' l' Hx' Hv'. apply lookup_delete_Some in Hx' as [Hne Hx'].
    rewrite lookup_delete_ne; [eauto|]. intros <-. apply Hne. symmetry. by eapply Hnw.
  - eauto.
  - intros l' c' Hl1 Hl2. apply lookup_delete_Some in Hl1 as [Hne Hl1]. eauto.
Qed.

Lemma wf_drop_weak_shared ex x v l c ow wk h t t' :
  wf_but ex (World ow wk h t) → wk !! x = Some v → w_pc v = Some l →
  h !! l = Some c → ref_count c - 1 ≠ 0 →
  wf_but ex (World ow (delete x wk)
               (<[l := ControlBlock (ref_count c - 1) (cb_px c)]> h) t').
Proof.
  intros [Hc Hoc Hop Hwc Hu Hl] Hx Hv Hh Hrc; simpl in *.
  destruct (Hc _ _ Hh) as [Hn Hpos].
  split; simpl.
  - intros l' c' Hl'. apply lookup_insert_Some in Hl' as [[<- <-]|[Hne Hl']]; simpl.
    + split; [|lia]. count_solve.
    + destruct (Hc _ _ Hl') as [Hr ?]. split; [|done].
      rewrite Hr. f_equal. count_solve.
  - intros o' v' l' Ho' Hv'. apply lookup_insert_is_Some'. right. eauto.
  - intros o' v' Ho' Hex. specialize (Hop _ _ Ho' Hex).
    destruct (pc v') as [l'|] eqn:E; [|done].
    destruct (decide (l = l')) as [<-|Hne].
    + rewrite lookup_insert_eq. destruct Hop as (c' & ? & ?). simplify_eq. eauto.
    + by rewrite lookup_insert_ne.
  - intros x' v' l' Hx' Hv'. apply lookup_delete_Some in Hx' as [Hne Hx'].
    apply lookup_insert_is_Some'. right. eauto.
  - eauto.
  - intros l' c' Hl1 Hl2. apply lookup_insert_Some in Hl1 as [[<- <-]|[Hne Hl1]];
      simpl in *; eauto.
Qed.

Lemma wf_add_owner_unbound ex o d ow wk h t t' :
  wf_but ex (World ow wk h t) → ow !! o = None →
  wf_but ex (World (<[o := WeakableUniquePtr nullptr d None]> ow) wk h t').
Proof.
  intros [Hc Hoc Hop Hwc Hu Hl] Ho; simpl in *. split; simpl; eauto.
  - intros l c Hl'. destruct (Hc _ _ Hl') as [Hr ?]. split; [|done].
    rewrite Hr. f_equal. count_solve.
  - intros o' v' l Ho' Hv'.
    apply lookup_insert_Some in Ho' as [[<- <-]|[Hne Ho']]; [done | eauto].
  - intros o' v' Ho' Hex.
    apply lookup_insert_Some in Ho' as [[<- <-]|[Hne Ho']];
      [done | by apply (Hop o')].
  - intros o1 o2 v1 v2 l Ho1 Ho2 H1 H2.
    apply lookup_insert_Some in Ho1 as [[<- <-]|[Hne1 Ho1]]; [done|].
    apply lookup_insert_Some in Ho2 as [[<- <-]|[Hne2 Ho2]]; [done | eauto].
  - intros l c Hl1 Hl2. destruct (Hl _ _ Hl1 Hl2) as (o' & v' & Ho' & Hv').
    exists o', v'. split; [|done]. rewrite lookup_insert_ne; [done | congruence].
Qed.

Lemma wf_add_owner_cell ex o p d l ow wk h t t' :
  wf_but ex (World ow wk h t) → ow !! o = None → h !! l = None →
  wf_but ex (World (<[o := WeakableUniquePtr p d (Some l)]> ow) wk
               (<[l := ControlBlock 1 p]> h) t').
Proof.
  intros [Hc Hoc Hop Hwc Hu Hl] Ho Hh; simpl in *.
  assert (Hno : ∀ o' v', ow !! o' = Some v' → pc v' ≠ Some l).
  { intros o' v' Ho' Hv'. destruct (Hoc _ _ _ Ho' Hv') as [? ?]. congruence. }
  assert (Hnw : ∀ x v', wk !! x = Some v' → w_pc v' ≠ Some l).
  { intros x v' Hx Hv'. destruct (Hwc _ _ _ Hx Hv') as [? ?]. congruence. }
  assert (Hz1 : count_if (λ v, pc v = Some l) ow = 0%nat).
  { destruct (count_if (λ v, pc v = Some l) ow) eqn:E; [done|].
    exfalso. unfold count_if in E.
    assert (Hne : filter (λ kv : var * weakable_unique_ptr, pc kv.2 = Some l) ow ≠ ∅).
    { apply map_size_non_empty_iff. lia. }
    apply map_choose in Hne as (k & v & Hk).
    apply map_lookup_filter_Some in Hk as [Hk HP]. by eapply Hno. }
  assert (Hz2 : count_if (λ v, w_pc v = Some l) wk = 0%nat).
  { destruct (count_if (λ v, w_pc v = Some l) wk) eqn:E; [done|].
    exfalso. unfold count_if in E.
    assert (Hne : filter (λ kv : var * unique_weak_ptr, w_pc kv.2 = Some l) wk ≠ ∅).
    { apply map_size_non_empty_iff. lia. }
    apply map_choose in Hne as (k & v & Hk).
    apply map_lookup_filter_Some in Hk as [Hk HP]. by eapply Hnw. }
  split; simpl.
  - intros l' c' Hl'. apply lookup_insert_Some in Hl' as [[<- <-]|[Hne Hl']]; simpl.
    + split; [|lia]. count_solve.
    + destruct (Hc _ _ Hl') as [Hr ?]. split; [|done].
      rewrite Hr. f_equal. count_solve.
  - intros o' v' l' Ho' Hv'. apply lookup_insert_is_Some'.
    apply lookup_insert_Some in Ho' as [[<- <-]|[Hne Ho']]; simpl in *.
    + left. congruence.
    + right. eauto.
  - intros o' v' Ho' Hex.
    apply lookup_insert_Some in Ho' as [[<- <-]|[Hne Ho']]; simpl in *.
    + rewrite lookup_insert_eq. eauto.
    + specialize (Hop _ _ Ho' Hex). destruct (pc v') as [l'|] eqn:E; [|done].
      rewrite lookup_insert_ne; [done|]. intros <-. by eapply Hno.
  - intros x v' l' Hx Hv'. apply lookup_insert_is_Some'. right. eauto.
  - intros o1 o2 v1 v2 l' Ho1 Ho2 H1 H2.
    apply lookup_insert_Some in Ho1 as [[<- <-]|[Hne1 Ho1]];
    apply lookup_insert_Some in Ho2 as [[<- <-]|[Hne2 Ho2]]; simpl in *;
      simplify_eq; eauto.
    + exfalso. by eapply Hno.
    + exfalso. by eapply Hno.
  - intros l' c' Hl1 Hl2. apply lookup_insert_Some in Hl1 as [[<- <-]|[Hne Hl1]].
    + exists o. eexists. split; [apply lookup_insert_eq | done].
    + destruct (Hl _ _ Hl1 Hl2) as (o' & v' & Ho' & Hv').
      exists o', v'. split; [|done]. rewrite lookup_insert_ne; [done | congruence].
Qed.

Lemma wf_move_owner o r v d ow wk h t t' :
  wf (World ow wk h t) → ow !! r = Some v → ow !! o = None →
  wf (World (<[o := WeakableUniquePtr (px v) (pd v) (pc v)]>
               (<[r := WeakableUniquePtr nullptr d None]> ow)) wk h t').
Proof.
  intros [Hc Hoc Hop Hwc Hu Hl] Hr Ho; simpl in *.
  assert (Hne : r ≠ o) by congruence.
  assert (Ho2 : <[r := WeakableUniquePtr nullptr d None]> ow !! o = None)
    by (by rewrite lookup_insert_ne).
  split; simpl; eauto.
  - intros l c Hl'. destruct (Hc _ _ Hl') as [Hrc ?]. split; [|done].
    rewrite Hrc. f_equal. count_solve.
  - intros o' v' l Ho' Hv'.
    apply lookup_insert_Some in Ho' as [[<- <-]|[Hne1 Ho']]; simpl in *; [eauto|].
    apply lookup_insert_Some in Ho' as [[<- <-]|[Hne2 Ho']]; [done | eauto].
  - intros o' v' Ho' Hex.
    apply lookup_insert_Some in Ho' as [[<- <-]|[Hne1 Ho']]; simpl in *.
    + by apply (Hop r).
    + apply lookup_insert_Some in Ho' as [[<- <-]|[Hne2 Ho']];
        [done | by apply (Hop o')].
  - intros o1 o2 v1 v2 l Ho1 Ho2' H1 H2.
    apply lookup_insert_Some in Ho1 as [[<- <-]|[Hne1 Ho1]];
    apply lookup_insert_Some in Ho2' as [[<- <-]|[Hne2 Ho2']]; simpl in *;
      try done.
    + apply lookup_insert_Some in Ho2' as [[<- <-]|[Hne3 Ho2']]; [done|].
      exfalso. apply Hne3. eauto.
    + apply lookup_insert_Some in Ho1 as [[<- <-]|[Hne3 Ho1]]; [done|].
      exfalso. apply Hne3. eauto.
    + apply lookup_insert_Some in Ho1 as [[<- <-]|[Hne3 Ho1]]; [done|].
      apply lookup_insert_Some in Ho2' as [[<- <-]|[Hne4 Ho2']]; [done | eauto].
  - intros l c Hl1 Hl2. destruct (Hl _ _ Hl1 Hl2) as (o' & v' & Ho' & Hv').
    destruct (decide (o' = r)) as [->|Hne'].
    + exists o. eexists. split; [apply lookup_insert_eq|]. simpl. congruence.
    + exists o', v'. split; [|done].
      rewrite lookup_insert_ne by congruence. by rewrite lookup_insert_ne.
Qed.

Lemma wf_swap_owner o r a b ow wk h t t' :
  wf (World ow wk h t) → ow !! o = Some a → ow !! r = Some b →
  wf (World (<[r := a]> (<[o := b]> ow)) wk h t').
Proof.
  intros Hwf Ho Hr. destruct (decide (o = r)) as [->|Hne].
  { simplify_eq. rewrite insert_insert_eq, insert_id by done.
    by eapply wf_but_trace. }
  destruct Hwf as [Hc Hoc Hop Hwc Hu Hl]; simpl in *.
  assert (Hr2 : <[o := b]> ow !! r = Some b) by (by rewrite lookup_insert_ne).
  split; simpl; eauto.
  - intros l c Hl'. destruct (Hc _ _ Hl') as [Hrc ?]. split; [|done].
    rewrite Hrc. f_equal. count_solve.
  - intros o' v' l Ho' Hv'.
    apply lookup_insert_Some in Ho' as [[<- <-]|[Hne1 Ho']]; [eauto|].
    apply lookup_insert_Some in Ho' as [[<- <-]|[Hne2 Ho']]; eauto.
  - intros o' v' Ho' Hex.
    apply lookup_insert_Some in Ho' as [[<- <-]|[Hne1 Ho']]; [by apply (Hop o)|].
    apply lookup_insert_Some in Ho' as [[<- <-]|[Hne2 Ho']];
      [by apply (Hop r) | by apply (Hop o')].
  - intros o1 o2 v1 v2 l Ho1 Ho2 H1 H2.
    apply lookup_insert_Some in Ho1 as [[<- <-]|[Hne1 Ho1]];
    apply lookup_insert_Some in Ho2 as [[<- <-]|[Hne2 Ho2]]; try done.
    + apply lookup_insert_Some in Ho2 as [[<- <-]|[Hne3 Ho2]].
      * exfalso. apply Hne. eauto.
      * exfalso. apply Hne3. eauto.
    + apply lookup_insert_Some in Ho1 as [[<- <-]|[Hne3 Ho1]].
      * exfalso. apply Hne. symmetry. eauto.
      * exfalso. apply Hne3. eauto.
    + apply lookup_insert_Some in Ho1 as [[<- <-]|[Hne3 Ho1]];
      apply lookup_insert_Some in Ho2 as [[<- <-]|[Hne4 Ho2]]; try done.
      * exfalso. apply Hne2. symmetry. eauto.
      * exfalso. apply Hne1. symmetry. eauto.
      * eauto.
  - intros l c Hl1 Hl2. destruct (Hl _ _ Hl1 Hl2) as (o' & v' & Ho' & Hv').
    destruct (decide (o' = o)) as [->|Hne1]; [|destruct (decide (o' = r)) as [->|Hne2]].
    + exists r, a. split; [apply lookup_insert_eq | congruence].
    + exists o, b. split; [|congruence].
      rewrite lookup_insert_ne by congruence. apply lookup_insert_eq.
    + exists o', v'. split; [|done]. by rewrite !lookup_insert_ne by congruence.
Qed.

Lemma wf_take_px o v ow wk h t t' :
  wf (World ow wk h t) → ow !! o = Some v →
  wf_but (Some o) (World (<[o := WeakableUniquePtr nullptr (pd v) (pc v)]> ow) wk h t').
Proof.
  intros [Hc Hoc Hop Hwc Hu Hl] Ho; simpl in *. split; simpl; eauto.
  - intros l c Hl'. destruct (Hc _ _ Hl') as [Hrc ?]. split; [|done].
    rewrite Hrc. f_equal. count_solve.
  - intros o' v' l Ho' Hv'.
    apply lookup_insert_Some in Ho' as [[<- <-]|[Hne1 Ho']]; simpl in *; eauto.
  - intros o' v' Ho' Hex.
    apply lookup_insert_Some in Ho' as [[<- <-]|[Hne1 Ho']]; [done|].
    by apply (Hop o').
  - intros o1 o2 v1 v2 l Ho1 Ho2 H1 H2.
    apply lookup_insert_Some in Ho1 as [[<- <-]|[Hne1 Ho1]];
    apply lookup_insert_Some in Ho2 as [[<- <-]|[Hne2 Ho2]]; simpl in *;
      try done; eauto.
  - intros l c Hl1 Hl2. destruct (Hl _ _ Hl1 Hl2) as (o' & v' & Ho' & Hv').
    destruct (decide (o' = o)) as [->|Hne1].
    + exists o. eexists. split; [apply lookup_insert_eq|]. simpl. congruence.
    + exists o', v'. split; [|done]. by rewrite lookup_insert_ne by congruence.
Qed.

Lemma wf_add_weak_unbound ex x ow wk h t t' :
  wf_but ex (World ow wk h t) → wk !! x = None →
  wf_but ex (World ow (<[x := UniqueWeakPtr None]> wk) h t').
Proof.
  intros [Hc Hoc Hop Hwc Hu Hl] Hx; simpl in *. split; simpl; eauto.
  - intros l c Hl'. destruct (Hc _ _ Hl') as [Hrc ?]. split; [|done].
    rewrite Hrc. f_equal. count_solve.
  - intros x' v' l Hx' Hv'.
    apply lookup_insert_Some in Hx' as [[<- <-]|[Hne Hx']]; [done | eauto].
Qed.

Lemma wf_add_weak_bound ex x l c ow wk h t t' :
  wf_but ex (World ow wk h t) → wk !! x = None → h !! l = Some c →
  wf_but ex (World ow (<[x := UniqueWeakPtr (Some l)]> wk)
               (<[l := ControlBlock (ref_count c + 1) (cb_px c)]> h) t').
Proof.
  intros [Hc Hoc Hop Hwc Hu Hl] Hx Hh; simpl in *.
  destruct (Hc _ _ Hh) as [Hn Hpos].
  split; simpl; eauto.
  - intros l' c' Hl'. apply lookup_insert_Some in Hl' as [[<- <-]|[Hne Hl']]; simpl.
    + split; [|lia]. count_solve.
    + destruct (Hc _ _ Hl') as [Hr ?]. split; [|done].
      rewrite Hr. f_equal. count_solve.
  - intros o' v' l' Ho' Hv'. apply lookup_insert_is_Some'. right. eauto.
  - intros o' v' Ho' Hex. specialize (Hop _ _ Ho' Hex).
    destruct (pc v') as [l'|] eqn:E; [|done].
    destruct (decide (l = l')) as [<-|Hne].
    + rewrite lookup_insert_eq. destruct Hop as (c' & ? & ?). simplify_eq. eauto.
    + by rewrite lookup_insert_ne.
  - intros x' v' l' Hx' Hv'. apply lookup_insert_is_Some'.
    apply lookup_insert_Some in Hx' as [[<- <-]|[Hne Hx']]; simpl in *.
    + left. congruence.
    + right. eauto.
  - intros l' c' Hl1 Hl2. apply lookup_insert_Some in Hl1 as [[<- <-]|[Hne Hl1]];
      simpl in *; eauto.
Qed.

Lemma wf_move_weak ex x r v ow wk h t t' :
  wf_but ex (World ow wk h t) → wk !! r = Some v → wk !! x = None →
  wf_but ex (World ow (<[x := UniqueWeakPtr (w_pc v)]>
                         (<[r := UniqueWeakPtr None]> wk)) h t').
Proof.
  intros [Hc Hoc Hop Hwc Hu Hl] Hr Hx; simpl in *.
  assert (Hne : r ≠ x) by congruence.
  assert (Hx2 : <[r := UniqueWeakPtr None]> wk !! x = None)
    by (by rewrite lookup_insert_ne).
  split; simpl; eauto.
  - intros l c Hl'. destruct (Hc _ _ Hl') as [Hrc ?]. split; [|done].
    rewrite Hrc. f_equal. count_solve.
  - intros x' v' l Hx' Hv'.
    apply lookup_insert_Some in Hx' as [[<- <-]|[Hne1 Hx']]; simpl in *; [eauto|].
    apply lookup_insert_Some in Hx' as [[<- <-]|[Hne2 Hx']]; [done | eauto].
Qed.

Lemma wf_swap_weak ex x r a b ow wk h t t' :
  wf_but ex (World ow wk h t) → wk !! x = Some a → wk !! r = Some b →
  wf_but ex (World ow (<[r := a]> (<[x := b]> wk)) h t').
Proof.
  intros Hwf Hx Hr. destruct (decide (x = r)) as [->|Hne].
  { simplify_eq. rewrite insert_insert_eq, insert_id by done.
    by eapply wf_but_trace. }
  destruct Hwf as [Hc Hoc Hop Hwc Hu Hl]; simpl in *.
  assert (Hr2 : <[x := b]> wk !! r = Some b) by (by rewrite lookup_insert_ne).
  split; simpl; eauto.
  - intros l c Hl'. destruct (Hc _ _ Hl') as [Hrc ?]. split; [|done].
    rewrite Hrc. f_equal. count_solve.
  - intros x' v' l Hx' Hv'.
    apply lookup_insert_Some in Hx' as [[<- <-]|[Hne1 Hx']]; [eauto|].
    apply lookup_insert_Some in Hx' as [[<- <-]|[Hne2 Hx']]; eauto.
Qed.

(** ** The invariant is kept by every operation *)

Ltac invert_ops :=
  unfold_ops; simpl in *;
  repeat (case_match; simplify_eq/=);
  repeat (case_decide; simplify_eq/=);
  repeat match goal with
         | H : <[?l := _]> _ !! ?l = Some _ |- _ =>
             rewrite lookup_insert_eq in H; simplify_eq/=
         end;
  rewrite ?insert_insert_eq, ?delete_insert_eq.

Lemma owner_destroy_wf o w w' :
  wf_but (Some o) w → owner_destroy o w = Some (tt, w') → wf w'.
Proof.
  destruct w as [ow wk h t]. intros Hwf Hs. invert_ops.
  all: first [ by eapply wf_drop_owner_last
             | by eapply wf_drop_owner_shared
             | by eapply wf_drop_owner_unbound ].
Qed.

Lemma owner_default_wf o w w' :
  wf w → owner_default o w = Some (tt, w') → wf w'.
Proof.
  destruct w as [ow wk h t]. intros Hwf Hs. invert_ops.
  by eapply wf_add_owner_unbound.
Qed.

Lemma fresh_heap (h : gmap loc control_block) : h !! fresh (dom h) = None.
Proof. apply not_elem_of_dom, is_fresh. Qed.

Lemma fresh_owner (ow : gmap var weakable_unique_ptr) : ow !! fresh (dom ow) = None.
Proof. apply not_elem_of_dom, is_fresh. Qed.

Lemma fresh_weak (wk : gmap var unique_weak_ptr) : wk !! fresh (dom wk) = None.
Proof. apply not_elem_of_dom, is_fresh. Qed.

Lemma owner_pointer_deleter_wf o p d w w' :
  wf w → owner_pointer_deleter o p d w = Some (tt, w') → wf w'.
Proof.
  destruct w as [ow wk h t]. intros Hwf Hs. invert_ops.
  eapply wf_add_owner_cell; eauto using fresh_heap.
Qed.

Lemma owner_pointer_wf o p w w' :
  wf w → owner_pointer o p w = Some (tt, w') → wf w'.
Proof. apply owner_pointer_deleter_wf. Qed.

Lemma owner_move_wf o r w w' :
  wf w → owner_move o r w = Some (tt, w') → wf w'.
Proof.
  destruct w as [ow wk h t]. intros Hwf Hs. invert_ops.
  match goal with H : <[r := _]> ow !! o = None |- _ =>
    apply lookup_insert_None in H as [? ?] end.
  by eapply wf_move_owner.
Qed.

Lemma owner_swap_wf o r w w' :
  wf w → owner_swap o r w = Some (tt, w') → wf w'.
Proof.
  destruct w as [ow wk h t]. intros Hwf Hs. invert_ops.
  by eapply wf_swap_owner.
Qed.

Lemma weak_destroy_wf ex x w w' :
  wf_but ex w → weak_destroy x w = Some (tt, w') → wf_but ex w'.
Proof.
  destruct w as [ow wk h t]. intros Hwf Hs. invert_ops.
  all: first [ by eapply wf_drop_weak_last
             | by eapply wf_drop_weak_shared
             | by eapply wf_drop_weak_unbound ].
Qed.

Lemma weak_default_wf ex x w w' :
  wf_but ex w → weak_default x w = Some (tt, w') → wf_but ex w'.
Proof.
  destruct w as [ow wk h t]. intros Hwf Hs. invert_ops.
  by eapply wf_add_weak_unbound.
Qed.

Lemma weak_copy_wf ex x r w w' :
  wf_but ex w → weak_copy x r w = Some (tt, w') → wf_but ex w'.
Proof.
  destruct w as [ow wk h t]. intros Hwf Hs. invert_ops.
  - by eapply wf_add_weak_bound.
  - by eapply wf_add_weak_unbound.
Qed.

Lemma weak_from_owner_wf ex x o w w' :
  wf_but ex w → weak_from_owner x o w = Some (tt, w') → wf_but ex w'.
Proof.
  destruct w as [ow wk h t]. intros Hwf Hs. invert_ops.
  - by eapply wf_add_weak_bound.
  - by eapply wf_add_weak_unbound.
Qed.

Lemma weak_move_wf ex x r w w' :
  wf_but ex w → weak_move x r w = Some (tt, w') → wf_but ex w'.
Proof.
  destruct w as [ow wk h t]. intros Hwf Hs. invert_ops.
  match goal with H : <[r := _]> wk !! x = None |- _ =>
    apply lookup_insert_None in H as [? ?] end.
  by eapply wf_move_weak.
Qed.

Lemma weak_swap_wf ex x r w w' :
  wf_but ex w → weak_swap x r w = Some (tt, w') → wf_but ex w'.
Proof.
  destruct w as [ow wk h t]. intros Hwf Hs. invert_ops.
  by eapply wf_swap_weak.
Qed.

Lemma temp_owner_Some x w w' :
  temp_owner w = Some (x, w') → w' = w ∧ owners w !! x = None.
Proof.
  unfold temp_owner. intros [= <- <-]. split; [done | apply fresh_owner].
Qed.

Lemma temp_weak_Some x w w' :
  temp_weak w = Some (x, w') → w' = w ∧ weaks w !! x = None.
Proof.
  unfold temp_weak. intros [= <- <-]. split; [done | apply fresh_weak].
Qed.

Lemma owner_assign_move_wf o r w w' :
  wf w → owner_assign_move o r w = Some (tt, w') → wf w'.
Proof.
  unfold owner_assign_move. intros Hwf Hs.
  apply bind_Some in Hs as (tmp & w1 & Ht & Hs).
  apply temp_owner_Some in Ht as [-> _].
  apply bind_Some in Hs as ([] & w2 & H1 & Hs).
  apply bind_Some in Hs as ([] & w3 & H2 & Hs).
  eapply owner_destroy_wf; [|done].
  eauto using wf_but_weaken, owner_swap_wf, owner_move_wf.
Qed.

Lemma owner_assign_nullptr_wf o w w' :
  wf w → owner_assign_nullptr o w = Some (tt, w') → wf w'.
Proof.
  unfold owner_assign_nullptr. intros Hwf Hs.
  apply bind_Some in Hs as (tmp & w1 & Ht & Hs).
  apply temp_owner_Some in Ht as [-> _].
  apply bind_Some in Hs as ([] & w2 & H1 & Hs).
  apply bind_Some in Hs as ([] & w3 & H2 & Hs).
  eapply owner_destroy_wf; [|done].
  eauto using wf_but_weaken, owner_swap_wf, owner_default_wf.
Qed.

Lemma owner_reset_wf o p w w' :
  wf w → owner_reset o p w = Some (tt, w') → wf w'.
Proof.
  unfold owner_reset. intros Hwf Hs.
  apply bind_Some in Hs as (tmp & w1 & Ht & Hs).
  apply temp_owner_Some in Ht as [-> _].
  apply bind_Some in Hs as ([] & w2 & H1 & Hs).
  apply bind_Some in Hs as ([] & w3 & H2 & Hs).
  eapply owner_destroy_wf; [|done].
  eauto using wf_but_weaken, owner_swap_wf, owner_pointer_wf.
Qed.

Lemma take_px_wf o t w w1 w2 :
  wf w → get_owner o w = Some (t, w1) →
  set_owner o (WeakableUniquePtr nullptr (pd t) (pc t)) w1 = Some (tt, w2) →
  wf_but (Some o) w2.
Proof.
  destruct w as [ow wk h tr]. intros Hwf H1 H2. invert_ops.
  by eapply wf_take_px.
Qed.

Lemma owner_release_wf o p w w' :
  wf w → owner_release o w = Some (p, w') → wf w'.
Proof.
  unfold owner_release. intros Hwf Hs.
  apply bind_Some in Hs as (tmp & w1 & Ht & Hs).
  apply temp_owner_Some in Ht as [-> _].
  apply bind_Some in Hs as ([] & w2 & H1 & Hs).
  apply bind_Some in Hs as ([] & w3 & H2 & Hs).
  apply bind_Some in Hs as (t & w4 & H3 & Hs).
  apply bind_Some in Hs as ([] & w5 & H4 & Hs).
  apply bind_Some in Hs as ([] & w6 & H5 & Hs).
  apply ret_Some in Hs as [_ <-].
  eapply owner_destroy_wf; [|done].
  eapply take_px_wf; [|done..].
  eauto using owner_swap_wf, owner_default_wf.
Qed.

Lemma weak_assign_copy_wf x r w w' :
  wf w → weak_assign_copy x r w = Some (tt, w') → wf w'.
Proof.
  unfold weak_assign_copy. intros Hwf Hs.
  apply bind_Some in Hs as (tmp & w1 & Ht & Hs).
  apply temp_weak_Some in Ht as [-> _].
  apply bind_Some in Hs as ([] & w2 & H1 & Hs).
  apply bind_Some in Hs as ([] & w3 & H2 & Hs).
  eapply weak_destroy_wf; [|done].
  eapply weak_swap_wf; [|done]. by eapply weak_copy_wf.
Qed.

Lemma weak_assign_owner_wf x o w w' :
  wf w → weak_assign_owner x o w = Some (tt, w') → wf w'.
Proof.
  unfold weak_assign_owner. intros Hwf Hs.
  apply bind_Some in Hs as (tmp & w1 & Ht & Hs).
  apply temp_weak_Some in Ht as [-> _].
  apply bind_Some in Hs as ([] & w2 & H1 & Hs).
  apply bind_Some in Hs as ([] & w3 & H2 & Hs).
  eapply weak_destroy_wf; [|done].
  eapply weak_swap_wf; [|done]. by eapply weak_from_owner_wf.
Qed.

Lemma weak_assign_move_wf x r w w' :
  wf w → weak_assign_move x r w = Some (tt, w') → wf w'.
Proof.
  unfold weak_assign_move. intros Hwf Hs.
  apply bind_Some in Hs as (tmp & w1 & Ht & Hs).
  apply temp_weak_Some in Ht as [-> _].
  apply bind_Some in Hs as ([] & w2 & H1 & Hs).
  apply bind_Some in Hs as ([] & w3 & H2 & Hs).
  eapply weak_destroy_wf; [|done].
  eapply weak_swap_wf; [|done]. by eapply weak_move_wf.
Qed.

Lemma weak_reset_wf x w w' :
  wf w → weak_reset x w = Some (tt, w') → wf w'.
Proof.
  unfold weak_reset. intros Hwf Hs.
  apply bind_Some in Hs as (tmp & w1 & Ht & Hs).
  apply temp_weak_Some in Ht as [-> _].
  apply bind_Some in Hs as ([] & w2 & H1 & Hs).
  apply bind_Some in Hs as ([] & w3 & H2 & Hs).
  eapply weak_destroy_wf; [|done].
  eapply weak_swap_wf; [|done]. by eapply weak_default_wf.
Qed.

Lemma exec_wf c w w' : wf w → exec c w = Some (tt, w') → wf w'.
Proof.
  intros Hwf Hs. destruct c; simpl in Hs.
  - eapply owner_destroy_wf; [by apply wf_but_weaken | done].
  - by eapply owner_default_wf.
  - by eapply owner_default_wf.
  - by eapply owner_pointer_wf.
  - by eapply owner_pointer_deleter_wf.
  - by eapply owner_move_wf.
  - by eapply owner_assign_move_wf.
  - by eapply owner_assign_nullptr_wf.
  - apply bind_Some in Hs as (p & w1 & H1 & Hs).
    apply ret_Some in Hs as [_ <-]. by eapply owner_release_wf.
  - by eapply owner_reset_wf.
  - by eapply owner_swap_wf.
  - by eapply weak_destroy_wf.
  - by eapply weak_default_wf.
  - by eapply weak_copy_wf.
  - by eapply weak_from_owner_wf.
  - by eapply weak_move_wf.
  - by eapply weak_assign_copy_wf.
  - by eapply weak_assign_owner_wf.
  - by eapply weak_assign_move_wf.
  - by eapply weak_reset_wf.
  - by eapply weak_swap_wf.
Qed.

(** Every store a program reaches from a well-formed one is well-formed:
    the lemmas below about well-formed stores speak of all the stores
    that executions go through. *)
Lemma run_wf cs w w' : wf w → run cs w = Some (tt, w') → wf w'.
Proof.
  revert w. induction cs as [|c cs IH]; intros w Hwf Hs; simpl in Hs.
  - apply ret_Some in Hs as [_ <-]. done.
  - apply bind_Some in Hs as ([] & w1 & H1 & Hs).
    eapply IH; [|done]. by eapply exec_wf.
Qed.

(** ** What the operations compute *)

Lemma owner_destroy_spec o v w :
  wf_but (Some o) w → owners w !! o = Some v →
  owner_destroy o w =
    Some (tt, World (delete o (owners w)) (weaks w)
                (heap_after_destroy (pc v) (heap w))
                (trace w ++ events_of_destroy v (heap w))).
Proof.
  destruct w as [ow wk h t]. intros Hwf Ho; simpl in *.
  unfold heap_after_destroy, events_of_destroy.
  unfold_ops; simpl. rewrite Ho.
  destruct (pc v) as [l|] eqn:Hpc.
  - destruct (wf_owner_cell _ _ Hwf o v l Ho Hpc) as [c Hc]; simpl in *.
    destruct (wf_count _ _ Hwf l c Hc) as [_ Hpos]; simpl in *.
    destruct (decide (px v = nullptr)); simpl; rewrite Hc; simpl;
      rewrite lookup_insert_eq; simpl;
      rewrite decide_True by lia; destruct (decide (ref_count c - 1 = 0)); simpl;
      rewrite Ho, ?insert_insert_eq, ?delete_insert_eq, <- ?app_assoc; done.
  - destruct (decide (px v = nullptr)); simpl; rewrite Ho, ?app_nil_r; done.
Qed.

Lemma bind_eq {A B} (m : M A) (f : A → M B) w a w1 :
  m w = Some (a, w1) → (m ≫= f) w = f a w1.
Proof. unfold mbind, M_bind, bind. by intros ->. Qed.

(** *** The two queries *)

Lemma expired_eq x u w :
  weaks w !! x = Some u →
  expired x w =
    match w_pc u with
    | Some l =>
        match heap w !! l with
        | Some c => Some (bool_decide (cb_px c = nullptr), w)
        | None => None
        end
    | None => Some (true, w)
    end.
Proof.
  intros Hx. unfold expired, get_weak, cb_get, mbind, M_bind, bind, mret, M_ret, ret.
  rewrite Hx. destruct (w_pc u) as [l|]; [|done].
  destruct (heap w !! l) as [c|]; [|done]. simpl.
  do 2 f_equal. destruct (decide (cb_px c = nullptr)) as [Hp|Hp].
  - by rewrite bool_decide_eq_false_2, bool_decide_eq_true_2 by auto.
  - by rewrite bool_decide_eq_true_2, bool_decide_eq_false_2 by auto.
Qed.

Lemma try_get_eq x u w :
  weaks w !! x = Some u →
  try_get x w =
    match w_pc u with
    | Some l =>
        match heap w !! l with
        | Some c => Some (cb_px c, w)
        | None => None
        end
    | None => Some (nullptr, w)
    end.
Proof.
  intros Hx. unfold try_get, get_weak, cb_get, mbind, M_bind, bind, mret, M_ret, ret.
  rewrite Hx. by destruct (w_pc u).
Qed.

Lemma reports_expired_unbound x w :
  weaks w !! x = Some (UniqueWeakPtr None) → reports_expired x w.
Proof.
  intros Hx. split; [by rewrite (expired_eq x _ w Hx) | by rewrite (try_get_eq x _ w Hx)].
Qed.

Lemma reports_expired_bound x l c w :
  weaks w !! x = Some (UniqueWeakPtr (Some l)) → heap w !! l = Some c →
  cb_px c = nullptr → reports_expired x w.
Proof.
  intros Hx Hl Hc. split.
  - rewrite (expired_eq x _ w Hx); simpl. rewrite Hl.
    by rewrite bool_decide_eq_true_2.
  - rewrite (try_get_eq x _ w Hx); simpl. by rewrite Hl, Hc.
Qed.

Lemma expired_true_inv x u w :
  weaks w !! x = Some u → expired x w = Some (true, w) →
  match w_pc u with
  | Some l => ∃ c, heap w !! l = Some c ∧ cb_px c = nullptr
  | None => True
  end.
Proof.
  intros Hx. rewrite (expired_eq x u w Hx).
  destruct (w_pc u) as [l|]; [|done].
  destruct (heap w !! l) as [c|]; [|done].
  intros [= Hb]. apply bool_decide_eq_true_1 in Hb. eauto.
Qed.

(** *** Sharing a control block *)

Lemma shared_count ex w o v x u l c :
  wf_but ex w → owners w !! o = Some v → pc v = Some l →
  weaks w !! x = Some u → w_pc u = Some l → heap w !! l = Some c →
  2 ≤ ref_count c.
Proof.
  intros Hwf Ho Hv Hx Hu Hc.
  destruct (wf_count _ _ Hwf l c Hc) as [-> _].
  pose proof (count_if_pos (λ v, pc v = Some l) (owners w) o v Ho Hv).
  pose proof (count_if_pos (λ v, w_pc v = Some l) (weaks w) x u Hx Hu).
  unfold handles. lia.
Qed.

Lemma heap_after_destroy_other c h l :
  c ≠ Some l → heap_after_destroy c h !! l = h !! l.
Proof.
  intros Hne. unfold heap_after_destroy.
  destruct c as [l0|]; [|done]. destruct (h !! l0) as [b|] eqn:Hb; [|done].
  assert (l0 ≠ l) by congruence.
  case_decide; [by rewrite lookup_delete_ne | by rewrite lookup_insert_ne].
Qed.

Lemma heap_after_destroy_shared h l b :
  h !! l = Some b → ref_count b - 1 ≠ 0 →
  heap_after_destroy (Some l) h !! l = Some (ControlBlock (ref_count b - 1) nullptr).
Proof.
  intros Hb Hrc. unfold heap_after_destroy. rewrite Hb.
  rewrite decide_False by done. apply lookup_insert_eq.
Qed.

Lemma heap_after_destroy_last h l b :
  h !! l = Some b → ref_count b - 1 = 0 →
  heap_after_destroy (Some l) h !! l = None.
Proof.
  intros Hb Hrc. unfold heap_after_destroy. rewrite Hb.
  rewrite decide_True by done. apply lookup_delete_eq.
Qed.

(** Once the owner of [v] is destroyed, the observers of its control
    block, and those that were expired already, report expired, in any
    store [w'] that agrees with the destructor's on the cells they hold. *)
Lemma expired_after_destroy w o v x u w' :
  wf w → owners w !! o = Some v → weaks w !! x = Some u →
  w_pc u = pc v ∨ expired x w = Some (true, w) →
  weaks w' !! x = Some u →
  (∀ l, w_pc u = Some l → heap w' !! l = heap_after_destroy (pc v) (heap w) !! l) →
  reports_expired x w'.
Proof.
  intros Hwf Ho Hx Hcase Hx' Hh.
  destruct u as [[l|]]; [|by apply reports_expired_unbound].
  specialize (Hh l eq_refl).
  destruct (wf_weak_cell _ _ Hwf x _ l Hx eq_refl) as [c Hc].
  destruct (decide (pc v = Some l)) as [Hv|Hv].
  - pose proof (shared_count _ w o v x _ l c Hwf Ho Hv Hx eq_refl Hc).
    rewrite Hv, (heap_after_destroy_shared _ _ c) in Hh by (done || lia).
    by eapply reports_expired_bound.
  - destruct Hcase as [Hcase|Hcase]; [simpl in Hcase; congruence|].
    apply (expired_true_inv x _ w Hx) in Hcase as (c' & Hc' & Hpx); simpl in *.
    rewrite heap_after_destroy_other in Hh by done.
    eapply reports_expired_bound; [done | rewrite Hh; apply Hc' | done].
Qed.

(** *** Constructors, swap *)

Lemma owner_default_spec o w :
  owners w !! o = None →
  owner_default o w =
    Some (tt, World (<[o := empty_owner]> (owners w)) (weaks w) (heap w) (trace w)).
Proof. intros Ho. unfold owner_default, new_owner. by rewrite Ho. Qed.

Lemma owner_pointer_deleter_spec o p d w :
  owners w !! o = None →
  owner_pointer_deleter o p d w =
    Some (tt, World (<[o := WeakableUniquePtr p d (Some (fresh (dom (heap w))))]> (owners w))
                (weaks w)
                (<[fresh (dom (heap w)) := ControlBlock 1 p]> (heap w))
                (trace w ++ [EvNew (fresh (dom (heap w))) p])).
Proof.
  intros Ho. destruct w as [ow wk h t]; simpl in *.
  unfold_ops; simpl. rewrite lookup_insert_eq; simpl.
  rewrite decide_True by lia. simpl. rewrite Ho.
  by rewrite insert_insert_eq.
Qed.

Lemma owner_pointer_spec o p w :
  owners w !! o = None →
  owner_pointer o p w =
    Some (tt, World (<[o := WeakableUniquePtr p default_delete
                             (Some (fresh (dom (heap w))))]> (owners w))
                (weaks w)
                (<[fresh (dom (heap w)) := ControlBlock 1 p]> (heap w))
                (trace w ++ [EvNew (fresh (dom (heap w))) p])).
Proof. apply owner_pointer_deleter_spec. Qed.

Lemma owner_move_spec o r v w :
  owners w !! r = Some v → owners w !! o = None →
  owner_move o r w =
    Some (tt, World (<[o := WeakableUniquePtr (px v) (pd v) (pc v)]>
                       (<[r := WeakableUniquePtr nullptr (moved_from (pd v)) None]>
                          (owners w)))
                (weaks w) (heap w) (trace w)).
Proof.
  intros Hr Ho. destruct w as [ow wk h t]; simpl in *.
  unfold_ops; simpl. rewrite Hr; simpl. rewrite Hr; simpl.
  rewrite lookup_insert_ne by congruence. by rewrite Ho.
Qed.

Lemma owner_swap_spec o r a b w :
  owners w !! o = Some a → owners w !! r = Some b →
  owner_swap o r w =
    Some (tt, World (<[r := a]> (<[o := b]> (owners w))) (weaks w) (heap w) (trace w)).
Proof.
  intros Ho Hr. destruct w as [ow wk h t]; simpl in *.
  unfold_ops; simpl. rewrite Ho; simpl. rewrite Hr; simpl. rewrite Ho; simpl.
  destruct (decide (o = r)) as [->|Hne].
  - by rewrite lookup_insert_eq.
  - rewrite lookup_insert_ne by done. by rewrite Hr.
Qed.

(** The tail of the copy-and-swap idiom: the temporary takes what the
    target held and is destroyed with it. *)
Lemma swap_destroy_spec tmp o a v w :
  wf w → tmp ≠ o → owners w !! tmp = Some a → owners w !! o = Some v →
  (owner_swap tmp o;; owner_destroy tmp) w =
    Some (tt, World (<[o := a]> (delete tmp (owners w))) (weaks w)
                (heap_after_destroy (pc v) (heap w))
                (trace w ++ events_of_destroy v (heap w))).
Proof.
  intros Hwf Hne Ht Ho.
  pose proof (owner_swap_spec tmp o a v w Ht Ho) as Hs.
  rewrite (bind_eq _ _ _ _ _ Hs).
  rewrite (owner_destroy_spec tmp v); simpl.
  - by rewrite delete_insert_ne, delete_insert_eq by done.
  - apply wf_but_weaken. by eapply owner_swap_wf.
  - rewrite lookup_insert_ne by done. apply lookup_insert_eq.
Qed.

Lemma temp_owner_spec w :
  temp_owner w = Some (fresh (dom (owners w)), w).
Proof. done. Qed.

Lemma fresh_owner_ne o v (ow : gmap var weakable_unique_ptr) :
  ow !! o = Some v → fresh (dom ow) ≠ o.
Proof. intros Ho He. rewrite <- He, fresh_owner in Ho. done. Qed.

Lemma owner_assign_nullptr_spec o v w :
  wf w → owners w !! o = Some v →
  owner_assign_nullptr o w =
    Some (tt, World (<[o := empty_owner]> (owners w)) (weaks w)
                (heap_after_destroy (pc v) (heap w))
                (trace w ++ events_of_destroy v (heap w))).
Proof.
  intros Hwf Ho. unfold owner_assign_nullptr.
  rewrite (bind_eq _ _ _ _ _ (temp_owner_spec w)).
  set (tmp := fresh (dom (owners w))).
  assert (Ht : owners w !! tmp = None) by apply fresh_owner.
  assert (Hne : tmp ≠ o) by (by eapply fresh_owner_ne).
  rewrite (bind_eq _ _ _ _ _ (owner_default_spec tmp w Ht)).
  rewrite (swap_destroy_spec tmp o empty_owner v); simpl.
  - by rewrite delete_insert_eq, delete_id.
  - eapply owner_default_wf; [done | by apply owner_default_spec].
  - done.
  - apply lookup_insert_eq.
  - by rewrite lookup_insert_ne.
Qed.

Lemma heap_after_destroy_insert c0 l c (h : gmap loc control_block) :
  c0 ≠ Some l →
  heap_after_destroy c0 (<[l := c]> h) = <[l := c]> (heap_after_destroy c0 h).
Proof.
  intros Hne. unfold heap_after_destroy. destruct c0 as [l0|]; [|done].
  assert (l ≠ l0) by congruence.
  rewrite lookup_insert_ne by done. destruct (h !! l0) as [b|]; [|done].
  case_decide; [by rewrite delete_insert_ne | by rewrite insert_insert_ne].
Qed.

Lemma events_of_destroy_insert v l c (h : gmap loc control_block) :
  pc v ≠ Some l → events_of_destroy v (<[l := c]> h) = events_of_destroy v h.
Proof.
  intros Hne. unfold events_of_destroy. destruct (pc v) as [l0|]; [|done].
  assert (l ≠ l0) by congruence. by rewrite lookup_insert_ne.
Qed.

Lemma owner_cell_not_fresh ex w o v :
  wf_but ex w → owners w !! o = Some v → pc v ≠ Some (fresh (dom (heap w))).
Proof.
  intros Hwf Ho Hv. destruct (wf_owner_cell _ _ Hwf o v _ Ho Hv) as [c Hc].
  by rewrite fresh_heap in Hc.
Qed.

Lemma owner_reset_spec o p v w :
  wf w → owners w !! o = Some v →
  owner_reset o p w =
    Some (tt, World (<[o := WeakableUniquePtr p default_delete
                             (Some (fresh (dom (heap w))))]> (owners w))
                (weaks w)
                (<[fresh (dom (heap w)) := ControlBlock 1 p]>
                   (heap_after_destroy (pc v) (heap w)))
                (trace w ++ EvNew (fresh (dom (heap w))) p
                         :: events_of_destroy v (heap w))).
Proof.
  intros Hwf Ho. unfold owner_reset.
  rewrite (bind_eq _ _ _ _ _ (temp_owner_spec w)).
  set (tmp := fresh (dom (owners w))).
  assert (Ht : owners w !! tmp = None) by apply fresh_owner.
  assert (Hne : tmp ≠ o) by (by eapply fresh_owner_ne).
  pose proof (owner_cell_not_fresh _ w o v Hwf Ho) as Hfr.
  rewrite (bind_eq _ _ _ _ _ (owner_pointer_spec tmp p w Ht)).
  rewrite (swap_destroy_spec tmp o
             (WeakableUniquePtr p default_delete (Some (fresh (dom (heap w))))) v);
    simpl.
  - rewrite delete_insert_eq, delete_id by done.
    rewrite heap_after_destroy_insert, events_of_destroy_insert by done.
    by rewrite <- app_assoc.
  - eapply owner_pointer_wf; [done | by apply owner_pointer_spec].
  - done.
  - apply lookup_insert_eq.
  - by rewrite lookup_insert_ne.
Qed.

Lemma events_of_destroy_empty d h :
  events_of_destroy (WeakableUniquePtr nullptr d None) h = [].
Proof. done. Qed.

Lemma owner_assign_move_spec o r v vo w :
  wf w → o ≠ r → owners w !! r = Some v → owners w !! o = Some vo →
  owner_assign_move o r w =
    Some (tt, World (<[o := WeakableUniquePtr (px v) (pd v) (pc v)]>
                       (<[r := WeakableUniquePtr nullptr (moved_from (pd v)) None]>
                          (owners w)))
                (weaks w)
                (heap_after_destroy (pc vo) (heap w))
                (trace w ++ events_of_destroy vo (heap w))).
Proof.
  intros Hwf Hor Hr Ho. unfold owner_assign_move.
  rewrite (bind_eq _ _ _ _ _ (temp_owner_spec w)).
  set (tmp := fresh (dom (owners w))).
  assert (Ht : owners w !! tmp = None) by apply fresh_owner.
  assert (Hne : tmp ≠ o) by (by eapply fresh_owner_ne).
  assert (Hne' : tmp ≠ r) by (by eapply fresh_owner_ne).
  rewrite (bind_eq _ _ _ _ _ (owner_move_spec tmp r v w Hr Ht)).
  rewrite (swap_destroy_spec tmp o (WeakableUniquePtr (px v) (pd v) (pc v)) vo); simpl.
  - rewrite delete_insert_eq, delete_insert_ne, delete_id by done. done.
  - eapply owner_move_wf; [done | by apply owner_move_spec].
  - done.
  - apply lookup_insert_eq.
  - by rewrite !lookup_insert_ne.
Qed.

(** [o = std::move( o )] changes nothing: the temporary takes the
    members, gives them back in the swap and dies empty. *)
Lemma owner_assign_move_self_spec o v w :
  wf w → owners w !! o = Some v →
  owner_assign_move o o w =
    Some (tt, World (<[o := WeakableUniquePtr (px v) (pd v) (pc v)]> (owners w))
                (weaks w) (heap w) (trace w)).
Proof.
  intros Hwf Ho. unfold owner_assign_move.
  rewrite (bind_eq _ _ _ _ _ (temp_owner_spec w)).
  set (tmp := fresh (dom (owners w))).
  assert (Ht : owners w !! tmp = None) by apply fresh_owner.
  assert (Hne : tmp ≠ o) by (by eapply fresh_owner_ne).
  rewrite (bind_eq _ _ _ _ _ (owner_move_spec tmp o v w Ho Ht)).
  rewrite (swap_destroy_spec tmp o (WeakableUniquePtr (px v) (pd v) (pc v))
             (WeakableUniquePtr nullptr (moved_from (pd v)) None)); simpl.
  - rewrite delete_insert_eq, delete_insert_ne, delete_id by done.
    by rewrite insert_insert_eq, events_of_destroy_empty, app_nil_r.
  - eapply owner_move_wf; [done | by apply owner_move_spec].
  - done.
  - apply lookup_insert_eq.
  - rewrite lookup_insert_ne by done. apply lookup_insert_eq.
Qed.

Lemma owner_release_spec o v w :
  wf w → owners w !! o = Some v →
  owner_release o w =
    Some (px v, World (<[o := empty_owner]> (owners w)) (weaks w)
                  (heap_after_destroy (pc v) (heap w))
                  (trace w ++ events_of_destroy
                                (WeakableUniquePtr nullptr (pd v) (pc v)) (heap w))).
Proof.
  intros Hwf Ho. unfold owner_release.
  rewrite (bind_eq _ _ _ _ _ (temp_owner_spec w)).
  set (tmp := fresh (dom (owners w))).
  assert (Ht : owners w !! tmp = None) by apply fresh_owner.
  assert (Hne : tmp ≠ o) by (by eapply fresh_owner_ne).
  rewrite (bind_eq _ _ _ _ _ (owner_default_spec tmp w Ht)).
  set (w1 := World (<[tmp := empty_owner]> (owners w)) (weaks w) (heap w) (trace w)).
  assert (Hwf1 : wf w1).
  { eapply owner_default_wf; [done | by apply owner_default_spec]. }
  assert (Hs : owner_swap tmp o w1 =
    Some (tt, World (<[o := empty_owner]> (<[tmp := v]> (owners w1)))
                (weaks w) (heap w) (trace w))).
  { apply (owner_swap_spec tmp o empty_owner v w1); simpl.
    - apply lookup_insert_eq.
    - by rewrite lookup_insert_ne. }
  rewrite (bind_eq _ _ _ _ _ Hs).
  set (w2 := World (<[o := empty_owner]> (<[tmp := v]> (owners w1)))
                (weaks w) (heap w) (trace w)) in *.
  assert (Hwf2 : wf w2) by (by eapply owner_swap_wf).
  assert (Ht2 : owners w2 !! tmp = Some v).
  { simpl. rewrite lookup_insert_ne by done. apply lookup_insert_eq. }
  assert (Hg : get_owner tmp w2 = Some (v, w2)).
  { unfold get_owner. by rewrite Ht2. }
  rewrite (bind_eq _ _ _ _ _ Hg).
  assert (Hset : set_owner tmp (WeakableUniquePtr nullptr (pd v) (pc v)) w2 =
    Some (tt, World (<[tmp := WeakableUniquePtr nullptr (pd v) (pc v)]> (owners w2))
                (weaks w) (heap w) (trace w))).
  { unfold set_owner. by rewrite Ht2. }
  rewrite (bind_eq _ _ _ _ _ Hset).
  set (w3 := World (<[tmp := WeakableUniquePtr nullptr (pd v) (pc v)]> (owners w2))
                (weaks w) (heap w) (trace w)) in *.
  assert (Hwf3 : wf_but (Some tmp) w3) by (by eapply take_px_wf).
  rewrite (bind_eq _ _ _ _ _
    (owner_destroy_spec tmp (WeakableUniquePtr nullptr (pd v) (pc v)) w3 Hwf3
       (lookup_insert_eq _ _ _))).
  simpl. unfold mret, M_ret, ret. do 3 f_equal.
  rewrite delete_insert_eq, delete_insert_ne, !delete_insert_eq, delete_id by done.
  done.
Qed.

(** *** Taking a snapshot *)

Lemma weak_from_owner_unbound x o v w :
  owners w !! o = Some v → pc v = None → weaks w !! x = None →
  weak_from_owner x o w =
    Some (tt, World (owners w) (<[x := UniqueWeakPtr None]> (weaks w))
                (heap w) (trace w)).
Proof.
  intros Ho Hv Hx. unfold weak_from_owner, get_owner, new_weak, mbind, M_bind, bind.
  rewrite Ho, Hv; simpl. unfold mret, M_ret, ret. by rewrite Hx.
Qed.

Lemma weak_from_owner_bound x o v l c w :
  owners w !! o = Some v → pc v = Some l → weaks w !! x = None →
  heap w !! l = Some c → ref_count c < LONG_MAX →
  weak_from_owner x o w =
    Some (tt, World (owners w) (<[x := UniqueWeakPtr (Some l)]> (weaks w))
                (<[l := ControlBlock (ref_count c + 1) (cb_px c)]> (heap w))
                (trace w)).
Proof.
  intros Ho Hv Hx Hc Hrc. destruct w as [ow wk h t]; simpl in *.
  unfold_ops; simpl. rewrite Ho, Hv; simpl. rewrite Hc.
  rewrite decide_True by done. simpl. by rewrite Hx.
Qed.

Lemma weak_from_owner_snapshot x o w w' :
  weak_from_owner x o w = Some (tt, w') → snapshot_of x o w'.
Proof.
  destruct w as [ow wk h t]. intros Hs. unfold snapshot_of. invert_ops.
  - eexists _, _. split; [apply lookup_insert_eq|]. split; [done|]. simpl. congruence.
  - eexists _, _. split; [apply lookup_insert_eq|]. split; [done|]. simpl. congruence.
Qed.

(** *** Operations on owners leave the observers alone *)

Lemma owner_destroy_weaks o w w' :
  owner_destroy o w = Some (tt, w') → weaks w' = weaks w.
Proof. destruct w as [ow wk h t]. intros Hs. by invert_ops. Qed.

Lemma owner_default_weaks o w w' :
  owner_default o w = Some (tt, w') → weaks w' = weaks w.
Proof. destruct w as [ow wk h t]. intros Hs. by invert_ops. Qed.

Lemma owner_pointer_deleter_weaks o p d w w' :
  owner_pointer_deleter o p d w = Some (tt, w') → weaks w' = weaks w.
Proof. destruct w as [ow wk h t]. intros Hs. by invert_ops. Qed.

Lemma owner_move_weaks o r w w' :
  owner_move o r w = Some (tt, w') → weaks w' = weaks w.
Proof. destruct w as [ow wk h t]. intros Hs. by invert_ops. Qed.

Lemma owner_swap_weaks o r w w' :
  owner_swap o r w = Some (tt, w') → weaks w' = weaks w.
Proof. destruct w as [ow wk h t]. intros Hs. by invert_ops. Qed.

Lemma owner_tail_weaks (m : M unit) tmp o w w' :
  (∀ w0 w1, m w0 = Some (tt, w1) → weaks w1 = weaks w0) →
  (m;; owner_swap tmp o;; owner_destroy tmp) w = Some (tt, w') →
  weaks w' = weaks w.
Proof.
  intros Hm Hs.
  apply bind_Some in Hs as ([] & w1 & H1 & Hs).
  apply bind_Some in Hs as ([] & w2 & H2 & Hs).
  rewrite (owner_destroy_weaks _ _ _ Hs), (owner_swap_weaks _ _ _ _ H2). eauto.
Qed.

Lemma exec_owner_weaks c w w' :
  weak_writes c = [] → exec c w = Some (tt, w') → weaks w' = weaks w.
Proof.
  intros Hc Hs. destruct c; try discriminate Hc; simpl in Hs.
  - by eapply owner_destroy_weaks.
  - by eapply owner_default_weaks.
  - by eapply owner_default_weaks.
  - by eapply owner_pointer_deleter_weaks.
  - by eapply owner_pointer_deleter_weaks.
  - by eapply owner_move_weaks.
  - apply bind_Some in Hs as (tmp & w1 & Ht & Hs). injection Ht as <- <-.
    eapply owner_tail_weaks; [|done]. eauto using owner_move_weaks.
  - apply bind_Some in Hs as (tmp & w1 & Ht & Hs). injection Ht as <- <-.
    eapply owner_tail_weaks; [|done]. eauto using owner_default_weaks.
  - apply bind_Some in Hs as (p & w1 & H1 & Hs). apply ret_Some in Hs as [_ <-].
    unfold owner_release in H1.
    apply bind_Some in H1 as (tmp & w0 & Ht & H1). injection Ht as <- <-.
    apply bind_Some in H1 as ([] & w2 & H2 & H1).
    apply bind_Some in H1 as ([] & w3 & H3 & H1).
    apply bind_Some in H1 as (t & w4 & H4 & H1).
    apply bind_Some in H1 as ([] & w5 & H5 & H1).
    apply bind_Some in H1 as ([] & w6 & H6 & H1).
    apply ret_Some in H1 as [_ <-].
    rewrite (owner_destroy_weaks _ _ _ H6).
    assert (weaks w5 = weaks w3) as ->.
    { destruct w3 as [ow wk h tr]. clear -H4 H5. by invert_ops. }
    rewrite (owner_swap_weaks _ _ _ _ H3). by eapply owner_default_weaks.
  - apply bind_Some in Hs as (tmp & w1 & Ht & Hs). injection Ht as <- <-.
    eapply owner_tail_weaks; [|done]. eauto using owner_pointer_deleter_weaks.
  - by eapply owner_swap_weaks.
Qed.

(** *** Operations on observers leave the other observers alone *)

Lemma weak_destroy_frame x y w w' :
  x ≠ y → weak_destroy y w = Some (tt, w') → weaks w' !! x = weaks w !! x.
Proof.
  destruct w as [ow wk h t]. intros Hne Hs. invert_ops;
    by rewrite lookup_delete_ne.
Qed.

Lemma weak_default_frame x y w w' :
  x ≠ y → weak_default y w = Some (tt, w') → weaks w' !! x = weaks w !! x.
Proof.
  destruct w as [ow wk h t]. intros Hne Hs. invert_ops.
  by rewrite lookup_insert_ne.
Qed.

Lemma weak_copy_frame x y r w w' :
  x ≠ y → weak_copy y r w = Some (tt, w') → weaks w' !! x = weaks w !! x.
Proof.
  destruct w as [ow wk h t]. intros Hne Hs. invert_ops;
    by rewrite lookup_insert_ne.
Qed.

Lemma weak_from_owner_frame x y o w w' :
  x ≠ y → weak_from_owner y o w = Some (tt, w') → weaks w' !! x = weaks w !! x.
Proof.
  destruct w as [ow wk h t]. intros Hne Hs. invert_ops;
    by rewrite lookup_insert_ne.
Qed.

Lemma weak_move_frame x y r w w' :
  x ≠ y → x ≠ r → weak_move y r w = Some (tt, w') → weaks w' !! x = weaks w !! x.
Proof.
  destruct w as [ow wk h t]. intros Hne Hne' Hs. invert_ops.
  by rewrite !lookup_insert_ne.
Qed.

Lemma weak_swap_frame x y r w w' :
  x ≠ y → x ≠ r → weak_swap y r w = Some (tt, w') → weaks w' !! x = weaks w !! x.
Proof.
  destruct w as [ow wk h t]. intros Hne Hne' Hs. invert_ops.
  by rewrite !lookup_insert_ne.
Qed.

Lemma weak_tail_frame (m : M unit) x tmp y w w' :
  x ≠ tmp → x ≠ y →
  (∀ w0 w1, m w0 = Some (tt, w1) → weaks w1 !! x = weaks w0 !! x) →
  (m;; weak_swap tmp y;; weak_destroy tmp) w = Some (tt, w') →
  weaks w' !! x = weaks w !! x.
Proof.
  intros Hne1 Hne2 Hm Hs.
  apply bind_Some in Hs as ([] & w1 & H1 & Hs).
  apply bind_Some in Hs as ([] & w2 & H2 & Hs).
  rewrite (weak_destroy_frame _ _ _ _ Hne1 Hs).
  rewrite (weak_swap_frame _ _ _ _ _ Hne1 Hne2 H2). eauto.
Qed.

Lemma exec_weak_frame c x u w w' :
  weaks w !! x = Some u → x ∉ weak_writes c →
  exec c w = Some (tt, w') → weaks w' !! x = Some u.
Proof.
  intros Hx Hc Hs. rewrite <- Hx.
  assert (Hfr : x ≠ fresh (dom (weaks w))).
  { intros He. pose proof (fresh_weak (weaks w)) as Hf. rewrite <- He in Hf.
    congruence. }
  destruct c; simpl in Hc;
    try (match type of Hs with
         | exec ?c _ = _ => by rewrite (exec_owner_weaks c _ _ eq_refl Hs)
         end);
    unfold exec in Hs.
  - eapply weak_destroy_frame; [|done]. set_solver.
  - eapply weak_default_frame; [|done]. set_solver.
  - eapply weak_copy_frame; [|done]. set_solver.
  - eapply weak_from_owner_frame; [|done]. set_solver.
  - eapply weak_move_frame; [| |done]; set_solver.
  - apply bind_Some in Hs as (tmp & w1 & Ht & Hs). injection Ht as <- <-.
    eapply weak_tail_frame; [done| |by eauto using weak_copy_frame|done]. set_solver.
  - apply bind_Some in Hs as (tmp & w1 & Ht & Hs). injection Ht as <- <-.
    eapply weak_tail_frame; [done| |by eauto using weak_from_owner_frame|done].
    set_solver.
  - apply bind_Some in Hs as (tmp & w1 & Ht & Hs). injection Ht as <- <-.
    eapply weak_tail_frame; [done| | |done]; [set_solver|].
    intros w0 w1 Hm. eapply weak_move_frame; [done| |done]. set_solver.
  - apply bind_Some in Hs as (tmp & w1 & Ht & Hs). injection Ht as <- <-.
    eapply weak_tail_frame; [done| |by eauto using weak_default_frame|done].
    set_solver.
  - eapply weak_swap_frame; [| |done]; set_solver.
Qed.

Lemma run_weak_frame cs x u w w' :
  weaks w !! x = Some u → Forall (λ c, x ∉ weak_writes c) cs →
  run cs w = Some (tt, w') → weaks w' !! x = Some u.
Proof.
  revert w. induction cs as [|c cs IH]; intros w Hx Hcs Hs; simpl in Hs.
  - apply ret_Some in Hs as [_ <-]. done.
  - apply Forall_cons in Hcs as [Hc Hcs].
    apply bind_Some in Hs as ([] & w1 & H1 & Hs).
    eapply IH; [|done..]. by eapply exec_weak_frame.
Qed.

(** ** The observer's queries *)

(** C5. [expired()] answers true exactly when the observer holds no
    control block or the block it holds stores the null pointer;
    [try_get()] answers the stored pointer when the observer holds a block
    that stores a non-null one, and the null pointer otherwise; both
    return the store as they found it. *)
Theorem C5_expired_try_get x u w :
  wf w → weaks w !! x = Some u →
  ∃ b p,
    expired x w = Some (b, w) ∧ try_get x w = Some (p, w) ∧
    (b = true ↔
       w_pc u = None ∨
       ∃ l c, w_pc u = Some l ∧ heap w !! l = Some c ∧ cb_px c = nullptr) ∧
    (∀ l c, w_pc u = Some l → heap w !! l = Some c → cb_px c ≠ nullptr →
       p = cb_px c) ∧
    (w_pc u = None ∨
       (∃ l c, w_pc u = Some l ∧ heap w !! l = Some c ∧ cb_px c = nullptr) →
     p = nullptr).
Proof.
  intros Hwf Hx.
  rewrite (expired_eq x u w Hx), (try_get_eq x u w Hx).
  destruct (w_pc u) as [l|] eqn:Hu.
  - destruct (wf_weak_cell _ _ Hwf x u l Hx Hu) as [c Hc]. rewrite Hc.
    exists (bool_decide (cb_px c = nullptr)), (cb_px c).
    split; [done|]. split; [done|]. split; [|split].
    + rewrite bool_decide_eq_true. split.
      * intros Hp. right. by exists l, c.
      * intros [|(l' & c' & ? & ? & ?)]; [done | congruence].
    + intros l' c' ? ? ?. congruence.
    + intros [|(l' & c' & ? & ? & ?)]; [done | congruence].
  - exists true, nullptr. split; [done|]. split; [done|]. split; [|split].
    + split; [by left | done].
    + intros l' c' ?. done.
    + done.
Qed.

(** ** Construction *)

(** C6. The pointer-taking constructors allocate a control block at an
    unused address and store the pointer in it, whatever the pointer,
    null included; the owner's [operator bool] tells whether the pointer
    is non-null, and an observer built from the owner holds the new
    block: it is bound even when the pointer is null, in which case it
    is expired. *)
Theorem C6_pointer_constructor o p d w :
  wf w → owners w !! o = None →
  owner_pointer o p w = owner_pointer_deleter o p default_delete w ∧
  ∃ l w',
    owner_pointer_deleter o p d w = Some (tt, w') ∧
    heap w !! l = None ∧
    owners w' !! o = Some (WeakableUniquePtr p d (Some l)) ∧
    heap w' = <[l := ControlBlock 1 p]> (heap w) ∧
    trace w' = trace w ++ [EvNew l p] ∧
    owner_bool o w' = Some (bool_decide (p ≠ nullptr), w') ∧
    ∀ x, weaks w' !! x = None →
      ∃ w'', weak_from_owner x o w' = Some (tt, w'') ∧
        weaks w'' !! x = Some (UniqueWeakPtr (Some l)) ∧
        expired x w'' = Some (bool_decide (p = nullptr), w'') ∧
        try_get x w'' = Some (p, w'').
Proof.
  intros Hwf Ho. split; [done|].
  exists (fresh (dom (heap w))). eexists.
  split; [by apply owner_pointer_deleter_spec|]. simpl.
  split; [apply fresh_heap|]. split; [apply lookup_insert_eq|].
  split; [done|]. split; [done|]. split.
  { unfold owner_bool, get_owner, mbind, M_bind, bind; simpl.
    by rewrite lookup_insert_eq. }
  intros x Hx. eexists. split.
  { eapply (weak_from_owner_bound x o _ (fresh (dom (heap w))) (ControlBlock 1 p));
      simpl; [apply lookup_insert_eq | done | done | apply lookup_insert_eq | lia]. }
  simpl. split; [apply lookup_insert_eq|]. split.
  - erewrite expired_eq by apply lookup_insert_eq. simpl.
    by rewrite lookup_insert_eq.
  - erewrite try_get_eq by apply lookup_insert_eq. simpl.
    by rewrite lookup_insert_eq.
Qed.

(** C7. A default-constructed owner holds no control block and allocates
    none.  An observer built from it holds none either and reports
    expired; it keeps doing so whatever runs next, as long as nothing
    assigns to the observer itself, and in particular when the owner is
    given an object by [reset]: the owner then holds a new block and the
    observer still holds none. *)
Theorem C7_default_owner_snapshot o x w :
  wf w → owners w !! o = None → weaks w !! x = None →
  ∃ w1 w2,
    owner_default o w = Some (tt, w1) ∧
    owners w1 !! o = Some empty_owner ∧
    heap w1 = heap w ∧ trace w1 = trace w ∧
    weak_from_owner x o w1 = Some (tt, w2) ∧
    weaks w2 !! x = Some (UniqueWeakPtr None) ∧
    heap w2 = heap w ∧
    reports_expired x w2 ∧
    (∀ cs w3, Forall (λ c, x ∉ weak_writes c) cs →
       run cs w2 = Some (tt, w3) →
       weaks w3 !! x = Some (UniqueWeakPtr None) ∧ reports_expired x w3) ∧
    (∀ r2, ∃ l w3,
       owner_reset o r2 w2 = Some (tt, w3) ∧
       owners w3 !! o = Some (WeakableUniquePtr r2 default_delete (Some l)) ∧
       heap w3 !! l = Some (ControlBlock 1 r2) ∧
       weaks w3 !! x = Some (UniqueWeakPtr None) ∧
       reports_expired x w3).
Proof.
  intros Hwf Ho Hx.
  pose proof (owner_default_spec o w Ho) as H1.
  set (w1 := World (<[o := empty_owner]> (owners w)) (weaks w) (heap w) (trace w)) in *.
  assert (Hwf1 : wf w1) by (by eapply owner_default_wf).
  assert (Ho1 : owners w1 !! o = Some empty_owner) by apply lookup_insert_eq.
  pose proof (weak_from_owner_unbound x o empty_owner w1 Ho1 eq_refl Hx) as H2.
  set (w2 := World (owners w1) (<[x := UniqueWeakPtr None]> (weaks w1))
                (heap w1) (trace w1)) in *.
  assert (Hwf2 : wf w2) by (by eapply weak_from_owner_wf).
  assert (Hx2 : weaks w2 !! x = Some (UniqueWeakPtr None)) by apply lookup_insert_eq.
  exists w1, w2. repeat (split; [done|]). split; [|split].
  - by apply reports_expired_unbound.
  - intros cs w3 Hcs Hrun.
    pose proof (run_weak_frame cs x _ w2 w3 Hx2 Hcs Hrun) as Hx3.
    split; [done | by apply reports_expired_unbound].
  - intros r2. eexists _, _.
    split; [by apply (owner_reset_spec o r2 empty_owner w2)|]. simpl.
    split; [apply lookup_insert_eq|]. split; [apply lookup_insert_eq|].
    split; [apply lookup_insert_eq|].
    apply reports_expired_unbound. apply lookup_insert_eq.
Qed.

(** ** Giving up the object *)

Lemma expired_Some_live x b w w' :
  expired x w = Some (b, w') → is_Some (weaks w !! x).
Proof.
  unfold expired, get_weak, mbind, M_bind, bind.
  destruct (weaks w !! x); [eauto | done].
Qed.

Lemma heap_after_destroy_cleared h l c' :
  heap_after_destroy (Some l) h !! l = Some c' → cb_px c' = nullptr.
Proof.
  unfold heap_after_destroy. destruct (h !! l) as [b|] eqn:Hb; [|congruence].
  case_decide.
  - by rewrite lookup_delete_eq.
  - rewrite lookup_insert_eq. by intros [= <-].
Qed.

Ltac in_events H :=
  repeat (apply elem_of_cons in H as [H|H]; [discriminate H|]);
  by apply elem_of_nil in H.

Lemma events_of_destroy_no_new v h l p : EvNew l p ∉ events_of_destroy v h.
Proof.
  unfold events_of_destroy. intros Hin.
  apply elem_of_app in Hin as [Hin|Hin].
  - case_decide; in_events Hin.
  - destruct (pc v) as [l0|]; [|in_events Hin].
    destruct (h !! l0); [case_decide|]; in_events Hin.
Qed.

Lemma events_of_destroy_no_delete d0 c h d p :
  EvDelete d p ∉ events_of_destroy (WeakableUniquePtr nullptr d0 c) h.
Proof.
  unfold events_of_destroy; simpl. intros Hin.
  destruct c as [l|]; [|in_events Hin].
  destruct (h !! l); [case_decide|]; in_events Hin.
Qed.

(** Who reports expired once the owner [o] has given up its control
    block: the observers built from it, and those expired before. *)
Lemma observers_after_destroy w o v w' x :
  wf w → owners w !! o = Some v → weaks w' = weaks w →
  (∀ l, is_Some (heap w !! l) →
        heap w' !! l = heap_after_destroy (pc v) (heap w) !! l) →
  snapshot_of x o w ∨ expired x w = Some (true, w) →
  reports_expired x w'.
Proof.
  intros Hwf Ho Hwk Hh Hx.
  assert (∃ u, weaks w !! x = Some u ∧
               (w_pc u = pc v ∨ expired x w = Some (true, w)))
    as (u & Hu & Hcase).
  { destruct Hx as [(u & v' & Hu & Ho' & Hpc)|He].
    - exists u. split; [done|]. left. congruence.
    - destruct (expired_Some_live _ _ _ _ He) as [u Hu]. eauto. }
  eapply (expired_after_destroy w o v x u); try done.
  - by rewrite Hwk.
  - intros l Hl. apply Hh. by eapply wf_weak_cell.
Qed.

(** C10. Assigning [nullptr] to an owner runs the deleter on its object
    if it has one, resets its control block if it has one, and leaves it
    with neither; no control block is allocated, so an observer built
    from the owner afterwards holds none, while the observers built
    before report expired. *)
Theorem C10_assign_nullptr o v w :
  wf w → owners w !! o = Some v →
  ∃ w',
    owner_assign_nullptr o w = Some (tt, w') ∧
    owners w' = <[o := empty_owner]> (owners w) ∧
    weaks w' = weaks w ∧
    heap w' = heap_after_destroy (pc v) (heap w) ∧
    trace w' = trace w ++ events_of_destroy v (heap w) ∧
    (px v ≠ nullptr → EvDelete (pd v) (px v) ∈ events_of_destroy v (heap w)) ∧
    (∀ l, pc v = Some l →
       EvReset l ∈ events_of_destroy v (heap w) ∧
       ∀ c', heap w' !! l = Some c' → cb_px c' = nullptr) ∧
    (∀ l p, EvNew l p ∉ events_of_destroy v (heap w)) ∧
    (∀ x, snapshot_of x o w → reports_expired x w') ∧
    (∀ x, weaks w' !! x = None →
       ∃ w'', weak_from_owner x o w' = Some (tt, w'') ∧
              weaks w'' !! x = Some (UniqueWeakPtr None) ∧
              heap w'' = heap w').
Proof.
  intros Hwf Ho. eexists.
  split; [by apply (owner_assign_nullptr_spec o v w)|]. simpl.
  repeat (split; [done|]). split; [|split; [|split; [|split]]].
  - intros Hp. unfold events_of_destroy. rewrite decide_False by done.
    apply elem_of_app. left. apply list_elem_of_here.
  - intros l Hl. split.
    + unfold events_of_destroy. rewrite Hl.
      apply elem_of_app. right. apply list_elem_of_here.
    + rewrite Hl. apply heap_after_destroy_cleared.
  - apply events_of_destroy_no_new.
  - intros x Hx. eapply (observers_after_destroy w o v); eauto.
  - intros x Hx. eexists. split.
    + eapply (weak_from_owner_unbound x o empty_owner); simpl;
        [apply lookup_insert_eq | done | done].
    + simpl. split; [apply lookup_insert_eq | done].
Qed.

(** C1. [release()] returns the owner's pointer and leaves the owner with
    no object and no control block; the deleter is not called; the
    control block the owner held is reset, so the observers built from
    the owner report expired although the object was not destroyed. *)
Theorem C1_release o v w :
  wf w → owners w !! o = Some v →
  ∃ w' evs,
    owner_release o w = Some (px v, w') ∧
    owners w' = <[o := empty_owner]> (owners w) ∧
    weaks w' = weaks w ∧
    heap w' = heap_after_destroy (pc v) (heap w) ∧
    trace w' = trace w ++ evs ∧
    (∀ d p, EvDelete d p ∉ evs) ∧
    (∀ l, pc v = Some l →
       EvReset l ∈ evs ∧ ∀ c', heap w' !! l = Some c' → cb_px c' = nullptr) ∧
    (∀ x, snapshot_of x o w → reports_expired x w') ∧
    (∀ x, expired x w = Some (true, w) → reports_expired x w').
Proof.
  intros Hwf Ho. eexists _, _.
  split; [by apply (owner_release_spec o v w)|]. simpl.
  repeat (split; [done|]). split; [|split; [|split]].
  - apply events_of_destroy_no_delete.
  - intros l Hl. split.
    + unfold events_of_destroy; simpl. rewrite Hl. apply list_elem_of_here.
    + rewrite Hl. apply heap_after_destroy_cleared.
  - intros x Hx. eapply (observers_after_destroy w o v); eauto.
  - intros x Hx. eapply (observers_after_destroy w o v); eauto.
Qed.

Lemma snapshot_follows_move x o r w w' :
  snapshot_of x r w → owner_move o r w = Some (tt, w') → snapshot_of x o w'.
Proof.
  destruct w as [ow wk h t]. intros (u & v & Hu & Hr & Hpc) Hs.
  unfold snapshot_of in *. simpl in *. invert_ops.
  eexists _, _. split; [done|]. split; [apply lookup_insert_eq | done].
Qed.

(** C3. The destructor of an owner calls the deleter on the object if
    there is one and then resets the control block if there is one, in
    that order; every observer that holds that control block reports
    expired right afterwards, among them the observers built before the
    owner was moved to where it is destroyed. *)
Theorem C3_destructor o v w :
  wf w → owners w !! o = Some v →
  ∃ w',
    owner_destroy o w = Some (tt, w') ∧
    owners w' = delete o (owners w) ∧
    weaks w' = weaks w ∧
    (∃ fr,
       trace w'
       = trace w
         ++ (if decide (px v = nullptr) then [] else [EvDelete (pd v) (px v)])
         ++ match pc v with
            | Some l => [EvReset l]
            | None => []
            end
         ++ fr ∧
       (fr = [] ∨ ∃ l, pc v = Some l ∧ fr = [EvFree l])) ∧
    (∀ l, px v ≠ nullptr → pc v = Some l →
       ∃ evs, trace w' = trace w ++ evs ∧
              precedes (EvDelete (pd v) (px v)) (EvReset l) evs) ∧
    (∀ l c', pc v = Some l → heap w' !! l = Some c' → cb_px c' = nullptr) ∧
    (∀ x, snapshot_of x o w → reports_expired x w') ∧
    (∀ x, expired x w = Some (true, w) → reports_expired x w') ∧
    (∀ x o1 w0 w1,
       weak_from_owner x o1 w0 = Some (tt, w1) →
       owner_move o o1 w1 = Some (tt, w) →
       reports_expired x w').
Proof.
  intros Hwf Ho. eexists.
  split; [by apply (owner_destroy_spec o v w); [apply wf_but_weaken|]|]. simpl.
  repeat (split; [done|]). split; [|split; [|split; [|split; [|split]]]].
  - unfold events_of_destroy. destruct (pc v) as [l|]; [|by exists []; auto].
    destruct (heap w !! l) as [b|]; [destruct (decide (ref_count b - 1 = 0))|].
    + exists [EvFree l]. split; [reflexivity|]. right. eauto.
    + exists []. auto.
    + exists []. auto.
  - intros l Hp Hl. eexists. split; [reflexivity|].
    unfold events_of_destroy. rewrite decide_False, Hl by done.
    exists 0%nat, 1%nat. split; [lia | split; reflexivity].
  - intros l c' Hl. rewrite Hl. apply heap_after_destroy_cleared.
  - intros x Hx. eapply (observers_after_destroy w o v); eauto.
  - intros x Hx. eapply (observers_after_destroy w o v); eauto.
  - intros x o1 w0 w1 H1 H2.
    eapply (observers_after_destroy w o v); eauto.
    left. eapply snapshot_follows_move; [|done].
    by eapply weak_from_owner_snapshot.
Qed.

(** ** Replacing and relocating the object *)

(** An observer built from an owner sees the owner's pointer. *)
Lemma snapshot_try_get x o v w :
  wf w → owners w !! o = Some v → snapshot_of x o w →
  try_get x w = Some (px v, w).
Proof.
  intros Hwf Ho (u & v' & Hu & Ho' & Hpc).
  assert (v' = v) as -> by congruence.
  rewrite (try_get_eq x u w Hu), Hpc.
  pose proof (wf_owner_px _ _ Hwf o v Ho ltac:(done)) as Hpx.
  destruct (pc v) as [l|].
  - destruct Hpx as (c & -> & <-). done.
  - by rewrite Hpx.
Qed.

(** C2, as the code has it.  [reset( p )] first allocates a control block
    for [p] at an unused address, [p] null or not; only then does it call
    the deleter on the object it held, if any, and reset the control
    block it held, if any.  The observers built from the owner before
    the call report expired; an observer built from it after the call
    holds the new block and sees [p]. *)
Theorem C2_reset o p v w :
  wf w → owners w !! o = Some v →
  ∃ l w',
    owner_reset o p w = Some (tt, w') ∧
    heap w !! l = None ∧
    owners w' = <[o := WeakableUniquePtr p default_delete (Some l)]> (owners w) ∧
    weaks w' = weaks w ∧
    heap w' = <[l := ControlBlock 1 p]> (heap_after_destroy (pc v) (heap w)) ∧
    trace w' = trace w ++ EvNew l p :: events_of_destroy v (heap w) ∧
    (∀ e, e ∈ events_of_destroy v (heap w) →
          precedes (EvNew l p) e (EvNew l p :: events_of_destroy v (heap w))) ∧
    (px v ≠ nullptr → EvDelete (pd v) (px v) ∈ events_of_destroy v (heap w)) ∧
    (∀ l0, pc v = Some l0 →
       EvReset l0 ∈ events_of_destroy v (heap w) ∧
       ∀ c', heap w' !! l0 = Some c' → cb_px c' = nullptr) ∧
    (∀ x, snapshot_of x o w → reports_expired x w') ∧
    (∀ x, expired x w = Some (true, w) → reports_expired x w') ∧
    (∀ x, weaks w' !! x = None →
       ∃ w'', weak_from_owner x o w' = Some (tt, w'') ∧
              weaks w'' !! x = Some (UniqueWeakPtr (Some l)) ∧
              try_get x w'' = Some (p, w'')).
Proof.
  intros Hwf Ho. exists (fresh (dom (heap w))). eexists.
  split; [by apply (owner_reset_spec o p v w)|]. simpl.
  split; [apply fresh_heap|]. repeat (split; [done|]).
  assert (Hfr : ∀ l0, is_Some (heap w !! l0) → fresh (dom (heap w)) ≠ l0).
  { intros l0 [c Hc] He. rewrite <- He, fresh_heap in Hc. done. }
  assert (Hobs : ∀ x, snapshot_of x o w ∨ expired x w = Some (true, w) →
    reports_expired x
      (World (<[o := WeakableUniquePtr p default_delete
                        (Some (fresh (dom (heap w))))]> (owners w))
         (weaks w)
         (<[fresh (dom (heap w)) := ControlBlock 1 p]>
            (heap_after_destroy (pc v) (heap w)))
         (trace w ++ EvNew (fresh (dom (heap w))) p :: events_of_destroy v (heap w)))).
  { intros x Hx. eapply (observers_after_destroy w o v); eauto.
    intros l0 Hl0. simpl. rewrite lookup_insert_ne; [done | by apply Hfr]. }
  split; [|split; [|split; [|split; [|split]]]].
  - intros e He. apply list_elem_of_lookup in He as [j Hj].
    exists 0%nat, (S j). split; [lia|]. split; [done | exact Hj].
  - intros Hp. unfold events_of_destroy. rewrite decide_False by done.
    apply elem_of_app. left. apply list_elem_of_here.
  - intros l0 Hl0. split.
    + unfold events_of_destroy. rewrite Hl0.
      apply elem_of_app. right. apply list_elem_of_here.
    + intros c'. rewrite lookup_insert_ne.
      * rewrite Hl0. apply heap_after_destroy_cleared.
      * apply Hfr. by eapply wf_owner_cell.
  - auto.
  - auto.
  - intros x Hx. eexists. split.
    + eapply (weak_from_owner_bound x o _ (fresh (dom (heap w))) (ControlBlock 1 p));
        simpl; [apply lookup_insert_eq | done | done | apply lookup_insert_eq | lia].
    + simpl. split; [apply lookup_insert_eq|].
      erewrite try_get_eq by apply lookup_insert_eq. simpl.
      by rewrite lookup_insert_eq.
Qed.

(** C4, as the code has it.  The move constructor, and the move
    assignment from another owner, hand the pointer, the deleter and the
    very control block of the source to the destination and leave the
    source with no object and no control block; no control block is
    allocated; the observers built from the source hold the same block
    as before and still see the pointer.  Move-assigning an owner to
    itself leaves it as it was. *)
Theorem C4_move o r v w :
  wf w → owners w !! r = Some v →
  let moved := WeakableUniquePtr (px v) (pd v) (pc v) in
  let hollow := WeakableUniquePtr nullptr (moved_from (pd v)) None in
  (owners w !! o = None →
     ∃ w', owner_move o r w = Some (tt, w') ∧
       owners w' !! o = Some moved ∧ owners w' !! r = Some hollow ∧
       weaks w' = weaks w ∧ heap w' = heap w ∧ trace w' = trace w ∧
       ∀ x, snapshot_of x r w →
            snapshot_of x o w' ∧ try_get x w' = Some (px v, w')) ∧
  (∀ vo, owners w !! o = Some vo → o ≠ r →
     ∃ w', owner_assign_move o r w = Some (tt, w') ∧
       owners w' !! o = Some moved ∧ owners w' !! r = Some hollow ∧
       weaks w' = weaks w ∧
       heap w' = heap_after_destroy (pc vo) (heap w) ∧
       trace w' = trace w ++ events_of_destroy vo (heap w) ∧
       (∀ l p, EvNew l p ∉ events_of_destroy vo (heap w)) ∧
       (∀ l, pc v = Some l → heap w' !! l = heap w !! l) ∧
       ∀ x, snapshot_of x r w →
            snapshot_of x o w' ∧ try_get x w' = Some (px v, w')) ∧
  (∃ w', owner_assign_move r r w = Some (tt, w') ∧
     owners w' !! r = Some moved ∧
     weaks w' = weaks w ∧ heap w' = heap w ∧ trace w' = trace w ∧
     ∀ x, snapshot_of x r w →
          snapshot_of x r w' ∧ try_get x w' = Some (px v, w')).
Proof.
  intros Hwf Hr moved hollow.
  assert (Hsnap : ∀ x o' w',
    wf w' → weaks w' = weaks w → owners w' !! o' = Some moved →
    snapshot_of x r w → snapshot_of x o' w' ∧ try_get x w' = Some (px v, w')).
  { intros x o' w' Hwf' Hwk Ho' (u & v' & Hu & Hr' & Hpc).
    assert (v' = v) as -> by congruence.
    assert (snapshot_of x o' w') as Hs.
    { exists u, moved. by rewrite Hwk. }
    split; [done|]. by apply (snapshot_try_get x o' moved w'). }
  split; [|split].
  - intros Ho. pose proof (owner_move_spec o r v w Hr Ho) as Hm.
    eexists. split; [done|]. simpl.
    split; [apply lookup_insert_eq|].
    split; [rewrite lookup_insert_ne by congruence; apply lookup_insert_eq|].
    repeat (split; [done|]).
    intros x Hx. apply Hsnap; [by eapply owner_move_wf | done | | done].
    apply lookup_insert_eq.
  - intros vo Ho Hne.
    pose proof (owner_assign_move_spec o r v vo w Hwf Hne Hr Ho) as Hm.
    eexists. split; [done|]. simpl.
    split; [apply lookup_insert_eq|].
    split; [rewrite lookup_insert_ne by congruence; apply lookup_insert_eq|].
    repeat (split; [done|]).
    split; [apply events_of_destroy_no_new|]. split.
    + intros l Hl. apply heap_after_destroy_other. intros Hvo.
      apply Hne. by eapply (wf_unique _ _ Hwf o r vo v l).
    + intros x Hx. apply Hsnap; [by eapply owner_assign_move_wf | done | | done].
      apply lookup_insert_eq.
  - pose proof (owner_assign_move_self_spec r v w Hwf Hr) as Hm.
    eexists. split; [done|]. simpl.
    split; [apply lookup_insert_eq|].
    repeat (split; [done|]).
    intros x Hx. apply Hsnap; [by eapply owner_assign_move_wf | done | | done].
    apply lookup_insert_eq.
Qed.

(** ** The reference count *)

Lemma count_if_pos_inv `{Countable K} {A} (P : A → Prop) `{∀ a, Decision (P a)}
    (m : gmap K A) :
  (0 < count_if P m)%nat → ∃ k v, m !! k = Some v ∧ P v.
Proof.
  unfold count_if. intros Hpos.
  assert (Hne : filter (λ kv : K * A, P kv.2) m ≠ ∅).
  { apply map_size_non_empty_iff. lia. }
  apply map_choose in Hne as (k & v & Hk).
  apply map_lookup_filter_Some in Hk as [Hk HP]. eauto.
Qed.

Lemma count_if_two_inv `{Countable K} {A} (P : A → Prop) `{∀ a, Decision (P a)}
    (m : gmap K A) :
  (2 ≤ count_if P m)%nat →
  ∃ k1 k2 v1 v2, k1 ≠ k2 ∧ m !! k1 = Some v1 ∧ m !! k2 = Some v2 ∧ P v1 ∧ P v2.
Proof.
  intros H2.
  destruct (count_if_pos_inv P m) as (k1 & v1 & Hk1 & HP1); [lia|].
  pose proof (count_if_delete P m k1 v1 Hk1) as Hd.
  unfold one_if in Hd. rewrite decide_True in Hd by done.
  destruct (count_if_pos_inv P (delete k1 m)) as (k2 & v2 & Hk2 & HP2); [lia|].
  apply lookup_delete_Some in Hk2 as [Hne Hk2].
  exists k1, k2, v1, v2. eauto.
Qed.

Lemma wf_allocated_iff ex w l :
  wf_but ex w → is_Some (heap w !! l) ↔ (0 < handles w l)%nat.
Proof.
  intros Hwf. split.
  - intros [c Hc]. destruct (wf_count _ _ Hwf l c Hc). lia.
  - intros Hpos. unfold handles in Hpos.
    destruct (decide (0 < count_if (λ v, pc v = Some l) (owners w))%nat) as [Ho|Ho].
    + apply count_if_pos_inv in Ho as (o & v & Ho & Hv).
      by eapply wf_owner_cell.
    + assert (Hw : (0 < count_if (λ v, w_pc v = Some l) (weaks w))%nat) by lia.
      apply count_if_pos_inv in Hw as (x & u & Hx & Hu).
      by eapply wf_weak_cell.
Qed.

Lemma wf_one_owner ex w l :
  wf_but ex w → (count_if (λ v, pc v = Some l) (owners w) ≤ 1)%nat.
Proof.
  intros Hwf.
  destruct (decide (2 ≤ count_if (λ v, pc v = Some l) (owners w))%nat) as [H2|]; [|lia].
  apply count_if_two_inv in H2 as (o1 & o2 & v1 & v2 & Hne & H1 & H2 & Hv1 & Hv2).
  exfalso. apply Hne. by eapply (wf_unique _ _ Hwf).
Qed.

(** No program makes two owners of one control block: the header gives
    an owner no copy operation, and the operations it does give keep each
    block with the owner that was built with it or the one it was moved
    or swapped into. *)
Lemma reachable_one_owner cs w o1 o2 v1 v2 l :
  run cs empty_world = Some (tt, w) →
  owners w !! o1 = Some v1 → owners w !! o2 = Some v2 →
  pc v1 = Some l → pc v2 = Some l → o1 = o2.
Proof.
  intros Hrun. apply (wf_unique None w).
  eapply run_wf; [apply wf_empty_world | done].
Qed.

(** C8. [intrusive_ptr_add_ref] adds exactly one to the count and
    [intrusive_ptr_release] takes exactly one off, freeing the control
    block when, and only when, the count has come down to zero.  In
    every store a program can reach, the count of an allocated control
    block is the number of handles that hold it, at most one of them an
    owner's, and a control block is allocated exactly as long as some
    handle holds it. *)
Theorem C8_reference_count :
  (∀ l c w, heap w !! l = Some c → ref_count c < LONG_MAX →
     intrusive_ptr_add_ref l w =
       Some (tt, World (owners w) (weaks w)
                   (<[l := ControlBlock (ref_count c + 1) (cb_px c)]> (heap w))
                   (trace w))) ∧
  (∀ l c w, heap w !! l = Some c → - LONG_MAX - 1 < ref_count c →
     ∃ w', intrusive_ptr_release l w = Some (tt, w') ∧
       owners w' = owners w ∧ weaks w' = weaks w ∧
       (ref_count c - 1 = 0 →
          heap w' = delete l (heap w) ∧ trace w' = trace w ++ [EvFree l]) ∧
       (ref_count c - 1 ≠ 0 →
          heap w' = <[l := ControlBlock (ref_count c - 1) (cb_px c)]> (heap w) ∧
          trace w' = trace w)) ∧
  (∀ cs w, run cs empty_world = Some (tt, w) →
     ∀ l,
       (is_Some (heap w !! l) ↔ (0 < handles w l)%nat) ∧
       (count_if (λ v, pc v = Some l) (owners w) ≤ 1)%nat ∧
       (∀ c, heap w !! l = Some c → ref_count c = Z.of_nat (handles w l))).
Proof.
  split; [|split].
  - intros l c w Hc Hrc. unfold intrusive_ptr_add_ref. rewrite Hc.
    by rewrite decide_True.
  - intros l c w Hc Hrc. unfold intrusive_ptr_release. rewrite Hc.
    rewrite decide_True by done.
    destruct (decide (ref_count c - 1 = 0)); eexists; (split; [reflexivity|]);
      simpl; (split; [reflexivity|]); (split; [reflexivity|]);
      split; intros; done.
  - intros cs w Hrun l.
    assert (Hwf : wf w) by (eapply run_wf; [apply wf_empty_world | done]).
    split; [by apply (wf_allocated_iff None)|].
    split; [by apply (wf_one_owner None)|].
    intros c Hc. by destruct (wf_count _ _ Hwf l c Hc).
Qed.

(** ** What the observer's operations compute *)

Lemma ip_acquire_spec c w :
  (∀ l, c = Some l → is_Some (heap w !! l)) → can_acquire c (heap w) →
  ip_acquire c w =
    Some (c, World (owners w) (weaks w) (heap_after_acquire c (heap w)) (trace w)).
Proof.
  intros Hc Hacq. destruct w as [ow wk h t]; simpl in *.
  destruct c as [l|]; [|done].
  destruct (Hc l eq_refl) as [b Hb].
  unfold ip_acquire, intrusive_ptr_add_ref, with_heap, heap_after_acquire,
    mbind, M_bind, bind, mret, M_ret, ret; simpl.
  rewrite Hb. rewrite decide_True by (by eapply Hacq). done.
Qed.

Lemma ip_destroy_spec ex c w :
  wf_but ex w → (∀ l, c = Some l → is_Some (heap w !! l)) →
  ip_destroy c w =
    Some (tt, World (owners w) (weaks w) (heap_after_release c (heap w))
                (trace w ++ events_of_release c (heap w))).
Proof.
  intros Hwf Hc. destruct w as [ow wk h t]; simpl in *.
  destruct c as [l|]; simpl.
  - destruct (Hc l eq_refl) as [b Hb].
    destruct (wf_count _ _ Hwf l b Hb) as [_ Hpos]; simpl in *.
    unfold intrusive_ptr_release, with_heap; simpl. rewrite Hb.
    rewrite decide_True by lia.
    destruct (decide (ref_count b - 1 = 0)); [done|].
    by rewrite app_nil_r.
  - unfold mret, M_ret, ret. by rewrite app_nil_r.
Qed.

Lemma weak_destroy_spec ex x u w :
  wf_but ex w → weaks w !! x = Some u →
  weak_destroy x w =
    Some (tt, World (owners w) (delete x (weaks w))
                (heap_after_release (w_pc u) (heap w))
                (trace w ++ events_of_release (w_pc u) (heap w))).
Proof.
  intros Hwf Hx. unfold weak_destroy.
  assert (Hg : get_weak x w = Some (u, w)) by (unfold get_weak; by rewrite Hx).
  rewrite (bind_eq _ _ _ _ _ Hg).
  rewrite (bind_eq _ _ _ _ _ (ip_destroy_spec ex (w_pc u) w Hwf
             (λ l Hl, wf_weak_cell _ _ Hwf x u l Hx Hl))).
  unfold end_weak, with_weaks; simpl. by rewrite Hx.
Qed.

Lemma weak_default_spec x w :
  weaks w !! x = None →
  weak_default x w =
    Some (tt, World (owners w) (<[x := UniqueWeakPtr None]> (weaks w))
                (heap w) (trace w)).
Proof. intros Hx. unfold weak_default, new_weak. by rewrite Hx. Qed.

Lemma weak_copy_spec ex x r u w :
  wf_but ex w → weaks w !! r = Some u → weaks w !! x = None →
  can_acquire (w_pc u) (heap w) →
  weak_copy x r w =
    Some (tt, World (owners w) (<[x := UniqueWeakPtr (w_pc u)]> (weaks w))
                (heap_after_acquire (w_pc u) (heap w)) (trace w)).
Proof.
  intros Hwf Hr Hx Hacq. unfold weak_copy.
  assert (Hg : get_weak r w = Some (u, w)) by (unfold get_weak; by rewrite Hr).
  rewrite (bind_eq _ _ _ _ _ Hg).
  rewrite (bind_eq _ _ _ _ _ (ip_acquire_spec (w_pc u) w
             (λ l Hl, wf_weak_cell _ _ Hwf r u l Hr Hl) Hacq)).
  unfold new_weak, with_weaks; simpl. by rewrite Hx.
Qed.

Lemma weak_from_owner_spec ex x o v w :
  wf_but ex w → owners w !! o = Some v → weaks w !! x = None →
  can_acquire (pc v) (heap w) →
  weak_from_owner x o w =
    Some (tt, World (owners w) (<[x := UniqueWeakPtr (pc v)]> (weaks w))
                (heap_after_acquire (pc v) (heap w)) (trace w)).
Proof.
  intros Hwf Ho Hx Hacq. unfold weak_from_owner.
  assert (Hg : get_owner o w = Some (v, w)) by (unfold get_owner; by rewrite Ho).
  rewrite (bind_eq _ _ _ _ _ Hg).
  rewrite (bind_eq _ _ _ _ _ (ip_acquire_spec (pc v) w
             (λ l Hl, wf_owner_cell _ _ Hwf o v l Ho Hl) Hacq)).
  unfold new_weak, with_weaks; simpl. by rewrite Hx.
Qed.

Lemma weak_move_spec x r u w :
  weaks w !! r = Some u → weaks w !! x = None →
  weak_move x r w =
    Some (tt, World (owners w)
                (<[x := UniqueWeakPtr (w_pc u)]> (<[r := UniqueWeakPtr None]> (weaks w)))
                (heap w) (trace w)).
Proof.
  intros Hr Hx. destruct w as [ow wk h t]; simpl in *.
  unfold_ops; simpl. rewrite Hr; simpl. rewrite Hr; simpl.
  rewrite lookup_insert_ne by congruence. by rewrite Hx.
Qed.

Lemma weak_swap_spec x r a b w :
  weaks w !! x = Some a → weaks w !! r = Some b →
  weak_swap x r w =
    Some (tt, World (owners w) (<[r := a]> (<[x := b]> (weaks w)))
                (heap w) (trace w)).
Proof.
  intros Hx Hr. destruct w as [ow wk h t]; simpl in *.
  unfold_ops; simpl. rewrite Hx; simpl. rewrite Hr; simpl. rewrite Hx; simpl.
  destruct (decide (x = r)) as [->|Hne].
  - by rewrite lookup_insert_eq.
  - rewrite lookup_insert_ne by done. by rewrite Hr.
Qed.

Lemma weak_swap_destroy_spec tmp x a u w :
  wf w → tmp ≠ x → weaks w !! tmp = Some a → weaks w !! x = Some u →
  (weak_swap tmp x;; weak_destroy tmp) w =
    Some (tt, World (owners w) (<[x := a]> (delete tmp (weaks w)))
                (heap_after_release (w_pc u) (heap w))
                (trace w ++ events_of_release (w_pc u) (heap w))).
Proof.
  intros Hwf Hne Ht Hx.
  pose proof (weak_swap_spec tmp x a u w Ht Hx) as Hs.
  rewrite (bind_eq _ _ _ _ _ Hs).
  rewrite (weak_destroy_spec None tmp u); simpl.
  - by rewrite delete_insert_ne, delete_insert_eq by done.
  - by eapply weak_swap_wf.
  - rewrite lookup_insert_ne by done. apply lookup_insert_eq.
Qed.

Lemma temp_weak_spec w : temp_weak w = Some (fresh (dom (weaks w)), w).
Proof. done. Qed.

Lemma fresh_weak_ne x u (wk : gmap var unique_weak_ptr) :
  wk !! x = Some u → fresh (dom wk) ≠ x.
Proof. intros Hx He. rewrite <- He, fresh_weak in Hx. done. Qed.

Lemma weak_reset_spec x u w :
  wf w → weaks w !! x = Some u →
  weak_reset x w =
    Some (tt, World (owners w) (<[x := UniqueWeakPtr None]> (weaks w))
                (heap_after_release (w_pc u) (heap w))
                (trace w ++ events_of_release (w_pc u) (heap w))).
Proof.
  intros Hwf Hx. unfold weak_reset.
  rewrite (bind_eq _ _ _ _ _ (temp_weak_spec w)).
  set (tmp := fresh (dom (weaks w))).
  assert (Ht : weaks w !! tmp = None) by apply fresh_weak.
  assert (Hne : tmp ≠ x) by (by eapply fresh_weak_ne).
  rewrite (bind_eq _ _ _ _ _ (weak_default_spec tmp w Ht)).
  rewrite (weak_swap_destroy_spec tmp x (UniqueWeakPtr None) u); simpl.
  - by rewrite delete_insert_eq, delete_id.
  - eapply weak_default_wf; [done | by apply weak_default_spec].
  - done.
  - apply lookup_insert_eq.
  - by rewrite lookup_insert_ne.
Qed.

(** [x = r] and [x = o]: the temporary acquires the source's block, the
    swap hands it to [x], and the temporary releases what [x] held. *)
Lemma weak_assign_copy_spec x r ux ur w :
  wf w → weaks w !! x = Some ux → weaks w !! r = Some ur →
  can_acquire (w_pc ur) (heap w) →
  weak_assign_copy x r w =
    Some (tt, World (owners w) (<[x := UniqueWeakPtr (w_pc ur)]> (weaks w))
                (heap_after_release (w_pc ux) (heap_after_acquire (w_pc ur) (heap w)))
                (trace w ++ events_of_release (w_pc ux)
                              (heap_after_acquire (w_pc ur) (heap w)))).
Proof.
  intros Hwf Hx Hr Hacq. unfold weak_assign_copy.
  rewrite (bind_eq _ _ _ _ _ (temp_weak_spec w)).
  set (tmp := fresh (dom (weaks w))).
  assert (Ht : weaks w !! tmp = None) by apply fresh_weak.
  assert (Hne : tmp ≠ x) by (by eapply fresh_weak_ne).
  pose proof (weak_copy_spec None tmp r ur w Hwf Hr Ht Hacq) as Hc.
  rewrite (bind_eq _ _ _ _ _ Hc).
  rewrite (weak_swap_destroy_spec tmp x (UniqueWeakPtr (w_pc ur)) ux); simpl.
  - by rewrite delete_insert_eq, delete_id.
  - by eapply weak_copy_wf.
  - done.
  - apply lookup_insert_eq.
  - by rewrite lookup_insert_ne.
Qed.

Lemma weak_assign_owner_spec x o ux v w :
  wf w → weaks w !! x = Some ux → owners w !! o = Some v →
  can_acquire (pc v) (heap w) →
  weak_assign_owner x o w =
    Some (tt, World (owners w) (<[x := UniqueWeakPtr (pc v)]> (weaks w))
                (heap_after_release (w_pc ux) (heap_after_acquire (pc v) (heap w)))
                (trace w ++ events_of_release (w_pc ux)
                              (heap_after_acquire (pc v) (heap w)))).
Proof.
  intros Hwf Hx Ho Hacq. unfold weak_assign_owner.
  rewrite (bind_eq _ _ _ _ _ (temp_weak_spec w)).
  set (tmp := fresh (dom (weaks w))).
  assert (Ht : weaks w !! tmp = None) by apply fresh_weak.
  assert (Hne : tmp ≠ x) by (by eapply fresh_weak_ne).
  pose proof (weak_from_owner_spec None tmp o v w Hwf Ho Ht Hacq) as Hc.
  rewrite (bind_eq _ _ _ _ _ Hc).
  rewrite (weak_swap_destroy_spec tmp x (UniqueWeakPtr (pc v)) ux); simpl.
  - by rewrite delete_insert_eq, delete_id.
  - by eapply weak_from_owner_wf.
  - done.
  - apply lookup_insert_eq.
  - by rewrite lookup_insert_ne.
Qed.

Lemma weak_assign_move_spec x r ux ur w :
  wf w → x ≠ r → weaks w !! x = Some ux → weaks w !! r = Some ur →
  weak_assign_move x r w =
    Some (tt, World (owners w)
                (<[x := UniqueWeakPtr (w_pc ur)]> (<[r := UniqueWeakPtr None]> (weaks w)))
                (heap_after_release (w_pc ux) (heap w))
                (trace w ++ events_of_release (w_pc ux) (heap w))).
Proof.
  intros Hwf Hxr Hx Hr. unfold weak_assign_move.
  rewrite (bind_eq _ _ _ _ _ (temp_weak_spec w)).
  set (tmp := fresh (dom (weaks w))).
  assert (Ht : weaks w !! tmp = None) by apply fresh_weak.
  assert (Hne : tmp ≠ x) by (by eapply fresh_weak_ne).
  assert (Hne' : tmp ≠ r) by (by eapply fresh_weak_ne).
  pose proof (weak_move_spec tmp r ur w Hr Ht) as Hm.
  rewrite (bind_eq _ _ _ _ _ Hm).
  rewrite (weak_swap_destroy_spec tmp x (UniqueWeakPtr (w_pc ur)) ux); simpl.
  - by rewrite delete_insert_eq, delete_insert_ne, delete_id by done.
  - by eapply weak_move_wf.
  - done.
  - apply lookup_insert_eq.
  - by rewrite !lookup_insert_ne.
Qed.

Lemma weak_assign_move_self_spec x u w :
  wf w → weaks w !! x = Some u →
  weak_assign_move x x w =
    Some (tt, World (owners w) (<[x := UniqueWeakPtr (w_pc u)]> (weaks w))
                (heap w) (trace w)).
Proof.
  intros Hwf Hx. unfold weak_assign_move.
  rewrite (bind_eq _ _ _ _ _ (temp_weak_spec w)).
  set (tmp := fresh (dom (weaks w))).
  assert (Ht : weaks w !! tmp = None) by apply fresh_weak.
  assert (Hne : tmp ≠ x) by (by eapply fresh_weak_ne).
  pose proof (weak_move_spec tmp x u w Hx Ht) as Hm.
  rewrite (bind_eq _ _ _ _ _ Hm).
  rewrite (weak_swap_destroy_spec tmp x (UniqueWeakPtr (w_pc u)) (UniqueWeakPtr None));
    simpl.
  - rewrite delete_insert_eq, delete_insert_ne, delete_id by done.
    by rewrite insert_insert_eq, app_nil_r.
  - by eapply weak_move_wf.
  - done.
  - apply lookup_insert_eq.
  - rewrite lookup_insert_ne by done. apply lookup_insert_eq.
Qed.

(** ** Stored pointers only ever go from set to null *)

Ltac heap_cases :=
  simpl in *;
  repeat match goal with
         | H : context [<[_ := _]> _ !! _] |- _ => rewrite lookup_insert in H
         | H : context [delete _ _ !! _] |- _ => rewrite lookup_delete in H
         end;
  repeat case_decide; simplify_eq/=; eauto;
  try (left; congruence); try (right; congruence).

Lemma px_fades_refl w : px_fades w w.
Proof. intros l c0 c' H0 H'. left. congruence. Qed.

Lemma owner_destroy_fades o w w' :
  owner_destroy o w = Some (tt, w') → px_fades w w'.
Proof.
  destruct w as [ow wk h t]. intros Hs l c0 c' H0 H'. invert_ops; heap_cases.
Qed.

Lemma owner_pointer_deleter_fades o p d w w' :
  owner_pointer_deleter o p d w = Some (tt, w') → px_fades w w'.
Proof.
  destruct w as [ow wk h t]. intros Hs l c0 c' H0 H'. invert_ops.
  simpl in *. rewrite insert_insert_eq, lookup_insert in H'. case_decide; [|left; congruence].
  subst l. by rewrite fresh_heap in H0.
Qed.

Lemma same_heap_fades w w' : heap w' = heap w → px_fades w w'.
Proof. intros He l c0 c' H0 H'. rewrite He in H'. left. congruence. Qed.

Lemma owner_default_heap o w w' :
  owner_default o w = Some (tt, w') → heap w' = heap w.
Proof. destruct w as [ow wk h t]. intros Hs. by invert_ops. Qed.

Lemma owner_move_heap o r w w' :
  owner_move o r w = Some (tt, w') → heap w' = heap w.
Proof. destruct w as [ow wk h t]. intros Hs. by invert_ops. Qed.

Lemma owner_swap_heap o r w w' :
  owner_swap o r w = Some (tt, w') → heap w' = heap w.
Proof. destruct w as [ow wk h t]. intros Hs. by invert_ops. Qed.

Lemma weak_destroy_fades x w w' :
  weak_destroy x w = Some (tt, w') → px_fades w w'.
Proof.
  destruct w as [ow wk h t]. intros Hs l c0 c' H0 H'. invert_ops; heap_cases.
Qed.

Lemma weak_copy_fades x r w w' :
  weak_copy x r w = Some (tt, w') → px_fades w w'.
Proof.
  destruct w as [ow wk h t]. intros Hs l c0 c' H0 H'. invert_ops; heap_cases.
Qed.

Lemma weak_from_owner_fades x o w w' :
  weak_from_owner x o w = Some (tt, w') → px_fades w w'.
Proof.
  destruct w as [ow wk h t]. intros Hs l c0 c' H0 H'. invert_ops; heap_cases.
Qed.

Lemma weak_default_heap x w w' :
  weak_default x w = Some (tt, w') → heap w' = heap w.
Proof. destruct w as [ow wk h t]. intros Hs. by invert_ops. Qed.

Lemma weak_move_heap x r w w' :
  weak_move x r w = Some (tt, w') → heap w' = heap w.
Proof. destruct w as [ow wk h t]. intros Hs. by invert_ops. Qed.

Lemma weak_swap_heap x r w w' :
  weak_swap x r w = Some (tt, w') → heap w' = heap w.
Proof. destruct w as [ow wk h t]. intros Hs. by invert_ops. Qed.

Lemma reports_expired_inv x w :
  reports_expired x w →
  ∃ u, weaks w !! x = Some u ∧
       match w_pc u with
       | Some l => ∃ c, heap w !! l = Some c ∧ cb_px c = nullptr
       | None => True
       end.
Proof.
  intros [He _]. destruct (expired_Some_live _ _ _ _ He) as [u Hu].
  exists u. split; [done|]. by apply (expired_true_inv x u w).
Qed.

(** One step keeps an expired observer expired when it leaves the
    observer's handle alone, keeps the store well-formed and only lets
    stored pointers fade. *)
Lemma expired_step ex x w w' :
  wf_but ex w' → weaks w' !! x = weaks w !! x → px_fades w w' →
  reports_expired x w → reports_expired x w'.
Proof.
  intros Hwf Hfr Hfade He.
  apply reports_expired_inv in He as (u & Hu & Hcell).
  rewrite <- Hfr in Hu. destruct u as [[l|]]; simpl in *.
  - destruct Hcell as (c & Hc & Hpx).
    destruct (wf_weak_cell _ _ Hwf x _ l Hu eq_refl) as [c' Hc'].
    eapply reports_expired_bound; [done..|].
    destruct (Hfade l c c' Hc Hc') as [Hk|Hk]; congruence.
  - by apply reports_expired_unbound.
Qed.

Lemma owner_tail_expired (m : M unit) x tmp o w w' :
  wf w →
  (∀ w0 w1, wf w0 → m w0 = Some (tt, w1) →
            wf w1 ∧ weaks w1 = weaks w0 ∧ px_fades w0 w1) →
  (m;; owner_swap tmp o;; owner_destroy tmp) w = Some (tt, w') →
  reports_expired x w → reports_expired x w'.
Proof.
  intros Hwf Hm Hs He.
  apply bind_Some in Hs as ([] & w1 & H1 & Hs).
  apply bind_Some in Hs as ([] & w2 & H2 & Hs).
  destruct (Hm _ _ Hwf H1) as (Hwf1 & Hwk1 & Hf1).
  assert (Hwf2 : wf w2) by (by eapply owner_swap_wf).
  assert (Hwf3 : wf w').
  { eapply owner_destroy_wf; [by apply wf_but_weaken | done]. }
  apply (expired_step None x w2 w'); [done | | by eapply owner_destroy_fades |].
  { by rewrite (owner_destroy_weaks _ _ _ Hs). }
  apply (expired_step None x w1 w2); [done | | |].
  { by rewrite (owner_swap_weaks _ _ _ _ H2). }
  { apply same_heap_fades. by eapply owner_swap_heap. }
  apply (expired_step None x w w1); [done | by rewrite Hwk1 | done | done].
Qed.

Lemma weak_tail_expired (m : M unit) x tmp y w w' :
  wf w → x ≠ tmp → x ≠ y →
  (∀ w0 w1, wf w0 → m w0 = Some (tt, w1) →
            wf w1 ∧ weaks w1 !! x = weaks w0 !! x ∧ px_fades w0 w1) →
  (m;; weak_swap tmp y;; weak_destroy tmp) w = Some (tt, w') →
  reports_expired x w → reports_expired x w'.
Proof.
  intros Hwf Hne1 Hne2 Hm Hs He.
  apply bind_Some in Hs as ([] & w1 & H1 & Hs).
  apply bind_Some in Hs as ([] & w2 & H2 & Hs).
  destruct (Hm _ _ Hwf H1) as (Hwf1 & Hwk1 & Hf1).
  assert (Hwf2 : wf w2) by (by eapply weak_swap_wf).
  assert (Hwf3 : wf w') by (by eapply weak_destroy_wf).
  apply (expired_step None x w2 w'); [done | | by eapply weak_destroy_fades |].
  { by apply (weak_destroy_frame x tmp w2 w'). }
  apply (expired_step None x w1 w2); [done | | |].
  { by apply (weak_swap_frame x tmp y w1 w2). }
  { apply same_heap_fades. by eapply weak_swap_heap. }
  apply (expired_step None x w w1); [done | done | done | done].
Qed.

Lemma exec_expired c x w w' :
  wf w → x ∉ weak_writes c → exec c w = Some (tt, w') →
  reports_expired x w → reports_expired x w'.
Proof.
  intros Hwf Hc Hs He.
  assert (Hwf' : wf w') by (by eapply exec_wf).
  assert (Hfr : x ≠ fresh (dom (weaks w))).
  { destruct (reports_expired_inv _ _ He) as (u & Hu & _).
    intros Heq. pose proof (fresh_weak (weaks w)) as Hf. rewrite <- Heq in Hf.
    congruence. }
  destruct c; simpl in Hc; unfold exec in Hs.
  - apply (expired_step None x w w'); [done | | by eapply owner_destroy_fades | done].
    by rewrite (owner_destroy_weaks _ _ _ Hs).
  - apply (expired_step None x w w'); [done | | | done].
    + by rewrite (owner_default_weaks _ _ _ Hs).
    + apply same_heap_fades. by eapply owner_default_heap.
  - apply (expired_step None x w w'); [done | | | done].
    + by rewrite (owner_default_weaks _ _ _ Hs).
    + apply same_heap_fades. by eapply owner_default_heap.
  - apply (expired_step None x w w');
      [done | | by eapply owner_pointer_deleter_fades | done].
    by rewrite (owner_pointer_deleter_weaks _ _ _ _ _ Hs).
  - apply (expired_step None x w w');
      [done | | by eapply owner_pointer_deleter_fades | done].
    by rewrite (owner_pointer_deleter_weaks _ _ _ _ _ Hs).
  - apply (expired_step None x w w'); [done | | | done].
    + by rewrite (owner_move_weaks _ _ _ _ Hs).
    + apply same_heap_fades. by eapply owner_move_heap.
  - apply bind_Some in Hs as (tmp & w1 & Ht & Hs). injection Ht as <- <-.
    eapply (owner_tail_expired _ x _ _ w w' Hwf); [| done | done].
    intros w0 w1 Hwf0 Hm. split; [eapply owner_move_wf; [exact Hwf0 | exact Hm]|].
    split; [by eapply owner_move_weaks|].
    apply same_heap_fades. by eapply owner_move_heap.
  - apply bind_Some in Hs as (tmp & w1 & Ht & Hs). injection Ht as <- <-.
    eapply (owner_tail_expired _ x _ _ w w' Hwf); [| done | done].
    intros w0 w1 Hwf0 Hm. split; [eapply owner_default_wf; [exact Hwf0 | exact Hm]|].
    split; [by eapply owner_default_weaks|].
    apply same_heap_fades. by eapply owner_default_heap.
  - apply bind_Some in Hs as (p & w1 & H1 & Hs). apply ret_Some in Hs as [_ <-].
    unfold owner_release in H1.
    apply bind_Some in H1 as (tmp & w0 & Ht & H1). injection Ht as <- <-.
    apply bind_Some in H1 as ([] & w2 & H2 & H1).
    apply bind_Some in H1 as ([] & w3 & H3 & H1).
    apply bind_Some in H1 as (t & w4 & H4 & H1).
    apply bind_Some in H1 as ([] & w5 & H5 & H1).
    apply bind_Some in H1 as ([] & w6 & H6 & H1).
    apply ret_Some in H1 as [_ <-].
    assert (Hwf2 : wf w2) by (eapply owner_default_wf; [exact Hwf | exact H2]).
    assert (Hwf3 : wf w3) by (eapply owner_swap_wf; [exact Hwf2 | exact H3]).
    assert (Hwf5 : wf_but (Some (fresh (dom (owners w)))) w5)
      by (eapply take_px_wf; [exact Hwf3 | exact H4 | exact H5]).
    assert (H35 : weaks w5 = weaks w3 ∧ heap w5 = heap w3).
    { destruct w3 as [ow wk h tr]. clear -H4 H5. by invert_ops. }
    destruct H35 as [Hwk35 Hh35].
    apply (expired_step None x w5 w6); [done | | by eapply owner_destroy_fades |].
    { by rewrite (owner_destroy_weaks _ _ _ H6). }
    apply (expired_step (Some (fresh (dom (owners w)))) x w3 w5);
      [done | by rewrite Hwk35 | by apply same_heap_fades |].
    apply (expired_step None x w2 w3); [done | | |].
    { by rewrite (owner_swap_weaks _ _ _ _ H3). }
    { apply same_heap_fades. by eapply owner_swap_heap. }
    apply (expired_step None x w w2); [done | | | done].
    { by rewrite (owner_default_weaks _ _ _ H2). }
    { apply same_heap_fades. by eapply owner_default_heap. }
  - apply bind_Some in Hs as (tmp & w1 & Ht & Hs). injection Ht as <- <-.
    eapply (owner_tail_expired _ x _ _ w w' Hwf); [| done | done].
    intros w0 w1 Hwf0 Hm. split; [eapply owner_pointer_wf; [exact Hwf0 | exact Hm]|].
    split; [by eapply owner_pointer_deleter_weaks|].
    by eapply owner_pointer_deleter_fades.
  - apply (expired_step None x w w'); [done | | | done].
    + by rewrite (owner_swap_weaks _ _ _ _ Hs).
    + apply same_heap_fades. by eapply owner_swap_heap.
  - apply (expired_step None x w w'); [done | | by eapply weak_destroy_fades | done].
    eapply weak_destroy_frame; [|done]. set_solver.
  - apply (expired_step None x w w'); [done | | | done].
    + eapply weak_default_frame; [|done]. set_solver.
    + apply same_heap_fades. by eapply weak_default_heap.
  - apply (expired_step None x w w'); [done | | by eapply weak_copy_fades | done].
    eapply weak_copy_frame; [|done]. set_solver.
  - apply (expired_step None x w w');
      [done | | by eapply weak_from_owner_fades | done].
    eapply weak_from_owner_frame; [|done]. set_solver.
  - apply (expired_step None x w w'); [done | | | done].
    + eapply weak_move_frame; [| |done]; set_solver.
    + apply same_heap_fades. by eapply weak_move_heap.
  - apply bind_Some in Hs as (tmp & w1 & Ht & Hs). injection Ht as <- <-.
    eapply (weak_tail_expired _ x _ _ w w' Hwf); [done | | | done | done]; [set_solver|].
    intros w0 w1 Hwf0 Hm. split; [eapply weak_copy_wf; [exact Hwf0 | exact Hm]|].
    split; [|by eapply weak_copy_fades].
    eapply weak_copy_frame; [exact Hfr | exact Hm].
  - apply bind_Some in Hs as (tmp & w1 & Ht & Hs). injection Ht as <- <-.
    eapply (weak_tail_expired _ x _ _ w w' Hwf); [done | | | done | done]; [set_solver|].
    intros w0 w1 Hwf0 Hm. split; [eapply weak_from_owner_wf; [exact Hwf0 | exact Hm]|].
    split; [|by eapply weak_from_owner_fades].
    eapply weak_from_owner_frame; [exact Hfr | exact Hm].
  - apply bind_Some in Hs as (tmp & w1 & Ht & Hs). injection Ht as <- <-.
    eapply (weak_tail_expired _ x _ _ w w' Hwf); [done | | | done | done]; [set_solver|].
    intros w0 w1 Hwf0 Hm. split; [eapply weak_move_wf; [exact Hwf0 | exact Hm]|].
    split; [|apply same_heap_fades; by eapply weak_move_heap].
    eapply weak_move_frame; [exact Hfr | | exact Hm]. set_solver.
  - apply bind_Some in Hs as (tmp & w1 & Ht & Hs). injection Ht as <- <-.
    eapply (weak_tail_expired _ x _ _ w w' Hwf); [done | | | done | done]; [set_solver|].
    intros w0 w1 Hwf0 Hm. split; [eapply weak_default_wf; [exact Hwf0 | exact Hm]|].
    split; [|apply same_heap_fades; by eapply weak_default_heap].
    eapply weak_default_frame; [exact Hfr | exact Hm].
  - apply (expired_step None x w w'); [done | | | done].
    + eapply weak_swap_frame; [| |done]; set_solver.
    + apply same_heap_fades. by eapply weak_swap_heap.
Qed.

(** X1. Expiry is final.  An observer that reports expired keeps
    reporting expired, whatever runs next on any owner or any other
    observer, as long as the observer itself is not assigned to, moved
    from, swapped or destroyed: a control block never goes back from
    null to a pointer, and the block an observer holds is never freed
    and handed out again. *)
Theorem X1_expired_is_final cs x w w' :
  wf w → Forall (λ c, x ∉ weak_writes c) cs →
  reports_expired x w → run cs w = Some (tt, w') →
  reports_expired x w'.
Proof.
  revert w. induction cs as [|c cs IH]; intros w Hwf Hcs He Hs; simpl in Hs.
  - apply ret_Some in Hs as [_ <-]. done.
  - apply Forall_cons in Hcs as [Hc Hcs].
    apply bind_Some in Hs as ([] & w1 & H1 & Hs).
    eapply (IH w1); [by eapply exec_wf | done | | done].
    by eapply exec_expired.
Qed.

(** ** Observers only observe *)

Lemma observes_only_refl_heap w w' :
  owners w' = owners w → heap w' = heap w → trace w' = trace w →
  observes_only w w'.
Proof.
  intros Ho Hh Ht. split; [done|]. split.
  - intros l c' Hc'. exists c'. by rewrite <- Hh.
  - exists []. by rewrite app_nil_r.
Qed.

Lemma observes_only_trans w1 w2 w3 :
  observes_only w1 w2 → observes_only w2 w3 → observes_only w1 w3.
Proof.
  intros (Ho1 & Hh1 & evs1 & Ht1 & Hf1) (Ho2 & Hh2 & evs2 & Ht2 & Hf2).
  split; [congruence|]. split.
  - intros l c3 Hc3. destruct (Hh2 l c3 Hc3) as (c2 & Hc2 & Hp2).
    destruct (Hh1 l c2 Hc2) as (c1 & Hc1 & Hp1). exists c1. split; congruence.
  - exists (evs1 ++ evs2). split.
    + by rewrite Ht2, Ht1, app_assoc.
    + by apply Forall_app.
Qed.

Ltac observes_solve :=
  split; [done|]; split;
  [ intros ? ? ?; heap_cases
  | first [ by (exists []; rewrite app_nil_r)
          | by (eexists [_]; split; [done | repeat constructor; eauto]) ] ].

Lemma weak_destroy_observes x w w' :
  weak_destroy x w = Some (tt, w') → observes_only w w'.
Proof. destruct w as [ow wk h t]. intros Hs. invert_ops; observes_solve. Qed.

Lemma weak_default_observes x w w' :
  weak_default x w = Some (tt, w') → observes_only w w'.
Proof. destruct w as [ow wk h t]. intros Hs. invert_ops; observes_solve. Qed.

Lemma weak_copy_observes x r w w' :
  weak_copy x r w = Some (tt, w') → observes_only w w'.
Proof. destruct w as [ow wk h t]. intros Hs. invert_ops; observes_solve. Qed.

Lemma weak_from_owner_observes x o w w' :
  weak_from_owner x o w = Some (tt, w') → observes_only w w'.
Proof. destruct w as [ow wk h t]. intros Hs. invert_ops; observes_solve. Qed.

Lemma weak_move_observes x r w w' :
  weak_move x r w = Some (tt, w') → observes_only w w'.
Proof. destruct w as [ow wk h t]. intros Hs. invert_ops; observes_solve. Qed.

Lemma weak_swap_observes x r w w' :
  weak_swap x r w = Some (tt, w') → observes_only w w'.
Proof. destruct w as [ow wk h t]. intros Hs. invert_ops; observes_solve. Qed.

Lemma weak_tail_observes (m : M unit) tmp y w w' :
  (∀ w0 w1, m w0 = Some (tt, w1) → observes_only w0 w1) →
  (m;; weak_swap tmp y;; weak_destroy tmp) w = Some (tt, w') →
  observes_only w w'.
Proof.
  intros Hm Hs.
  apply bind_Some in Hs as ([] & w1 & H1 & Hs).
  apply bind_Some in Hs as ([] & w2 & H2 & Hs).
  eapply observes_only_trans; [by eapply Hm|].
  eapply observes_only_trans; [by eapply weak_swap_observes|].
  by eapply weak_destroy_observes.
Qed.

Lemma exec_weak_observes c w w' :
  is_weak_cmd c = true → exec c w = Some (tt, w') → observes_only w w'.
Proof.
  intros Hc Hs. destruct c; try discriminate Hc; unfold exec in Hs.
  - by eapply weak_destroy_observes.
  - by eapply weak_default_observes.
  - by eapply weak_copy_observes.
  - by eapply weak_from_owner_observes.
  - by eapply weak_move_observes.
  - apply bind_Some in Hs as (tmp & w1 & Ht & Hs). injection Ht as <- <-.
    eapply weak_tail_observes; [|done]. eauto using weak_copy_observes.
  - apply bind_Some in Hs as (tmp & w1 & Ht & Hs). injection Ht as <- <-.
    eapply weak_tail_observes; [|done]. eauto using weak_from_owner_observes.
  - apply bind_Some in Hs as (tmp & w1 & Ht & Hs). injection Ht as <- <-.
    eapply weak_tail_observes; [|done]. eauto using weak_move_observes.
  - apply bind_Some in Hs as (tmp & w1 & Ht & Hs). injection Ht as <- <-.
    eapply weak_tail_observes; [|done]. eauto using weak_default_observes.
  - by eapply weak_swap_observes.
Qed.

Lemma expired_Some_same x b w w0 : expired x w = Some (b, w0) → w0 = w.
Proof.
  unfold expired, get_weak, cb_get, mbind, M_bind, bind, mret, M_ret, ret.
  destruct (weaks w !! x) as [u|]; [|done].
  destruct (w_pc u) as [l|]; [|congruence].
  destruct (heap w !! l); [congruence | done].
Qed.

(** X2. No operation of [unique_weak_ptr] writes to anything but
    observers and reference counts: it leaves every owner as it was,
    allocates no control block, changes the pointer stored in none,
    never calls a deleter (all it can record is a control block being
    freed), and every observer it is not applied to answers [expired()]
    and [try_get()] as before. *)
Theorem X2_observers_only_observe c w w' :
  wf w → is_weak_cmd c = true → exec c w = Some (tt, w') →
  observes_only w w' ∧
  ∀ y b p, y ∉ weak_writes c →
    expired y w = Some (b, w) → try_get y w = Some (p, w) →
    expired y w' = Some (b, w') ∧ try_get y w' = Some (p, w').
Proof.
  intros Hwf Hc Hs.
  pose proof (exec_weak_observes c w w' Hc Hs) as Hobs.
  split; [done|]. intros y b p Hy He Hg.
  destruct (expired_Some_live _ _ _ _ He) as [u Hu].
  pose proof (exec_weak_frame c y u w w' Hu Hy Hs) as Hu'.
  assert (Hwf' : wf w') by (by eapply exec_wf).
  rewrite (expired_eq y u w Hu) in He. rewrite (try_get_eq y u w Hu) in Hg.
  rewrite (expired_eq y u w' Hu'), (try_get_eq y u w' Hu').
  destruct (w_pc u) as [l|] eqn:Hl.
  - destruct (wf_weak_cell _ _ Hwf' y u l Hu' Hl) as [c' Hc'].
    destruct Hobs as (_ & Hh & _). destruct (Hh l c' Hc') as (c0 & Hc0 & Hpx).
    rewrite Hc0 in He, Hg. rewrite Hc', Hpx.
    injection He as <-. injection Hg as <-. done.
  - injection He as <-. injection Hg as <-. done.
Qed.

(** ** No operation runs into undefined behaviour *)

(** X3. In a well-formed store every operation that is called on live
    objects (and, where it copies a handle, below [LONG_MAX] handles)
    is defined: it never reads or writes a freed control block and never
    takes a reference count below one; the store it leaves is
    well-formed again. *)
Theorem X3_defined_when_ready c w :
  wf w → ready c w → ∃ w', exec c w = Some (tt, w') ∧ wf w'.
Proof.
  intros Hwf Hr.
  assert (∃ w', exec c w = Some (tt, w')) as [w' Hs];
    [|exists w'; split; [done | by eapply exec_wf]].
  destruct c; simpl in Hr; unfold exec.
  - destruct Hr as [v Ho]. eexists.
    by apply (owner_destroy_spec o v w); [apply wf_but_weaken|].
  - eexists. by apply owner_default_spec.
  - eexists. by apply owner_default_spec.
  - eexists. by apply owner_pointer_spec.
  - eexists. by apply owner_pointer_deleter_spec.
  - destruct Hr as [Ho [v Hv]]. eexists. by apply (owner_move_spec o r v).
  - destruct Hr as [[vo Ho] [v Hv]]. destruct (decide (o = r)) as [->|Hne].
    + eexists. by apply (owner_assign_move_self_spec r v).
    + eexists. by apply (owner_assign_move_spec o r v vo).
  - destruct Hr as [v Ho]. eexists. by apply (owner_assign_nullptr_spec o v).
  - destruct Hr as [v Ho]. eexists.
    by rewrite (bind_eq _ _ _ _ _ (owner_release_spec o v w Hwf Ho)).
  - destruct Hr as [v Ho]. eexists. by apply (owner_reset_spec o p v).
  - destruct Hr as [[a Ho] [b Hb]]. eexists. by apply (owner_swap_spec o r a b).
  - destruct Hr as [u Hx]. eexists. by apply (weak_destroy_spec None x u).
  - eexists. by apply weak_default_spec.
  - destruct Hr as (Hx & u & Hu & Hacq). eexists.
    by apply (weak_copy_spec None x r u).
  - destruct Hr as (Hx & v & Hv & Hacq). eexists.
    by apply (weak_from_owner_spec None x o v).
  - destruct Hr as [Hx [u Hu]]. eexists. by apply (weak_move_spec x r u).
  - destruct Hr as ([ux Hx] & ur & Hr & Hacq). eexists.
    by apply (weak_assign_copy_spec x r ux ur).
  - destruct Hr as ([ux Hx] & v & Hv & Hacq). eexists.
    by apply (weak_assign_owner_spec x o ux v).
  - destruct Hr as [[ux Hx] [ur Hr]]. destruct (decide (x = r)) as [->|Hne].
    + eexists. by apply (weak_assign_move_self_spec r ur).
    + eexists. by apply (weak_assign_move_spec x r ux ur).
  - destruct Hr as [u Hx]. eexists. by apply (weak_reset_spec x u).
  - destruct Hr as [[a Hx] [b Hr]]. eexists. by apply (weak_swap_spec x r a b).
Qed.

(** ** Swapping, snapshotting, copying and moving handles *)

Lemma swap_back `{Countable K} {A} (m : gmap K A) i j a b :
  m !! i = Some a → m !! j = Some b →
  <[j := b]> (<[i := a]> (<[j := a]> (<[i := b]> m))) = m.
Proof.
  intros Hi Hj. apply map_eq. intros k.
  rewrite !lookup_insert. repeat case_decide; congruence.
Qed.

(** X4. [swap] on owners exchanges what the two owners hold and touches
    nothing else: no control block, no count, no event; an observer
    built from one owner is afterwards an observer of the other and
    sees the same pointer; swapping twice gives the store back, and so
    does swapping an owner with itself. *)
Theorem X4_owner_swap o r a b w :
  wf w → owners w !! o = Some a → owners w !! r = Some b →
  ∃ w',
    owner_swap o r w = Some (tt, w') ∧
    owners w' !! o = Some b ∧ owners w' !! r = Some a ∧
    weaks w' = weaks w ∧ heap w' = heap w ∧ trace w' = trace w ∧
    (∀ x, snapshot_of x o w →
          snapshot_of x r w' ∧ try_get x w' = Some (px a, w')) ∧
    owner_swap o r w' = Some (tt, w) ∧
    owner_swap o o w = Some (tt, w).
Proof.
  intros Hwf Ho Hr.
  pose proof (owner_swap_spec o r a b w Ho Hr) as Hs.
  set (w' := World (<[r := a]> (<[o := b]> (owners w))) (weaks w) (heap w) (trace w))
    in *.
  assert (Ho' : owners w' !! o = Some b).
  { simpl. rewrite lookup_insert. case_decide; [congruence|]. apply lookup_insert_eq. }
  assert (Hr' : owners w' !! r = Some a) by apply lookup_insert_eq.
  exists w'. split; [exact Hs|].
  split; [done|]. split; [done|]. repeat (split; [done|]).
  split; [|split].
  - intros x (u & v & Hu & Hv & Hpc). assert (v = a) as -> by congruence.
    assert (Hsn : snapshot_of x r w').
    { exists u, a. done. }
    split; [done|]. apply (snapshot_try_get x r a); [|done|done].
    by eapply owner_swap_wf.
  - rewrite (owner_swap_spec o r b a w' Ho' Hr'). simpl.
    rewrite (swap_back (owners w) o r a b Ho Hr). by destruct w.
  - rewrite (owner_swap_spec o o a a w Ho Ho).
    rewrite insert_insert_eq, insert_id by done. by destruct w.
Qed.

(** X5. An observer built from an owner sees what the owner holds:
    [try_get()] is the owner's [get()], [expired()] is true exactly when
    that pointer is null.  Building it changes nothing but the count of
    the owner's control block, which goes up by one. *)
Theorem X5_snapshot_sees_owner x o v w :
  wf w → owners w !! o = Some v → weaks w !! x = None →
  can_acquire (pc v) (heap w) →
  ∃ w',
    weak_from_owner x o w = Some (tt, w') ∧
    owners w' = owners w ∧ trace w' = trace w ∧
    weaks w' = <[x := UniqueWeakPtr (pc v)]> (weaks w) ∧
    heap w' = heap_after_acquire (pc v) (heap w) ∧
    owner_get o w' = Some (px v, w') ∧
    try_get x w' = Some (px v, w') ∧
    expired x w' = Some (bool_decide (px v = nullptr), w').
Proof.
  intros Hwf Ho Hx Hacq.
  pose proof (weak_from_owner_spec None x o v w Hwf Ho Hx Hacq) as Hs.
  eexists. split; [exact Hs|]. simpl. repeat (split; [done|]).
  set (w' := World (owners w) (<[x := UniqueWeakPtr (pc v)]> (weaks w))
                (heap_after_acquire (pc v) (heap w)) (trace w)) in *.
  assert (Hwf' : wf w') by (by eapply weak_from_owner_wf).
  assert (Hx' : weaks w' !! x = Some (UniqueWeakPtr (pc v))) by apply lookup_insert_eq.
  split; [|split].
  - unfold owner_get, get_owner, mbind, M_bind, bind. simpl. by rewrite Ho.
  - apply (snapshot_try_get x o v w'); [done | done |]. by eexists _, _.
  - rewrite (expired_eq x _ w' Hx'). cbn [w_pc].
    pose proof (wf_owner_px _ _ Hwf' o v Ho ltac:(done)) as Hpx.
    destruct (pc v) as [l|].
    + destruct Hpx as (c & Hc & Hpxc). rewrite Hc, Hpxc. done.
    + rewrite Hpx. done.
Qed.

(** X6. A copy of an observer holds the block the original holds, whose
    count goes up by one; right after, the copy and the original answer
    [expired()] and [try_get()] alike.  Nothing else changes. *)
Theorem X6_weak_copy x r u w :
  wf w → weaks w !! r = Some u → weaks w !! x = None →
  can_acquire (w_pc u) (heap w) →
  ∃ w',
    weak_copy x r w = Some (tt, w') ∧
    owners w' = owners w ∧ trace w' = trace w ∧
    weaks w' = <[x := UniqueWeakPtr (w_pc u)]> (weaks w) ∧
    heap w' = heap_after_acquire (w_pc u) (heap w) ∧
    (∀ l b, w_pc u = Some l → heap w !! l = Some b →
            heap w' !! l = Some (ControlBlock (ref_count b + 1) (cb_px b))) ∧
    expired x w' = expired r w' ∧ try_get x w' = try_get r w'.
Proof.
  intros Hwf Hr Hx Hacq.
  pose proof (weak_copy_spec None x r u w Hwf Hr Hx Hacq) as Hs.
  eexists. split; [exact Hs|]. simpl. repeat (split; [done|]).
  set (w' := World (owners w) (<[x := UniqueWeakPtr (w_pc u)]> (weaks w))
                (heap_after_acquire (w_pc u) (heap w)) (trace w)) in *.
  assert (Hx' : weaks w' !! x = Some (UniqueWeakPtr (w_pc u))) by apply lookup_insert_eq.
  assert (Hr' : weaks w' !! r = Some u).
  { simpl. rewrite lookup_insert_ne; [done | congruence]. }
  split; [|split].
  - intros l b Hl Hb. unfold heap_after_acquire. rewrite Hl, Hb.
    apply lookup_insert_eq.
  - by rewrite (expired_eq x _ w' Hx'), (expired_eq r _ w' Hr').
  - by rewrite (try_get_eq x _ w' Hx'), (try_get_eq r _ w' Hr').
Qed.

(** X7. Move-constructing an observer transfers the handle: the new
    observer answers what the source answered, the source is left
    holding nothing and reports expired, and no reference count
    changes. *)
Theorem X7_weak_move x r u w :
  wf w → weaks w !! r = Some u → weaks w !! x = None →
  ∃ w',
    weak_move x r w = Some (tt, w') ∧
    owners w' = owners w ∧ heap w' = heap w ∧ trace w' = trace w ∧
    weaks w' !! x = Some (UniqueWeakPtr (w_pc u)) ∧
    weaks w' !! r = Some (UniqueWeakPtr None) ∧
    reports_expired r w' ∧
    ∀ b p, expired r w = Some (b, w) → try_get r w = Some (p, w) →
           expired x w' = Some (b, w') ∧ try_get x w' = Some (p, w').
Proof.
  intros Hwf Hr Hx.
  pose proof (weak_move_spec x r u w Hr Hx) as Hs.
  assert (Hne : r ≠ x) by congruence.
  eexists. split; [exact Hs|]. simpl. repeat (split; [done|]).
  set (w' := World (owners w)
                (<[x := UniqueWeakPtr (w_pc u)]> (<[r := UniqueWeakPtr None]> (weaks w)))
                (heap w) (trace w)) in *.
  assert (Hx' : weaks w' !! x = Some (UniqueWeakPtr (w_pc u))) by apply lookup_insert_eq.
  assert (Hr' : weaks w' !! r = Some (UniqueWeakPtr None)).
  { simpl. rewrite lookup_insert_ne by done. apply lookup_insert_eq. }
  split; [done|]. split; [done|]. split; [by apply reports_expired_unbound|].
  intros b p He Hg.
  rewrite (expired_eq r u w Hr) in He. rewrite (try_get_eq r u w Hr) in Hg.
  rewrite (expired_eq x _ w' Hx'), (try_get_eq x _ w' Hx'). simpl.
  destruct (w_pc u) as [l|].
  - destruct (heap w !! l) as [c|]; [|done].
    injection He as <-. injection Hg as <-. done.
  - injection He as <-. injection Hg as <-. done.
Qed.

(** X8. [swap] on observers exchanges the two handles and changes no
    control block, count or owner; swapping twice gives the store back. *)
Theorem X8_weak_swap x r a b w :
  weaks w !! x = Some a → weaks w !! r = Some b →
  ∃ w',
    weak_swap x r w = Some (tt, w') ∧
    weaks w' !! x = Some b ∧ weaks w' !! r = Some a ∧
    owners w' = owners w ∧ heap w' = heap w ∧ trace w' = trace w ∧
    expired x w' = (λ bw, (bw.1, w')) <$> expired r w ∧
    try_get x w' = (λ pw, (pw.1, w')) <$> try_get r w ∧
    weak_swap x r w' = Some (tt, w).
Proof.
  intros Hx Hr.
  pose proof (weak_swap_spec x r a b w Hx Hr) as Hs.
  set (w' := World (owners w) (<[r := a]> (<[x := b]> (weaks w))) (heap w) (trace w))
    in *.
  assert (Hx' : weaks w' !! x = Some b).
  { simpl. rewrite lookup_insert. case_decide; [congruence|]. apply lookup_insert_eq. }
  assert (Hr' : weaks w' !! r = Some a) by apply lookup_insert_eq.
  exists w'. split; [exact Hs|].
  split; [done|]. split; [done|]. repeat (split; [done|]).
  split; [|split].
  - rewrite (expired_eq x b w' Hx'), (expired_eq r b w Hr). simpl.
    destruct (w_pc b) as [l|]; [|done]. by destruct (heap w !! l).
  - rewrite (try_get_eq x b w' Hx'), (try_get_eq r b w Hr). simpl.
    destruct (w_pc b) as [l|]; [|done]. by destruct (heap w !! l).
  - rewrite (weak_swap_spec x r b a w' Hx' Hr'). simpl.
    rewrite (swap_back (weaks w) x r a b Hx Hr). by destruct w.
Qed.

(** ** Dropping and reassigning an observer *)

Lemma observer_answers_kept ex y x u u' w w' b p :
  wf_but ex w' → observes_only w w' →
  weaks w !! y = Some u → weaks w' !! x = Some u' → w_pc u' = w_pc u →
  expired y w = Some (b, w) → try_get y w = Some (p, w) →
  expired x w' = Some (b, w') ∧ try_get x w' = Some (p, w').
Proof.
  intros Hwf' (_ & Hh & _) Hu Hu' Hpc He Hg.
  rewrite (expired_eq y u w Hu) in He. rewrite (try_get_eq y u w Hu) in Hg.
  rewrite (expired_eq x u' w' Hu'), (try_get_eq x u' w' Hu'), Hpc.
  destruct (w_pc u) as [l|] eqn:Hl.
  - destruct (wf_weak_cell _ _ Hwf' x u' l Hu' ltac:(congruence)) as [c' Hc'].
    destruct (Hh l c' Hc') as (c0 & Hc0 & Hpx).
    rewrite Hc0 in He, Hg. rewrite Hc', Hpx.
    injection He as <-. injection Hg as <-. done.
  - injection He as <-. injection Hg as <-. done.
Qed.

Lemma release_acquire ex c w :
  wf_but ex w → (∀ l, c = Some l → is_Some (heap w !! l)) →
  heap_after_release c (heap_after_acquire c (heap w)) = heap w ∧
  events_of_release c (heap_after_acquire c (heap w)) = [].
Proof.
  intros Hwf Hc. destruct c as [l|]; [|done].
  destruct (Hc l eq_refl) as [b Hb].
  destruct (wf_count _ _ Hwf l b Hb) as [_ Hpos].
  unfold heap_after_release, events_of_release, heap_after_acquire.
  rewrite Hb, lookup_insert_eq. simpl.
  rewrite !decide_False by lia. split; [|done].
  rewrite insert_insert_eq.
  replace (ref_count b + 1 - 1) with (ref_count b) by lia.
  apply insert_id. by destruct b.
Qed.

(** X9. The destructor and [reset()] of an observer give up its handle
    and do the same to the heap: nothing if the observer held nothing;
    otherwise the count of its block goes down by one, and the block is
    freed exactly when the observer was the last handle to it.  After
    [reset()] the observer holds nothing and reports expired. *)
Theorem X9_weak_drop x u w :
  wf w → weaks w !! x = Some u →
  ∃ w1 w2,
    weak_destroy x w = Some (tt, w1) ∧ weak_reset x w = Some (tt, w2) ∧
    weaks w1 = delete x (weaks w) ∧
    weaks w2 = <[x := UniqueWeakPtr None]> (weaks w) ∧
    reports_expired x w2 ∧
    owners w1 = owners w ∧ owners w2 = owners w ∧
    heap w2 = heap w1 ∧ trace w2 = trace w1 ∧
    (w_pc u = None → heap w1 = heap w ∧ trace w1 = trace w) ∧
    (∀ l b, w_pc u = Some l → heap w !! l = Some b →
       (handles w l = 1%nat →
          heap w1 = delete l (heap w) ∧ trace w1 = trace w ++ [EvFree l]) ∧
       (handles w l ≠ 1%nat →
          heap w1 = <[l := ControlBlock (ref_count b - 1) (cb_px b)]> (heap w) ∧
          trace w1 = trace w)).
Proof.
  intros Hwf Hx. eexists _, _.
  split; [by apply (weak_destroy_spec None x u)|].
  split; [by apply (weak_reset_spec x u)|]. simpl.
  split; [done|]. split; [done|].
  split; [apply reports_expired_unbound, lookup_insert_eq|].
  repeat (split; [done|]). split.
  - intros ->. simpl. by rewrite app_nil_r.
  - intros l b Hl Hb. destruct (wf_count _ _ Hwf l b Hb) as [Hrc _].
    unfold heap_after_release, events_of_release. rewrite Hl, Hb. split.
    + intros H1. repeat case_decide; try lia. done.
    + intros H1. repeat case_decide; try lia. by rewrite app_nil_r.
Qed.

(** X10. Copy-assigning an observer makes it hold the block the source
    holds: right after, the two answer alike, and the assigned observer
    answers what the source answered before.  The owners are left
    alone; assigning an observer to itself gives back the very same
    store. *)
Theorem X10_weak_assign_copy x r ux ur w :
  wf w → weaks w !! x = Some ux → weaks w !! r = Some ur →
  can_acquire (w_pc ur) (heap w) →
  ∃ w',
    weak_assign_copy x r w = Some (tt, w') ∧
    owners w' = owners w ∧
    weaks w' = <[x := UniqueWeakPtr (w_pc ur)]> (weaks w) ∧
    expired x w' = expired r w' ∧ try_get x w' = try_get r w' ∧
    (∀ b p, expired r w = Some (b, w) → try_get r w = Some (p, w) →
            expired x w' = Some (b, w') ∧ try_get x w' = Some (p, w')) ∧
    (x = r → w' = w).
Proof.
  intros Hwf Hx Hr Hacq.
  pose proof (weak_assign_copy_spec x r ux ur w Hwf Hx Hr Hacq) as Hs.
  eexists. split; [exact Hs|].
  match type of Hs with _ = Some (_, ?w0) => set (w' := w0) in * end.
  assert (Hwf' : wf w') by (by eapply weak_assign_copy_wf).
  assert (Hx' : weaks w' !! x = Some (UniqueWeakPtr (w_pc ur))) by apply lookup_insert_eq.
  assert (Hr' : ∃ u', weaks w' !! r = Some u' ∧ w_pc u' = w_pc ur).
  { simpl. rewrite lookup_insert. case_decide; eauto. }
  destruct Hr' as (u' & Hr' & Hpc).
  split; [done|]. split; [done|].
  split; [by rewrite (expired_eq x _ w' Hx'), (expired_eq r _ w' Hr'), Hpc|].
  split; [by rewrite (try_get_eq x _ w' Hx'), (try_get_eq r _ w' Hr'), Hpc|].
  split.
  - intros b p He Hg.
    apply (observer_answers_kept None r x ur (UniqueWeakPtr (w_pc ur)) w w' b p);
      try done.
    apply (exec_weak_observes (WeakAssignCopy x r)); done.
  - intros ->. assert (ux = ur) as -> by congruence.
    destruct (release_acquire None (w_pc ur) w Hwf
                (λ l Hl, wf_weak_cell _ _ Hwf r ur l Hr Hl)) as [Hh Hev].
    unfold w'. rewrite Hh, Hev, app_nil_r.
    rewrite insert_id by (by destruct ur). by destruct w.
Qed.

(** X11. Assigning an owner to an observer makes the observer see what
    the owner holds: [try_get()] is the owner's pointer and [expired()]
    tells whether it is null; the owner is left alone. *)
Theorem X11_weak_assign_owner x o ux v w :
  wf w → weaks w !! x = Some ux → owners w !! o = Some v →
  can_acquire (pc v) (heap w) →
  ∃ w',
    weak_assign_owner x o w = Some (tt, w') ∧
    owners w' = owners w ∧
    weaks w' = <[x := UniqueWeakPtr (pc v)]> (weaks w) ∧
    snapshot_of x o w' ∧
    try_get x w' = Some (px v, w') ∧
    expired x w' = Some (bool_decide (px v = nullptr), w').
Proof.
  intros Hwf Hx Ho Hacq.
  pose proof (weak_assign_owner_spec x o ux v w Hwf Hx Ho Hacq) as Hs.
  eexists. split; [exact Hs|].
  match type of Hs with _ = Some (_, ?w0) => set (w' := w0) in * end.
  assert (Hwf' : wf w') by (by eapply weak_assign_owner_wf).
  assert (Hx' : weaks w' !! x = Some (UniqueWeakPtr (pc v))) by apply lookup_insert_eq.
  assert (Hsn : snapshot_of x o w') by (by eexists _, _).
  split; [done|]. split; [done|]. split; [done|].
  split; [by apply (snapshot_try_get x o v w')|].
  rewrite (expired_eq x _ w' Hx'). cbn [w_pc].
  pose proof (wf_owner_px _ _ Hwf' o v Ho ltac:(done)) as Hpx.
  destruct (pc v) as [l|].
  - destruct Hpx as (c & Hc & Hpxc). rewrite Hc, Hpxc. done.
  - rewrite Hpx. done.
Qed.

(** X12. Move-assigning an observer from another one hands over the
    handle: the assigned observer answers what the source answered, the
    source is left holding nothing and reports expired, and the handle
    the assigned observer had is released.  Move-assigning an observer
    to itself gives back the very same store. *)
Theorem X12_weak_assign_move x r ux ur w :
  wf w → weaks w !! x = Some ux → weaks w !! r = Some ur →
  (x ≠ r →
     ∃ w',
       weak_assign_move x r w = Some (tt, w') ∧
       owners w' = owners w ∧
       weaks w' = <[x := UniqueWeakPtr (w_pc ur)]>
                    (<[r := UniqueWeakPtr None]> (weaks w)) ∧
       heap w' = heap_after_release (w_pc ux) (heap w) ∧
       reports_expired r w' ∧
       ∀ b p, expired r w = Some (b, w) → try_get r w = Some (p, w) →
              expired x w' = Some (b, w') ∧ try_get x w' = Some (p, w')) ∧
  weak_assign_move r r w = Some (tt, w).
Proof.
  intros Hwf Hx Hr. split.
  - intros Hne.
    pose proof (weak_assign_move_spec x r ux ur w Hwf Hne Hx Hr) as Hs.
    eexists. split; [exact Hs|].
    match type of Hs with _ = Some (_, ?w0) => set (w' := w0) in * end.
    assert (Hwf' : wf w') by (by eapply weak_assign_move_wf).
    assert (Hx' : weaks w' !! x = Some (UniqueWeakPtr (w_pc ur)))
      by apply lookup_insert_eq.
    repeat (split; [done|]). split.
    + apply reports_expired_unbound. simpl.
      rewrite lookup_insert_ne by done. apply lookup_insert_eq.
    + intros b p He Hg.
      apply (observer_answers_kept None r x ur (UniqueWeakPtr (w_pc ur)) w w' b p);
      try done.
      apply (exec_weak_observes (WeakAssignMove x r)); done.
  - rewrite (weak_assign_move_self_spec r ur w Hwf Hr).
    rewrite insert_id by (by destruct ur). by destruct w.
Qed.

(** ** Deleters, scopes and raw pointers *)

Lemma snapshot_expired x o v w :
  wf w → owners w !! o = Some v → snapshot_of x o w →
  expired x w = Some (bool_decide (px v = nullptr), w).
Proof.
  intros Hwf Ho (u & v' & Hu & Ho' & Hpc).
  assert (v' = v) as -> by congruence.
  rewrite (expired_eq x u w Hu), Hpc.
  pose proof (wf_owner_px _ _ Hwf o v Ho ltac:(done)) as Hpx.
  destruct (pc v) as [l|].
  - destruct Hpx as (c & Hc & Hpxc). rewrite Hc, Hpxc. done.
  - rewrite Hpx. done.
Qed.

Lemma owner_get_deleter_spec o v w :
  owners w !! o = Some v → owner_get_deleter o w = Some (pd v, w).
Proof.
  intros Ho. unfold owner_get_deleter, get_owner, mbind, M_bind, bind.
  by rewrite Ho.
Qed.


Lemma events_of_destroy_fresh_cell q p d l (h : gmap loc control_block) :
  events_of_destroy (WeakableUniquePtr q d (Some l)) (<[l := ControlBlock 1 p]> h)
  = (if decide (q = nullptr) then [] else [EvDelete d q]) ++ [EvReset l; EvFree l].
Proof.
  unfold events_of_destroy. cbn [px pd pc]. rewrite lookup_insert_eq.
  cbn [ref_count]. by destruct (decide (1 - 1 = 0)).
Qed.

Lemma heap_after_destroy_fresh_cell p l (h : gmap loc control_block) :
  h !! l = None →
  heap_after_destroy (Some l) (<[l := ControlBlock 1 p]> h) = h.
Proof.
  intros Hl. unfold heap_after_destroy. rewrite lookup_insert_eq.
  cbn [ref_count]. destruct (decide (1 - 1 = 0)); [|done].
  by rewrite delete_insert_eq, delete_id.
Qed.

(** X13. [reset], [release] and the assignment of [nullptr] do not keep
    the owner's deleter: each is a swap with a temporary whose deleter
    is [Deleter()], so afterwards [get_deleter()] is [Deleter()],
    whatever deleter the owner was built with.  The object passed to
    [reset] is therefore deleted by [Deleter()] when the owner dies. *)
Theorem X13_mutators_drop_the_deleter o p v w :
  wf w → owners w !! o = Some v →
  ∃ w1 w2 w3 w4 l,
    owner_reset o p w = Some (tt, w1) ∧
    owner_get_deleter o w1 = Some (default_delete, w1) ∧
    owner_release o w = Some (px v, w2) ∧
    owner_get_deleter o w2 = Some (default_delete, w2) ∧
    owner_assign_nullptr o w = Some (tt, w3) ∧
    owner_get_deleter o w3 = Some (default_delete, w3) ∧
    owner_destroy o w1 = Some (tt, w4) ∧
    trace w4
    = trace w1
      ++ (if decide (p = nullptr) then [] else [EvDelete default_delete p])
      ++ [EvReset l; EvFree l].
Proof.
  intros Hwf Ho.
  pose proof (owner_reset_spec o p v w Hwf Ho) as H1.
  pose proof (owner_release_spec o v w Hwf Ho) as H2.
  pose proof (owner_assign_nullptr_spec o v w Hwf Ho) as H3.
  match type of H1 with _ = Some (_, ?w0) => set (w1 := w0) in * end.
  assert (Hwf1 : wf w1) by (by eapply owner_reset_wf).
  assert (Ho1 : owners w1 !! o
                = Some (WeakableUniquePtr p default_delete (Some (fresh (dom (heap w))))))
    by apply lookup_insert_eq.
  pose proof (owner_destroy_spec o _ w1 (wf_but_weaken _ _ Hwf1) Ho1) as H4.
  match type of H2 with _ = Some (_, ?w0) => set (w2 := w0) in * end.
  match type of H3 with _ = Some (_, ?w0) => set (w3 := w0) in * end.
  assert (Ho2 : owners w2 !! o = Some empty_owner) by apply lookup_insert_eq.
  assert (Ho3 : owners w3 !! o = Some empty_owner) by apply lookup_insert_eq.
  eexists w1, w2, w3, _, (fresh (dom (heap w))).
  split; [exact H1|].
  split; [by rewrite (owner_get_deleter_spec o _ w1 Ho1)|].
  split; [exact H2|].
  split; [by rewrite (owner_get_deleter_spec o _ w2 Ho2)|].
  split; [exact H3|].
  split; [by rewrite (owner_get_deleter_spec o _ w3 Ho3)|].
  split; [exact H4|]. cbn [trace]. f_equal.
  unfold w1. cbn [heap]. apply events_of_destroy_fresh_cell.
Qed.

(** X14. An owner that is built and then released or destroyed leaves
    the heap as it found it: the control block it allocated is freed.
    Released, it gives back the pointer it was built with and no deleter
    is called; destroyed, it calls the deleter it was given, once, if
    the pointer is not null, and the whole store but the trace is as
    before. *)
Theorem X14_build_then_drop o p d w :
  wf w → owners w !! o = None →
  ∃ l,
    heap w !! l = None ∧
    (owner_pointer_deleter o p d;; owner_release o) w
    = Some (p, World (<[o := empty_owner]> (owners w)) (weaks w) (heap w)
                 (trace w ++ [EvNew l p; EvReset l; EvFree l])) ∧
    (owner_pointer_deleter o p d;; owner_destroy o) w
    = Some (tt, World (owners w) (weaks w) (heap w)
                  (trace w ++ EvNew l p
                     :: (if decide (p = nullptr) then [] else [EvDelete d p])
                     ++ [EvReset l; EvFree l])).
Proof.
  intros Hwf Ho. exists (fresh (dom (heap w))).
  split; [apply fresh_heap|].
  pose proof (owner_pointer_deleter_spec o p d w Ho) as Hc.
  match type of Hc with _ = Some (_, ?w0) => set (w1 := w0) in * end.
  assert (Hwf1 : wf w1) by (by eapply owner_pointer_deleter_wf).
  assert (Ho1 : owners w1 !! o
                = Some (WeakableUniquePtr p d (Some (fresh (dom (heap w))))))
    by apply lookup_insert_eq.
  split.
  - rewrite (bind_eq _ _ _ _ _ Hc).
    rewrite (owner_release_spec o _ w1 Hwf1 Ho1). cbn [px pc pd owners weaks heap trace w1].
    rewrite insert_insert_eq, heap_after_destroy_fresh_cell by apply fresh_heap.
    rewrite events_of_destroy_fresh_cell, <- app_assoc.
    by rewrite decide_True by done.
  - rewrite (bind_eq _ _ _ _ _ Hc).
    rewrite (owner_destroy_spec o _ w1 (wf_but_weaken _ _ Hwf1) Ho1).
    cbn [px pc pd owners weaks heap trace w1].
    rewrite delete_insert_eq, delete_id by done.
    rewrite heap_after_destroy_fresh_cell by apply fresh_heap.
    rewrite events_of_destroy_fresh_cell, <- app_assoc. done.
Qed.

(** X15. A moved-from owner is inert: it converts to [false], and
    destroying it calls no deleter, resets no control block and changes
    no count; the object lives on in the owner it was moved to, and the
    observers built from the source still see it. *)
Theorem X15_moved_from_is_inert o r v w :
  wf w → owners w !! r = Some v → owners w !! o = None →
  ∃ w1 w2,
    owner_move o r w = Some (tt, w1) ∧
    owner_bool r w1 = Some (false, w1) ∧
    owner_destroy r w1 = Some (tt, w2) ∧
    heap w2 = heap w ∧ trace w2 = trace w ∧ weaks w2 = weaks w ∧
    owners w2 = <[o := WeakableUniquePtr (px v) (pd v) (pc v)]> (delete r (owners w)) ∧
    ∀ x, snapshot_of x r w →
         try_get x w2 = Some (px v, w2) ∧
         expired x w2 = Some (bool_decide (px v = nullptr), w2).
Proof.
  intros Hwf Hr Ho.
  assert (Hne : r ≠ o) by congruence.
  pose proof (owner_move_spec o r v w Hr Ho) as H1.
  match type of H1 with _ = Some (_, ?w0) => set (w1 := w0) in * end.
  assert (Hwf1 : wf w1) by (by eapply owner_move_wf).
  assert (Hr1 : owners w1 !! r
                = Some (WeakableUniquePtr nullptr (moved_from (pd v)) None)).
  { simpl. rewrite lookup_insert_ne by done. apply lookup_insert_eq. }
  pose proof (owner_destroy_spec r _ w1 (wf_but_weaken _ _ Hwf1) Hr1) as H2.
  match type of H2 with _ = Some (_, ?w0) => set (w2 := w0) in * end.
  assert (Hwf2 : wf w2).
  { eapply owner_destroy_wf; [apply wf_but_weaken, Hwf1 | exact H2]. }
  assert (Ho2 : owners w2 !! o = Some (WeakableUniquePtr (px v) (pd v) (pc v))).
  { simpl. rewrite lookup_delete_ne by done. apply lookup_insert_eq. }
  exists w1, w2. split; [exact H1|]. split.
  { unfold owner_bool, get_owner, mbind, M_bind, bind. by rewrite Hr1. }
  split; [exact H2|]. split; [done|].
  split; [cbn [trace w2 w1 events_of_destroy px pc]; apply app_nil_r|].
  split; [done|]. split.
  { simpl. by rewrite delete_insert_ne, delete_insert_eq by done. }
  intros x (u & v' & Hu & Hr' & Hpc). assert (v' = v) as -> by congruence.
  assert (Hsn : snapshot_of x o w2) by (by eexists _, _).
  split.
  - exact (snapshot_try_get x o _ w2 Hwf2 Ho2 Hsn).
  - exact (snapshot_expired x o _ w2 Hwf2 Ho2 Hsn).
Qed.

End Deleter.

(** ** Instances

    The theorems at a concrete deleter type ([nat], with [0] for
    [Deleter()] and deleters that survive a move), 64-bit [long], and
    stores reached by short programs. *)

Lemma LONG_MAX_64_min : 2147483647 ≤ LONG_MAX_64.
Proof. unfold LONG_MAX_64. lia. Qed.

(** The store after [weakable_unique_ptr o( 7, 5 ); unique_weak_ptr x( o );]. *)
Abbreviation owner_with_observer :=
  (@World nat
     {[ 0%nat := WeakableUniquePtr 7%N 5%nat (Some 1%positive) ]}
     {[ 0%nat := UniqueWeakPtr (Some 1%positive) ]}
     {[ 1%positive := ControlBlock 2 7%N ]}
     [EvNew 1%positive 7%N]).

Lemma owner_with_observer_run :
  run 0%nat id LONG_MAX_64
    [OwnerPointerDeleter 0%nat 7%N 5%nat; WeakFromOwner 0%nat 0%nat] empty_world
  = Some (tt, owner_with_observer).
Proof. vm_compute. reflexivity. Qed.

Lemma owner_with_observer_wf : wf owner_with_observer.
Proof.
  eapply run_wf; [apply wf_empty_world | apply owner_with_observer_run].
Qed.

Lemma owner_with_observer_snapshot : snapshot_of 0%nat 0%nat owner_with_observer.
Proof. eexists _, _. split; [reflexivity|]. split; reflexivity. Qed.

Lemma C1_release_witness :
  2147483647 ≤ LONG_MAX_64 ∧ wf owner_with_observer ∧
  owners owner_with_observer !! 0%nat
    = Some (WeakableUniquePtr 7%N 5%nat (Some 1%positive)) ∧
  ∃ w' evs,
    owner_release 0%nat LONG_MAX_64 0%nat owner_with_observer = Some (7%N, w') ∧
    trace w' = trace owner_with_observer ++ evs ∧
    (∀ d p, EvDelete d p ∉ evs) ∧
    reports_expired 0%nat w'.
Proof.
  split; [apply LONG_MAX_64_min|]. split; [apply owner_with_observer_wf|].
  split; [reflexivity|].
  destruct (C1_release 0%nat LONG_MAX_64 LONG_MAX_64_min 0%nat _ owner_with_observer
              owner_with_observer_wf eq_refl)
    as (w' & evs & Hr & _ & _ & _ & Ht & Hnd & _ & Hsnap & _).
  exists w', evs. split; [exact Hr|]. split; [exact Ht|]. split; [exact Hnd|].
  apply Hsnap, owner_with_observer_snapshot.
Defined.

Lemma C2_reset_witness :
  2147483647 ≤ LONG_MAX_64 ∧ wf owner_with_observer ∧
  owners owner_with_observer !! 0%nat
    = Some (WeakableUniquePtr 7%N 5%nat (Some 1%positive)) ∧
  ∃ w',
    owner_reset 0%nat LONG_MAX_64 0%nat 9%N owner_with_observer = Some (tt, w') ∧
    trace w' = [EvNew 1%positive 7%N; EvNew 2%positive 9%N;
                EvDelete 5%nat 7%N; EvReset 1%positive] ∧
    reports_expired 0%nat w' ∧
    ∃ w'', weak_from_owner LONG_MAX_64 1%nat 0%nat w' = Some (tt, w'') ∧
           try_get 1%nat w'' = Some (9%N, w'').
Proof.
  split; [apply LONG_MAX_64_min|]. split; [apply owner_with_observer_wf|].
  split; [reflexivity|].
  destruct (C2_reset 0%nat LONG_MAX_64 LONG_MAX_64_min 0%nat 9%N _ owner_with_observer
              owner_with_observer_wf eq_refl)
    as (l & w' & Hr & _ & _ & Hwk & _ & Ht & _ & _ & _ & Hsnap & _ & Hnew).
  exists w'. split; [exact Hr|].
  assert (Hr' := Hr). vm_compute in Hr'. injection Hr' as Hw'.
  split; [by rewrite <- Hw'|].
  split; [apply Hsnap, owner_with_observer_snapshot|].
  destruct (Hnew 1%nat) as (w'' & Hs & _ & Hg).
  { rewrite Hwk. reflexivity. }
  exists w''. split; [exact Hs | exact Hg].
Defined.

(** The claim has [reset] allocate after it has destroyed and cleared.
    On an owner of [7] reset to [9] the allocation of the new control
    block is recorded before the deleter runs on [7] and before the old
    block is reset, and not after either. *)
Lemma C2_reset_order_counterexample :
  ∃ w w',
    run 0%nat id LONG_MAX_64 [OwnerPointer 0%nat 7%N] empty_world = Some (tt, w) ∧
    owner_reset 0%nat LONG_MAX_64 0%nat 9%N w = Some (tt, w') ∧
    trace w' = trace w ++ [EvNew 2%positive 9%N; EvDelete 0%nat 7%N;
                           EvReset 1%positive; EvFree 1%positive] ∧
    precedes (EvNew 2%positive 9%N) (EvDelete 0%nat 7%N) (trace w') ∧
    precedes (EvNew 2%positive 9%N) (EvReset 1%positive) (trace w') ∧
    ¬ precedes (EvDelete 0%nat 7%N) (EvNew 2%positive 9%N) (trace w') ∧
    ¬ precedes (EvReset (Deleter:=nat) 1%positive) (EvNew 2%positive 9%N) (trace w').
Proof.
  eexists _, _. split; [vm_compute; reflexivity|].
  split; [vm_compute; reflexivity|]. split; [reflexivity|]. simpl.
  split; [exists 1%nat, 2%nat; split; [lia | split; reflexivity]|].
  split; [exists 1%nat, 3%nat; split; [lia | split; reflexivity]|].
  split.
  - intros (i & j & Hlt & Hi & Hj).
    destruct j as [|[|[|[|[|j]]]]]; try discriminate Hj.
    destruct i as [|[|[|[|[|i]]]]]; try discriminate Hi. lia.
  - intros (i & j & Hlt & Hi & Hj).
    destruct j as [|[|[|[|[|j]]]]]; try discriminate Hj.
    destruct i as [|[|[|[|[|i]]]]]; try discriminate Hi. lia.
Qed.

Lemma C3_destructor_witness :
  2147483647 ≤ LONG_MAX_64 ∧ wf owner_with_observer ∧
  owners owner_with_observer !! 0%nat
    = Some (WeakableUniquePtr 7%N 5%nat (Some 1%positive)) ∧
  ∃ w',
    owner_destroy LONG_MAX_64 0%nat owner_with_observer = Some (tt, w') ∧
    trace w' = [EvNew 1%positive 7%N; EvDelete 5%nat 7%N; EvReset 1%positive] ∧
    reports_expired 0%nat w'.
Proof.
  split; [apply LONG_MAX_64_min|]. split; [apply owner_with_observer_wf|].
  split; [reflexivity|].
  destruct (C3_destructor id LONG_MAX_64 LONG_MAX_64_min 0%nat _ owner_with_observer
              owner_with_observer_wf eq_refl)
    as (w' & Hr & _ & _ & _ & _ & _ & Hsnap & _).
  exists w'. split; [exact Hr|].
  assert (Hr' := Hr). vm_compute in Hr'. injection Hr' as Hw'.
  split; [by rewrite <- Hw'|].
  apply Hsnap, owner_with_observer_snapshot.
Defined.

Lemma C4_move_witness :
  2147483647 ≤ LONG_MAX_64 ∧ wf owner_with_observer ∧
  owners owner_with_observer !! 0%nat
    = Some (WeakableUniquePtr 7%N 5%nat (Some 1%positive)) ∧
  owners owner_with_observer !! 1%nat = None ∧
  ∃ w',
    owner_move id 1%nat 0%nat owner_with_observer = Some (tt, w') ∧
    owners w' !! 1%nat = Some (WeakableUniquePtr 7%N 5%nat (Some 1%positive)) ∧
    owners w' !! 0%nat = Some (WeakableUniquePtr nullptr 5%nat None) ∧
    heap w' = heap owner_with_observer ∧
    try_get 0%nat w' = Some (7%N, w').
Proof.
  split; [apply LONG_MAX_64_min|]. split; [apply owner_with_observer_wf|].
  split; [reflexivity|]. split; [reflexivity|].
  destruct (C4_move id LONG_MAX_64 LONG_MAX_64_min 1%nat 0%nat _ owner_with_observer
              owner_with_observer_wf eq_refl) as [Hctor _].
  destruct (Hctor eq_refl) as (w' & Hr & Ho & Hs & _ & Hh & _ & Hsnap).
  exists w'. split; [exact Hr|]. split; [exact Ho|]. split; [exact Hs|].
  split; [exact Hh|]. apply Hsnap, owner_with_observer_snapshot.
Defined.

(** The claim has every move assignment leave its source empty.  An
    owner of [7] move-assigned to itself still owns [7] and still holds
    its control block. *)
Lemma C4_self_move_counterexample :
  ∃ w w',
    run 0%nat id LONG_MAX_64 [OwnerPointer 0%nat 7%N] empty_world = Some (tt, w) ∧
    owner_assign_move id LONG_MAX_64 0%nat 0%nat w = Some (tt, w') ∧
    owners w' !! 0%nat = Some (WeakableUniquePtr 7%N 0%nat (Some 1%positive)) ∧
    ¬ ∃ d, owners w' !! 0%nat = Some (WeakableUniquePtr nullptr d None).
Proof.
  eexists _, _. split; [vm_compute; reflexivity|].
  split; [vm_compute; reflexivity|]. split; [reflexivity|].
  intros (d & Hd). vm_compute in Hd. discriminate Hd.
Qed.

Lemma C5_expired_try_get_witness :
  wf owner_with_observer ∧
  weaks owner_with_observer !! 0%nat = Some (UniqueWeakPtr (Some 1%positive)) ∧
  expired 0%nat owner_with_observer = Some (false, owner_with_observer) ∧
  try_get 0%nat owner_with_observer = Some (7%N, owner_with_observer).
Proof.
  split; [apply owner_with_observer_wf|]. split; [reflexivity|].
  destruct (C5_expired_try_get 0%nat _ owner_with_observer
              owner_with_observer_wf eq_refl)
    as (b & p & He & Hg & Hb & Hp & _).
  rewrite (Hp 1%positive (ControlBlock 2 7%N) eq_refl eq_refl) in Hg by done.
  split; [|exact Hg].
  destruct b; [|exact He].
  destruct (proj1 Hb eq_refl) as [Hn|(l & c & Hl & Hc & Hpx)].
  - discriminate Hn.
  - injection Hl as <-. vm_compute in Hc. injection Hc as <-. discriminate Hpx.
Defined.

Lemma C6_pointer_constructor_witness :
  2147483647 ≤ LONG_MAX_64 ∧ wf (Deleter:=nat) empty_world ∧
  owners (Deleter:=nat) empty_world !! 0%nat = None ∧
  ∃ l w' w'',
    owner_pointer_deleter LONG_MAX_64 0%nat nullptr 5%nat empty_world = Some (tt, w') ∧
    heap w' !! l = Some (ControlBlock 1 nullptr) ∧
    owner_bool 0%nat w' = Some (false, w') ∧
    weak_from_owner LONG_MAX_64 0%nat 0%nat w' = Some (tt, w'') ∧
    weaks w'' !! 0%nat = Some (UniqueWeakPtr (Some l)) ∧
    expired 0%nat w'' = Some (true, w'').
Proof.
  split; [apply LONG_MAX_64_min|]. split; [apply wf_empty_world|].
  split; [reflexivity|].
  destruct (C6_pointer_constructor 0%nat LONG_MAX_64 LONG_MAX_64_min 0%nat nullptr 5%nat
              empty_world wf_empty_world eq_refl)
    as (_ & l & w' & Hr & _ & _ & Hh & _ & Hb & Hobs).
  destruct (Hobs 0%nat) as (w'' & Hs & Hx & He & _).
  { assert (Hr' := Hr). vm_compute in Hr'. injection Hr' as <-. reflexivity. }
  exists l, w', w''. split; [exact Hr|].
  split; [rewrite Hh; apply lookup_insert_eq|].
  split; [exact Hb|]. split; [exact Hs|]. split; [exact Hx | exact He].
Defined.

Lemma C7_default_owner_snapshot_witness :
  2147483647 ≤ LONG_MAX_64 ∧ wf (Deleter:=nat) empty_world ∧
  owners (Deleter:=nat) empty_world !! 0%nat = None ∧
  weaks (Deleter:=nat) empty_world !! 0%nat = None ∧
  ∃ w1 w2 w3,
    owner_default 0%nat 0%nat empty_world = Some (tt, w1) ∧
    weak_from_owner LONG_MAX_64 0%nat 0%nat w1 = Some (tt, w2) ∧
    reports_expired 0%nat w2 ∧
    run 0%nat id LONG_MAX_64
      [OwnerReset 0%nat 9%N; WeakFromOwner 1%nat 0%nat] w2 = Some (tt, w3) ∧
    reports_expired 0%nat w3 ∧
    try_get 1%nat w3 = Some (9%N, w3).
Proof.
  split; [apply LONG_MAX_64_min|]. split; [apply wf_empty_world|].
  split; [reflexivity|]. split; [reflexivity|].
  destruct (C7_default_owner_snapshot 0%nat id LONG_MAX_64 LONG_MAX_64_min 0%nat 0%nat
              empty_world wf_empty_world eq_refl eq_refl)
    as (w1 & w2 & H1 & _ & _ & _ & H2 & _ & _ & He & Hrun & _).
  assert (H1' := H1). vm_compute in H1'. injection H1' as <-.
  assert (H2' := H2). vm_compute in H2'. injection H2' as <-.
  eexists _, _, _. split; [exact H1|]. split; [exact H2|]. split; [exact He|].
  split; [vm_compute; reflexivity|].
  split; [|vm_compute; reflexivity].
  eapply (Hrun [OwnerReset 0%nat 9%N; WeakFromOwner 1%nat 0%nat]).
  - repeat constructor; simpl; intros Hin;
      repeat (apply elem_of_cons in Hin as [Hin|Hin]; [discriminate Hin|]);
      by apply elem_of_nil in Hin.
  - vm_compute. reflexivity.
Defined.

Lemma C8_reference_count_witness :
  2147483647 ≤ LONG_MAX_64 ∧
  run 0%nat id LONG_MAX_64
    [OwnerPointerDeleter 0%nat 7%N 5%nat; WeakFromOwner 0%nat 0%nat] empty_world
  = Some (tt, owner_with_observer) ∧
  heap owner_with_observer !! 1%positive = Some (ControlBlock 2 7%N) ∧
  handles owner_with_observer 1%positive = 2%nat ∧
  ∃ w', intrusive_ptr_release LONG_MAX_64 1%positive owner_with_observer
        = Some (tt, w') ∧
        heap w' = {[ 1%positive := ControlBlock 1 7%N ]}.
Proof.
  split; [apply LONG_MAX_64_min|]. split; [apply owner_with_observer_run|].
  split; [reflexivity|].
  destruct (C8_reference_count (Deleter:=nat) 0%nat id LONG_MAX_64) as (_ & Hrel & Hinv).
  destruct (Hinv _ _ owner_with_observer_run 1%positive) as (_ & _ & Hcount).
  assert (Hcell : heap owner_with_observer !! 1%positive = Some (ControlBlock 2 7%N))
    by reflexivity.
  specialize (Hcount (ControlBlock 2 7%N) Hcell). simpl in Hcount.
  split; [lia|].
  destruct (Hrel 1%positive (ControlBlock 2 7%N) owner_with_observer Hcell)
    as (w' & Hr & _ & _ & _ & Hdec).
  { unfold LONG_MAX_64. simpl. lia. }
  exists w'. split; [exact Hr|].
  destruct Hdec as [-> _]; [simpl; lia|]. reflexivity.
Defined.

Lemma C10_assign_nullptr_witness :
  2147483647 ≤ LONG_MAX_64 ∧ wf owner_with_observer ∧
  owners owner_with_observer !! 0%nat
    = Some (WeakableUniquePtr 7%N 5%nat (Some 1%positive)) ∧
  ∃ w' w'',
    owner_assign_nullptr 0%nat LONG_MAX_64 0%nat owner_with_observer = Some (tt, w') ∧
    owners w' !! 0%nat = Some (WeakableUniquePtr nullptr 0%nat None) ∧
    trace w' = [EvNew 1%positive 7%N; EvDelete 5%nat 7%N; EvReset 1%positive] ∧
    reports_expired 0%nat w' ∧
    weak_from_owner LONG_MAX_64 1%nat 0%nat w' = Some (tt, w'') ∧
    weaks w'' !! 1%nat = Some (UniqueWeakPtr None).
Proof.
  split; [apply LONG_MAX_64_min|]. split; [apply owner_with_observer_wf|].
  split; [reflexivity|].
  destruct (C10_assign_nullptr 0%nat LONG_MAX_64 LONG_MAX_64_min 0%nat _
              owner_with_observer owner_with_observer_wf eq_refl)
    as (w' & Hr & Ho & Hwk & _ & Ht & _ & _ & _ & Hsnap & Hnew).
  destruct (Hnew 1%nat) as (w'' & Hs & Hx & _).
  { rewrite Hwk. reflexivity. }
  exists w', w''. split; [exact Hr|].
  split; [rewrite Ho; apply lookup_insert_eq|].
  split; [rewrite Ht; reflexivity|].
  split; [apply Hsnap, owner_with_observer_snapshot|].
  split; [exact Hs | exact Hx].
Defined.

(** ** Further instances

    Stores for the theorems on observers, swaps and scopes. *)

(** After [weakable_unique_ptr o( 7, 5 ); unique_weak_ptr x( o );] and
    the end of [o]: the observer holds the last handle to a block that
    has been reset. *)
Abbreviation observer_outlives_owner :=
  (@World nat ∅
     {[ 0%nat := UniqueWeakPtr (Some 1%positive) ]}
     {[ 1%positive := ControlBlock 1 nullptr ]}
     [EvNew 1%positive 7%N; EvDelete 5%nat 7%N; EvReset 1%positive]).

Lemma observer_outlives_owner_run :
  run 0%nat id LONG_MAX_64
    [OwnerPointerDeleter 0%nat 7%N 5%nat; WeakFromOwner 0%nat 0%nat;
     OwnerDestroy 0%nat] empty_world
  = Some (tt, observer_outlives_owner).
Proof. vm_compute. reflexivity. Qed.

Lemma observer_outlives_owner_wf : wf observer_outlives_owner.
Proof.
  eapply run_wf; [apply wf_empty_world | apply observer_outlives_owner_run].
Qed.

(** [owner_with_observer] and a second owner, of [9]. *)
Abbreviation two_owners :=
  (@World nat
     {[ 0%nat := WeakableUniquePtr 7%N 5%nat (Some 1%positive);
        1%nat := WeakableUniquePtr 9%N 0%nat (Some 2%positive) ]}
     {[ 0%nat := UniqueWeakPtr (Some 1%positive) ]}
     {[ 1%positive := ControlBlock 2 7%N; 2%positive := ControlBlock 1 9%N ]}
     [EvNew 1%positive 7%N; EvNew 2%positive 9%N]).

Lemma two_owners_run :
  run 0%nat id LONG_MAX_64
    [OwnerPointerDeleter 0%nat 7%N 5%nat; WeakFromOwner 0%nat 0%nat;
     OwnerPointer 1%nat 9%N] empty_world
  = Some (tt, two_owners).
Proof. vm_compute. reflexivity. Qed.

Lemma two_owners_wf : wf two_owners.
Proof. eapply run_wf; [apply wf_empty_world | apply two_owners_run]. Qed.

(** [owner_with_observer] and a second observer, of nothing. *)
Abbreviation two_observers :=
  (@World nat
     {[ 0%nat := WeakableUniquePtr 7%N 5%nat (Some 1%positive) ]}
     {[ 0%nat := UniqueWeakPtr (Some 1%positive); 1%nat := UniqueWeakPtr None ]}
     {[ 1%positive := ControlBlock 2 7%N ]}
     [EvNew 1%positive 7%N]).

Lemma two_observers_run :
  run 0%nat id LONG_MAX_64
    [OwnerPointerDeleter 0%nat 7%N 5%nat; WeakFromOwner 0%nat 0%nat;
     WeakDefault 1%nat] empty_world
  = Some (tt, two_observers).
Proof. vm_compute. reflexivity. Qed.

Lemma two_observers_wf : wf two_observers.
Proof. eapply run_wf; [apply wf_empty_world | apply two_observers_run]. Qed.

Lemma can_acquire_cell_of_two (p : pointer) :
  can_acquire LONG_MAX_64 (Some 1%positive)
    ({[ 1%positive := ControlBlock 2 p ]} : gmap loc control_block).
Proof.
  intros l b Hl Hb. injection Hl as <-.
  rewrite lookup_singleton_eq in Hb. injection Hb as <-.
  simpl. unfold LONG_MAX_64. lia.
Qed.

Lemma X1_expired_is_final_witness :
  2147483647 ≤ LONG_MAX_64 ∧ wf observer_outlives_owner ∧
  Forall (λ c : cmd (Deleter:=nat), 0%nat ∉ weak_writes c)
    [OwnerPointer 1%nat 7%N; WeakCopy 1%nat 0%nat; WeakFromOwner 2%nat 1%nat] ∧
  reports_expired 0%nat observer_outlives_owner ∧
  ∃ w',
    run 0%nat id LONG_MAX_64
      [OwnerPointer 1%nat 7%N; WeakCopy 1%nat 0%nat; WeakFromOwner 2%nat 1%nat]
      observer_outlives_owner = Some (tt, w') ∧
    try_get 2%nat w' = Some (7%N, w') ∧
    reports_expired 0%nat w'.
Proof.
  assert (Hcs : Forall (λ c : cmd (Deleter:=nat), 0%nat ∉ weak_writes c)
            [OwnerPointer 1%nat 7%N; WeakCopy 1%nat 0%nat; WeakFromOwner 2%nat 1%nat]).
  { repeat constructor; simpl; intros H;
      repeat (apply elem_of_cons in H as [H|H]; [discriminate H|]);
      by apply elem_of_nil in H. }
  assert (Hex : reports_expired 0%nat observer_outlives_owner)
    by (split; reflexivity).
  split; [apply LONG_MAX_64_min|]. split; [apply observer_outlives_owner_wf|].
  split; [exact Hcs|]. split; [exact Hex|].
  destruct (run 0%nat id LONG_MAX_64
              [OwnerPointer 1%nat 7%N; WeakCopy 1%nat 0%nat; WeakFromOwner 2%nat 1%nat]
              observer_outlives_owner) as [[[] w']|] eqn:Hrun;
    [|vm_compute in Hrun; discriminate Hrun].
  exists w'. split; [reflexivity|]. split.
  - vm_compute in Hrun. injection Hrun as <-. reflexivity.
  - exact (X1_expired_is_final 0%nat id LONG_MAX_64 LONG_MAX_64_min _ 0%nat _ w'
             observer_outlives_owner_wf Hcs Hex Hrun).
Defined.

Lemma X2_observers_only_observe_witness :
  2147483647 ≤ LONG_MAX_64 ∧ wf owner_with_observer ∧
  is_weak_cmd (Deleter:=nat) (WeakCopy 1%nat 0%nat) = true ∧
  ∃ w',
    exec 0%nat id LONG_MAX_64 (WeakCopy 1%nat 0%nat) owner_with_observer
      = Some (tt, w') ∧
    observes_only owner_with_observer w' ∧
    expired 0%nat w' = Some (false, w') ∧
    try_get 0%nat w' = Some (7%N, w').
Proof.
  split; [apply LONG_MAX_64_min|]. split; [apply owner_with_observer_wf|].
  split; [reflexivity|].
  destruct (exec 0%nat id LONG_MAX_64 (WeakCopy 1%nat 0%nat) owner_with_observer)
    as [[[] w']|] eqn:Hrun; [|vm_compute in Hrun; discriminate Hrun].
  destruct (X2_observers_only_observe 0%nat id LONG_MAX_64 LONG_MAX_64_min
              (WeakCopy 1%nat 0%nat) _ w'
              owner_with_observer_wf eq_refl Hrun) as [Hobs Hkeep].
  exists w'. split; [reflexivity|]. split; [exact Hobs|].
  apply (Hkeep 0%nat false 7%N); [|reflexivity|reflexivity].
  simpl. intros H. apply elem_of_cons in H as [H|H]; [discriminate H|].
  by apply elem_of_nil in H.
Defined.

Lemma X3_defined_when_ready_witness :
  2147483647 ≤ LONG_MAX_64 ∧ wf owner_with_observer ∧
  ready LONG_MAX_64 (WeakFromOwner 1%nat 0%nat) owner_with_observer ∧
  ∃ w',
    exec 0%nat id LONG_MAX_64 (WeakFromOwner 1%nat 0%nat) owner_with_observer
      = Some (tt, w') ∧ wf w'.
Proof.
  assert (Hr : ready LONG_MAX_64 (WeakFromOwner 1%nat 0%nat) owner_with_observer).
  { split; [reflexivity|]. eexists. split; [reflexivity|].
    apply can_acquire_cell_of_two. }
  split; [apply LONG_MAX_64_min|]. split; [apply owner_with_observer_wf|].
  split; [exact Hr|].
  exact (X3_defined_when_ready 0%nat id LONG_MAX_64 LONG_MAX_64_min _ _
           owner_with_observer_wf Hr).
Defined.

Lemma X4_owner_swap_witness :
  wf two_owners ∧
  owners two_owners !! 0%nat = Some (WeakableUniquePtr 7%N 5%nat (Some 1%positive)) ∧
  owners two_owners !! 1%nat = Some (WeakableUniquePtr 9%N 0%nat (Some 2%positive)) ∧
  ∃ w',
    owner_swap 0%nat 1%nat two_owners = Some (tt, w') ∧
    owner_get 1%nat w' = Some (7%N, w') ∧
    try_get 0%nat w' = Some (7%N, w') ∧
    owner_swap 0%nat 1%nat w' = Some (tt, two_owners).
Proof.
  split; [apply two_owners_wf|]. split; [reflexivity|]. split; [reflexivity|].
  assert (Ha : owners two_owners !! 0%nat
               = Some (WeakableUniquePtr 7%N 5%nat (Some 1%positive))) by reflexivity.
  assert (Hb : owners two_owners !! 1%nat
               = Some (WeakableUniquePtr 9%N 0%nat (Some 2%positive))) by reflexivity.
  destruct (X4_owner_swap 0%nat 1%nat _ _ two_owners two_owners_wf Ha Hb)
    as (w' & Hs & _ & Hr & _ & _ & _ & Hsnap & Hback & _).
  exists w'. split; [exact Hs|]. split.
  { unfold owner_get, get_owner, mbind, M_bind, bind. by rewrite Hr. }
  split; [|exact Hback].
  apply Hsnap. eexists _, _. split; [reflexivity|]. split; reflexivity.
Defined.

Lemma X5_snapshot_sees_owner_witness :
  wf owner_with_observer ∧
  owners owner_with_observer !! 0%nat
    = Some (WeakableUniquePtr 7%N 5%nat (Some 1%positive)) ∧
  weaks owner_with_observer !! 1%nat = None ∧
  can_acquire LONG_MAX_64 (Some 1%positive) (heap owner_with_observer) ∧
  ∃ w',
    weak_from_owner LONG_MAX_64 1%nat 0%nat owner_with_observer = Some (tt, w') ∧
    heap w' !! 1%positive = Some (ControlBlock 3 7%N) ∧
    try_get 1%nat w' = Some (7%N, w') ∧
    expired 1%nat w' = Some (false, w').
Proof.
  split; [apply owner_with_observer_wf|]. split; [reflexivity|].
  split; [reflexivity|]. split; [apply can_acquire_cell_of_two|].
  assert (Ho : owners owner_with_observer !! 0%nat
               = Some (WeakableUniquePtr 7%N 5%nat (Some 1%positive))) by reflexivity.
  assert (Hx : weaks owner_with_observer !! 1%nat = None) by reflexivity.
  destruct (X5_snapshot_sees_owner LONG_MAX_64 1%nat 0%nat _ owner_with_observer
              owner_with_observer_wf Ho Hx (can_acquire_cell_of_two 7%N))
    as (w' & Hs & _ & _ & _ & Hh & _ & Hg & He).
  exists w'. split; [exact Hs|]. split; [by rewrite Hh|].
  split; [exact Hg | exact He].
Defined.

Lemma X6_weak_copy_witness :
  wf owner_with_observer ∧
  weaks owner_with_observer !! 0%nat = Some (UniqueWeakPtr (Some 1%positive)) ∧
  weaks owner_with_observer !! 1%nat = None ∧
  can_acquire LONG_MAX_64 (Some 1%positive) (heap owner_with_observer) ∧
  ∃ w',
    weak_copy LONG_MAX_64 1%nat 0%nat owner_with_observer = Some (tt, w') ∧
    heap w' !! 1%positive = Some (ControlBlock 3 7%N) ∧
    try_get 1%nat w' = try_get 0%nat w'.
Proof.
  split; [apply owner_with_observer_wf|]. split; [reflexivity|].
  split; [reflexivity|]. split; [apply can_acquire_cell_of_two|].
  assert (Hr : weaks owner_with_observer !! 0%nat
               = Some (UniqueWeakPtr (Some 1%positive))) by reflexivity.
  assert (Hx : weaks owner_with_observer !! 1%nat = None) by reflexivity.
  destruct (X6_weak_copy LONG_MAX_64 1%nat 0%nat _ owner_with_observer
              owner_with_observer_wf Hr Hx (can_acquire_cell_of_two 7%N))
    as (w' & Hs & _ & _ & _ & _ & Hc & _ & Hg).
  exists w'. split; [exact Hs|]. split; [|exact Hg].
  exact (Hc 1%positive (ControlBlock 2 7%N) eq_refl eq_refl).
Defined.

Lemma X7_weak_move_witness :
  wf owner_with_observer ∧
  weaks owner_with_observer !! 0%nat = Some (UniqueWeakPtr (Some 1%positive)) ∧
  weaks owner_with_observer !! 1%nat = None ∧
  ∃ w',
    weak_move 1%nat 0%nat owner_with_observer = Some (tt, w') ∧
    heap w' = heap owner_with_observer ∧
    reports_expired 0%nat w' ∧
    try_get 1%nat w' = Some (7%N, w').
Proof.
  split; [apply owner_with_observer_wf|]. split; [reflexivity|].
  split; [reflexivity|].
  assert (Hr : weaks owner_with_observer !! 0%nat
               = Some (UniqueWeakPtr (Some 1%positive))) by reflexivity.
  assert (Hx : weaks owner_with_observer !! 1%nat = None) by reflexivity.
  destruct (X7_weak_move 1%nat 0%nat _ owner_with_observer
              owner_with_observer_wf Hr Hx)
    as (w' & Hs & _ & Hh & _ & _ & _ & Hex & Hkeep).
  exists w'. split; [exact Hs|]. split; [exact Hh|]. split; [exact Hex|].
  apply (Hkeep false 7%N); reflexivity.
Defined.

Lemma X8_weak_swap_witness :
  weaks two_observers !! 0%nat = Some (UniqueWeakPtr (Some 1%positive)) ∧
  weaks two_observers !! 1%nat = Some (UniqueWeakPtr None) ∧
  ∃ w',
    weak_swap 0%nat 1%nat two_observers = Some (tt, w') ∧
    weaks w' !! 0%nat = Some (UniqueWeakPtr None) ∧
    weaks w' !! 1%nat = Some (UniqueWeakPtr (Some 1%positive)) ∧
    weak_swap 0%nat 1%nat w' = Some (tt, two_observers).
Proof.
  split; [reflexivity|]. split; [reflexivity|].
  assert (Ha : weaks two_observers !! 0%nat
               = Some (UniqueWeakPtr (Some 1%positive))) by reflexivity.
  assert (Hb : weaks two_observers !! 1%nat = Some (UniqueWeakPtr None))
    by reflexivity.
  destruct (X8_weak_swap 0%nat 1%nat _ _ two_observers Ha Hb)
    as (w' & Hs & Hx & Hr & _ & _ & _ & _ & _ & Hback).
  exists w'. split; [exact Hs|]. split; [exact Hx|]. split; [exact Hr|].
  exact Hback.
Defined.

Lemma X9_weak_drop_witness :
  2147483647 ≤ LONG_MAX_64 ∧ wf observer_outlives_owner ∧
  weaks observer_outlives_owner !! 0%nat = Some (UniqueWeakPtr (Some 1%positive)) ∧
  ∃ w1 w2,
    weak_destroy LONG_MAX_64 0%nat observer_outlives_owner = Some (tt, w1) ∧
    weak_reset LONG_MAX_64 0%nat observer_outlives_owner = Some (tt, w2) ∧
    heap w2 = heap w1 ∧ trace w2 = trace w1 ∧
    heap w1 = delete 1%positive (heap observer_outlives_owner) ∧
    trace w1 = trace observer_outlives_owner ++ [EvFree 1%positive].
Proof.
  split; [apply LONG_MAX_64_min|]. split; [apply observer_outlives_owner_wf|].
  split; [reflexivity|].
  assert (Hx : weaks observer_outlives_owner !! 0%nat
               = Some (UniqueWeakPtr (Some 1%positive))) by reflexivity.
  destruct (X9_weak_drop LONG_MAX_64 LONG_MAX_64_min 0%nat _ observer_outlives_owner
              observer_outlives_owner_wf Hx)
    as (w1 & w2 & H1 & H2 & _ & _ & _ & _ & _ & Hh & Ht & _ & Hcell).
  exists w1, w2. split; [exact H1|]. split; [exact H2|].
  split; [exact Hh|]. split; [exact Ht|].
  assert (Hc : heap observer_outlives_owner !! 1%positive
               = Some (ControlBlock 1 nullptr)) by reflexivity.
  destruct (Hcell 1%positive _ eq_refl Hc) as [Hlast _].
  apply Hlast. vm_compute. reflexivity.
Defined.

Lemma X10_weak_assign_copy_witness :
  2147483647 ≤ LONG_MAX_64 ∧ wf two_observers ∧
  weaks two_observers !! 1%nat = Some (UniqueWeakPtr None) ∧
  weaks two_observers !! 0%nat = Some (UniqueWeakPtr (Some 1%positive)) ∧
  can_acquire LONG_MAX_64 (Some 1%positive) (heap two_observers) ∧
  ∃ w',
    weak_assign_copy LONG_MAX_64 1%nat 0%nat two_observers = Some (tt, w') ∧
    expired 1%nat w' = Some (false, w') ∧
    try_get 1%nat w' = Some (7%N, w').
Proof.
  split; [apply LONG_MAX_64_min|]. split; [apply two_observers_wf|].
  split; [reflexivity|]. split; [reflexivity|].
  split; [apply can_acquire_cell_of_two|].
  assert (Hx : weaks two_observers !! 1%nat = Some (UniqueWeakPtr None))
    by reflexivity.
  assert (Hr : weaks two_observers !! 0%nat
               = Some (UniqueWeakPtr (Some 1%positive))) by reflexivity.
  destruct (X10_weak_assign_copy 0%nat id LONG_MAX_64 LONG_MAX_64_min 1%nat 0%nat
              _ _ two_observers two_observers_wf Hx Hr (can_acquire_cell_of_two 7%N))
    as (w' & Hs & _ & _ & _ & _ & Hkeep & _).
  exists w'. split; [exact Hs|]. apply (Hkeep false 7%N); reflexivity.
Defined.

Lemma X11_weak_assign_owner_witness :
  2147483647 ≤ LONG_MAX_64 ∧ wf two_observers ∧
  weaks two_observers !! 1%nat = Some (UniqueWeakPtr None) ∧
  owners two_observers !! 0%nat
    = Some (WeakableUniquePtr 7%N 5%nat (Some 1%positive)) ∧
  can_acquire LONG_MAX_64 (Some 1%positive) (heap two_observers) ∧
  ∃ w',
    weak_assign_owner LONG_MAX_64 1%nat 0%nat two_observers = Some (tt, w') ∧
    snapshot_of 1%nat 0%nat w' ∧
    try_get 1%nat w' = Some (7%N, w') ∧
    expired 1%nat w' = Some (false, w').
Proof.
  split; [apply LONG_MAX_64_min|]. split; [apply two_observers_wf|].
  split; [reflexivity|]. split; [reflexivity|].
  split; [apply can_acquire_cell_of_two|].
  assert (Hx : weaks two_observers !! 1%nat = Some (UniqueWeakPtr None))
    by reflexivity.
  assert (Ho : owners two_observers !! 0%nat
               = Some (WeakableUniquePtr 7%N 5%nat (Some 1%positive))) by reflexivity.
  destruct (X11_weak_assign_owner LONG_MAX_64 LONG_MAX_64_min 1%nat 0%nat _ _
              two_observers two_observers_wf Hx Ho (can_acquire_cell_of_two 7%N))
    as (w' & Hs & _ & _ & Hsn & Hg & He).
  exists w'. split; [exact Hs|]. split; [exact Hsn|].
  split; [exact Hg | exact He].
Defined.

Lemma X12_weak_assign_move_witness :
  2147483647 ≤ LONG_MAX_64 ∧ wf two_observers ∧
  weaks two_observers !! 1%nat = Some (UniqueWeakPtr None) ∧
  weaks two_observers !! 0%nat = Some (UniqueWeakPtr (Some 1%positive)) ∧
  (∃ w',
     weak_assign_move LONG_MAX_64 1%nat 0%nat two_observers = Some (tt, w') ∧
     heap w' = heap two_observers ∧
     reports_expired 0%nat w' ∧
     try_get 1%nat w' = Some (7%N, w')) ∧
  weak_assign_move LONG_MAX_64 0%nat 0%nat two_observers = Some (tt, two_observers).
Proof.
  split; [apply LONG_MAX_64_min|]. split; [apply two_observers_wf|].
  split; [reflexivity|]. split; [reflexivity|].
  assert (Hx : weaks two_observers !! 1%nat = Some (UniqueWeakPtr None))
    by reflexivity.
  assert (Hr : weaks two_observers !! 0%nat
               = Some (UniqueWeakPtr (Some 1%positive))) by reflexivity.
  destruct (X12_weak_assign_move 0%nat id LONG_MAX_64 LONG_MAX_64_min 1%nat 0%nat
              _ _ two_observers two_observers_wf Hx Hr) as [Hmove Hself].
  split; [|exact Hself].
  destruct (Hmove ltac:(discriminate)) as (w' & Hs & _ & _ & Hh & Hex & Hkeep).
  exists w'. split; [exact Hs|]. split; [exact Hh|]. split; [exact Hex|].
  apply (Hkeep false 7%N); reflexivity.
Defined.

Lemma X13_mutators_drop_the_deleter_witness :
  2147483647 ≤ LONG_MAX_64 ∧ wf owner_with_observer ∧
  owners owner_with_observer !! 0%nat
    = Some (WeakableUniquePtr 7%N 5%nat (Some 1%positive)) ∧
  ∃ w1 w4 l,
    owner_get_deleter 0%nat owner_with_observer = Some (5%nat, owner_with_observer) ∧
    owner_reset 0%nat LONG_MAX_64 0%nat 9%N owner_with_observer = Some (tt, w1) ∧
    owner_get_deleter 0%nat w1 = Some (0%nat, w1) ∧
    owner_destroy LONG_MAX_64 0%nat w1 = Some (tt, w4) ∧
    trace w4 = trace w1 ++ [EvDelete 0%nat 9%N; EvReset l; EvFree l].
Proof.
  split; [apply LONG_MAX_64_min|]. split; [apply owner_with_observer_wf|].
  split; [reflexivity|].
  assert (Ho : owners owner_with_observer !! 0%nat
               = Some (WeakableUniquePtr 7%N 5%nat (Some 1%positive))) by reflexivity.
  destruct (X13_mutators_drop_the_deleter 0%nat LONG_MAX_64 LONG_MAX_64_min
              0%nat 9%N _ owner_with_observer owner_with_observer_wf Ho)
    as (w1 & w2 & w3 & w4 & l & H1 & Hd1 & _ & _ & _ & _ & H4 & Ht).
  exists w1, w4, l. split; [reflexivity|]. split; [exact H1|].
  split; [exact Hd1|]. split; [exact H4 | exact Ht].
Defined.

Lemma X14_build_then_drop_witness :
  2147483647 ≤ LONG_MAX_64 ∧ wf owner_with_observer ∧
  owners owner_with_observer !! 1%nat = None ∧
  ∃ l w1 w2,
    (owner_pointer_deleter LONG_MAX_64 1%nat 9%N 3%nat;;
     owner_release 0%nat LONG_MAX_64 1%nat) owner_with_observer = Some (9%N, w1) ∧
    (owner_pointer_deleter LONG_MAX_64 1%nat 9%N 3%nat;;
     owner_destroy LONG_MAX_64 1%nat) owner_with_observer = Some (tt, w2) ∧
    heap w1 = heap owner_with_observer ∧
    heap w2 = heap owner_with_observer ∧
    owners w2 = owners owner_with_observer ∧
    trace w2 = trace owner_with_observer
               ++ [EvNew l 9%N; EvDelete 3%nat 9%N; EvReset l; EvFree l].
Proof.
  split; [apply LONG_MAX_64_min|]. split; [apply owner_with_observer_wf|].
  split; [reflexivity|].
  assert (Ho : owners owner_with_observer !! 1%nat = None) by reflexivity.
  destruct (X14_build_then_drop 0%nat LONG_MAX_64 LONG_MAX_64_min 1%nat 9%N 3%nat
              owner_with_observer owner_with_observer_wf Ho)
    as (l & _ & H1 & H2).
  eexists l, _, _. split; [exact H1|]. split; [exact H2|].
  split; [reflexivity|]. split; [reflexivity|]. split; reflexivity.
Defined.

Lemma X15_moved_from_is_inert_witness :
  2147483647 ≤ LONG_MAX_64 ∧ wf owner_with_observer ∧
  owners owner_with_observer !! 0%nat
    = Some (WeakableUniquePtr 7%N 5%nat (Some 1%positive)) ∧
  owners owner_with_observer !! 1%nat = None ∧
  ∃ w1 w2,
    owner_move id 1%nat 0%nat owner_with_observer = Some (tt, w1) ∧
    owner_destroy LONG_MAX_64 0%nat w1 = Some (tt, w2) ∧
    heap w2 = heap owner_with_observer ∧
    trace w2 = trace owner_with_observer ∧
    try_get 0%nat w2 = Some (7%N, w2) ∧
    expired 0%nat w2 = Some (false, w2).
Proof.
  split; [apply LONG_MAX_64_min|]. split; [apply owner_with_observer_wf|].
  split; [reflexivity|]. split; [reflexivity|].
  assert (Hr : owners owner_with_observer !! 0%nat
               = Some (WeakableUniquePtr 7%N 5%nat (Some 1%positive))) by reflexivity.
  assert (Ho : owners owner_with_observer !! 1%nat = None) by reflexivity.
  destruct (X15_moved_from_is_inert id LONG_MAX_64 LONG_MAX_64_min 1%nat 0%nat _
              owner_with_observer owner_with_observer_wf Hr Ho)
    as (w1 & w2 & H1 & _ & H2 & Hh & Ht & _ & _ & Hsnap).
  exists w1, w2. split; [exact H1|]. split; [exact H2|].
  split; [exact Hh|]. split; [exact Ht|].
  exact (Hsnap 0%nat owner_with_observer_snapshot).
Defined.

